(** * Andalus Downloader: the download orchestration engine

    A shallow embedding of the queue, the bounded scheduler, the per-task
    runner and the notification fan-out of the backend
    (src/core/models.py, src/core/database.py, src/core/download_task.py,
    src/core/download_manager.py, src/api/app.py), followed by the
    properties of the engine that the specification states.

    Conventions of the embedding.
    - Python objects that are shared and mutated (the runner objects held
      both by the registry and by their background coroutine) live in a
      heap indexed by handles; the registry maps download ids to handles.
    - The [start_download()] coroutine of a runner is cut in two atomic
      steps at its last suspension before the fetch (the store write of
      [DOWNLOADING]); yt-dlp's download is a blocking call, so the fetch
      and what follows it form the second step. Steps of different
      coroutines and calls of the manager interleave freely.
    - Exceptions are explicit: a computation returns [Ok] or [Raise], and
      the state reached before the exception is kept, as in Python.
    - The SQLite store is the list of its rows in insertion order; whether
      a given call to the store raises, and for a write whether it raises
      at [execute] (nothing applied) or at [commit] (the statement stays
      applied), is decided by an oracle carried in the state, so that
      every schedule of storage failures is covered.
    - A call of the manager is one step. Where a property depends on what
      other coroutines do while a call waits, the call is also given in
      its parts: [cancel_download_overlapped] for [cancel_download], and
      [Hub.send_live] for the sending loop of [broadcast], which walks the
      live list of connections across its awaits.
    - A percentage is the exact rational the float expression denotes. *)

From Stdlib Require Import QArith.
From stdpp Require Import gmap strings list fin_maps.

Local Open Scope Z_scope.

(** ** models.py *)

Inductive DownloadStatus :=
  | PENDING | DOWNLOADING | PAUSED | COMPLETED | FAILED | CANCELLED.

Global Instance DownloadStatus_eq_dec : EqDecision DownloadStatus.
Proof. solve_decision. Defined.

(** The string stored in the [status] column ([DownloadStatus.value]). *)
Definition value (s : DownloadStatus) : string :=
  match s with
  | PENDING => "pending"
  | DOWNLOADING => "downloading"
  | PAUSED => "paused"
  | COMPLETED => "completed"
  | FAILED => "failed"
  | CANCELLED => "cancelled"
  end.

(** [DownloadProgress]; [speed] and [eta] are copied from the sample
    untouched and are not represented. *)
Record DownloadProgress := {
  dp_downloaded_bytes : Z;
  dp_total_bytes : option Z;
  dp_percentage : Q;
  dp_status : DownloadStatus
}.

(** [DownloadTask], with the fields the runner reads or writes. *)
Record DownloadTask := {
  id : string;
  url : string;
  status : DownloadStatus;
  progress : Q;
  file_path : option string;
  file_size : option Z;
  downloaded_size : Z;
  error_message : option string
}.

Definition task_set_status (s : DownloadStatus) (t : DownloadTask) : DownloadTask :=
  {| id := id t; url := url t; status := s; progress := progress t;
     file_path := file_path t; file_size := file_size t;
     downloaded_size := downloaded_size t; error_message := error_message t |}.

Definition task_set_progress (p : Q) (t : DownloadTask) : DownloadTask :=
  {| id := id t; url := url t; status := status t; progress := p;
     file_path := file_path t; file_size := file_size t;
     downloaded_size := downloaded_size t; error_message := error_message t |}.

Definition task_set_file_path (f : option string) (t : DownloadTask) : DownloadTask :=
  {| id := id t; url := url t; status := status t; progress := progress t;
     file_path := f; file_size := file_size t;
     downloaded_size := downloaded_size t; error_message := error_message t |}.

Definition task_set_file_size (n : option Z) (t : DownloadTask) : DownloadTask :=
  {| id := id t; url := url t; status := status t; progress := progress t;
     file_path := file_path t; file_size := n;
     downloaded_size := downloaded_size t; error_message := error_message t |}.

Definition task_set_downloaded_size (n : Z) (t : DownloadTask) : DownloadTask :=
  {| id := id t; url := url t; status := status t; progress := progress t;
     file_path := file_path t; file_size := file_size t;
     downloaded_size := n; error_message := error_message t |}.

Definition task_set_error_message (e : option string) (t : DownloadTask) : DownloadTask :=
  {| id := id t; url := url t; status := status t; progress := progress t;
     file_path := file_path t; file_size := file_size t;
     downloaded_size := downloaded_size t; error_message := e |}.

(** ** database.py: the [downloads] table *)

Module Db.

(** One row; the columns that no operation of the engine reads back
    (title, platform, thumbnail, the start and completion stamps, ...)
    are left out. [row_created_at] is the creation stamp as a number. *)
Record Row := {
  row_id : string;
  row_url : string;
  row_status : DownloadStatus;
  row_progress : Q;
  row_created_at : Z;
  row_error_message : option string
}.

(** The dictionary given to [update_download]: a column is written when
    its key is present. *)
Record UpdateData := {
  upd_status : option DownloadStatus;
  upd_progress : option Q;
  upd_error_message : option string
}.

Definition only_status (s : DownloadStatus) : UpdateData :=
  {| upd_status := Some s; upd_progress := None; upd_error_message := None |}.

Definition apply_update (u : UpdateData) (r : Row) : Row :=
  {| row_id := row_id r;
     row_url := row_url r;
     row_status := default (row_status r) (upd_status u);
     row_progress := default (row_progress r) (upd_progress u);
     row_created_at := row_created_at r;
     row_error_message :=
       match upd_error_message u with
       | Some e => Some e
       | None => row_error_message r
       end |}.

(** [UPDATE downloads SET ... WHERE id = ?] *)
Definition sql_update (download_id : string) (u : UpdateData) (rows : list Row) : list Row :=
  map (fun r => if decide (row_id r = download_id) then apply_update u r else r) rows.

(** [cursor.rowcount] of that statement. *)
Definition sql_rowcount (download_id : string) (rows : list Row) : nat :=
  length (filter (fun r => row_id r = download_id) rows).

(** [SELECT * FROM downloads WHERE id = ?] then [fetchone]. *)
Definition sql_select_id (download_id : string) (rows : list Row) : option Row :=
  head (filter (fun r => row_id r = download_id) rows).

(** [ORDER BY created_at DESC]: newest first. SQLite leaves the order
    of rows with equal stamps open; here the one inserted last comes
    first. *)
Fixpoint insert_desc (r : Row) (sorted : list Row) : list Row :=
  match sorted with
  | [] => [r]
  | x :: rest =>
      if Z.ltb (row_created_at x) (row_created_at r)
      then r :: x :: rest
      else x :: insert_desc r rest
  end.

Definition order_by_created_at_desc (rows : list Row) : list Row :=
  foldr insert_desc [] rows.

(** [LIMIT ? OFFSET ?]: a negative limit is no limit, a negative offset
    is none. *)
Definition limit_offset (limit offset : Z) (l : list Row) : list Row :=
  let l := drop (Z.to_nat offset) l in
  if Z.ltb limit 0 then l else take (Z.to_nat limit) l.

(** The two queries of [get_downloads]; Python's [if status:] takes the
    unfiltered one for [None]. *)
Definition sql_select (status : option DownloadStatus) (limit offset : Z)
    (rows : list Row) : list Row :=
  let matching :=
    match status with
    | Some s => filter (fun r => row_status r = s) rows
    | None => rows
    end in
  limit_offset limit offset (order_by_created_at_desc matching).

(** [DELETE FROM downloads WHERE id = ?] *)
Definition sql_delete (download_id : string) (rows : list Row) : list Row :=
  filter (fun r => row_id r ≠ download_id) rows.

End Db.

(** ** download_task.py: the runner object *)

(** [DownloadTaskManager]. [_download_process] is never assigned by the
    source, so the branches guarded by it do not run and the field is
    omitted. *)
Record DownloadTaskManager := {
  task : DownloadTask;
  _cancelled : bool;
  _paused : bool
}.

(** Where the fire-and-forget [start_download()] coroutine of a runner
    stands: created but not yet run; [DOWNLOADING] written and the fetch
    still to come; or over. *)
Inductive Coroutine := Launched | Fetching | Returned.

Global Instance Coroutine_eq_dec : EqDecision Coroutine.
Proof. solve_decision. Defined.

Record Cell := {
  runner : DownloadTaskManager;
  coroutine : Coroutine
}.

(** ** The store's failures

    Every write of [database.py] is [execute] followed by [commit], with
    no rollback: when [execute] raises, nothing is applied; when [commit]
    raises, the statement stays applied on the connection that all calls
    share, where every later call sees it and the next commit that
    returns makes it durable. *)
Inductive Fault := Answers | ExecuteRaises | CommitRaises.

(** Whether the call raises. *)
Definition raises (f : Fault) : bool :=
  match f with
  | Answers => false
  | ExecuteRaises | CommitRaises => true
  end.

(** ** The state of the process *)

Record World := {
  rows : list Db.Row;                    (* the downloads table *)
  db_faults : list Fault;                (* how the store treats the next calls *)
  download_queue : list string;          (* DownloadManager.download_queue *)
  active_downloads : gmap string nat;    (* DownloadManager.active_downloads *)
  heap : list Cell;                      (* the runner objects *)
  max_concurrent_downloads : Z;
  _running : bool;
  status_log : list (string * DownloadStatus);     (* status publications *)
  progress_log : list (string * DownloadProgress)  (* progress publications *)
}.

Definition set_rows (x : list Db.Row) (w : World) : World :=
  {| rows := x; db_faults := db_faults w; download_queue := download_queue w;
     active_downloads := active_downloads w; heap := heap w;
     max_concurrent_downloads := max_concurrent_downloads w;
     _running := _running w; status_log := status_log w;
     progress_log := progress_log w |}.

Definition set_db_faults (x : list Fault) (w : World) : World :=
  {| rows := rows w; db_faults := x; download_queue := download_queue w;
     active_downloads := active_downloads w; heap := heap w;
     max_concurrent_downloads := max_concurrent_downloads w;
     _running := _running w; status_log := status_log w;
     progress_log := progress_log w |}.

Definition set_download_queue (x : list string) (w : World) : World :=
  {| rows := rows w; db_faults := db_faults w; download_queue := x;
     active_downloads := active_downloads w; heap := heap w;
     max_concurrent_downloads := max_concurrent_downloads w;
     _running := _running w; status_log := status_log w;
     progress_log := progress_log w |}.

Definition set_active_downloads (x : gmap string nat) (w : World) : World :=
  {| rows := rows w; db_faults := db_faults w; download_queue := download_queue w;
     active_downloads := x; heap := heap w;
     max_concurrent_downloads := max_concurrent_downloads w;
     _running := _running w; status_log := status_log w;
     progress_log := progress_log w |}.

Definition set_heap (x : list Cell) (w : World) : World :=
  {| rows := rows w; db_faults := db_faults w; download_queue := download_queue w;
     active_downloads := active_downloads w; heap := x;
     max_concurrent_downloads := max_concurrent_downloads w;
     _running := _running w; status_log := status_log w;
     progress_log := progress_log w |}.

Definition set_running (x : bool) (w : World) : World :=
  {| rows := rows w; db_faults := db_faults w; download_queue := download_queue w;
     active_downloads := active_downloads w; heap := heap w;
     max_concurrent_downloads := max_concurrent_downloads w;
     _running := x; status_log := status_log w;
     progress_log := progress_log w |}.

Definition set_status_log (x : list (string * DownloadStatus)) (w : World) : World :=
  {| rows := rows w; db_faults := db_faults w; download_queue := download_queue w;
     active_downloads := active_downloads w; heap := heap w;
     max_concurrent_downloads := max_concurrent_downloads w;
     _running := _running w; status_log := x;
     progress_log := progress_log w |}.

Definition set_progress_log (x : list (string * DownloadProgress)) (w : World) : World :=
  {| rows := rows w; db_faults := db_faults w; download_queue := download_queue w;
     active_downloads := active_downloads w; heap := heap w;
     max_concurrent_downloads := max_concurrent_downloads w;
     _running := _running w; status_log := status_log w;
     progress_log := x |}.

(** ** Computations: state and exceptions *)

Inductive Result (A : Type) :=
  | Ok (a : A)
  | Raise (e : string).
Arguments Ok {A} a.
Arguments Raise {A} e.

Definition M (A : Type) : Type := World -> Result A * World.

Global Instance M_ret : MRet M := fun A a w => (Ok a, w).

Global Instance M_bind : MBind M := fun A B f m w =>
  match m w with
  | (Ok a, w') => f a w'
  | (Raise e, w') => (Raise e, w')
  end.

Definition raise {A} (e : string) : M A := fun w => (Raise e, w).

(** [try: body except Exception as e: handler e] *)
Definition try_except {A} (body : M A) (handler : string -> M A) : M A := fun w =>
  match body w with
  | (Ok a, w') => (Ok a, w')
  | (Raise e, w') => handler e w'
  end.

Definition gets {A} (f : World -> A) : M A := fun w => (Ok (f w), w).
Definition modify (f : World -> World) : M unit := fun w => (Ok tt, f w).

(** The state a computation leaves, and its outcome. *)
Definition exec {A} (m : M A) (w : World) : World := snd (m w).
Definition outcome {A} (m : M A) (w : World) : Result A := fst (m w).

(** ** database.py: the calls, with their failures *)

Module Database.

(** Every method body is wrapped in [try: ... except: log; raise]: an
    error of the store reaches the caller. The oracle says how the store
    treats this call; an exhausted oracle means no further failure. A
    call that fails at its commit has run its statement: a write is
    applied, a read has written nothing, and a statement that the store
    itself refuses has raised before its commit. *)
Definition call {A} (q : list Db.Row -> Result A * list Db.Row) : M A := fun w =>
  let run (w0 : World) :=
    let '(r, rows') := q (rows w0) in (r, set_rows rows' w0) in
  match db_faults w with
  | Answers :: fs => run (set_db_faults fs w)
  | ExecuteRaises :: fs => (Raise "database error", set_db_faults fs w)
  | CommitRaises :: fs =>
      match run (set_db_faults fs w) with
      | (Ok _, w') => (Raise "database error", w')
      | (Raise e, w') => (Raise e, w')
      end
  | [] => run w
  end.

(** [insert_download]; [id] is the primary key, so a second row with
    the same id is refused by the store. *)
Definition insert_download (r : Db.Row) : M string :=
  call (fun rows =>
    match Db.sql_select_id (Db.row_id r) rows with
    | Some _ => (Raise "UNIQUE constraint failed: downloads.id", rows)
    | None => (Ok (Db.row_id r), rows ++ [r])
    end).

(** [update_download]: [True] iff a row was updated. *)
Definition update_download (download_id : string) (u : Db.UpdateData) : M bool :=
  call (fun rows =>
    (Ok (bool_decide (0 < Db.sql_rowcount download_id rows)%nat),
     Db.sql_update download_id u rows)).

Definition get_download (download_id : string) : M (option Db.Row) :=
  call (fun rows => (Ok (Db.sql_select_id download_id rows), rows)).

(** [get_downloads(status=None, limit=50, offset=0)] *)
Definition get_downloads (status : option DownloadStatus) (limit offset : Z)
    : M (list Db.Row) :=
  call (fun rows => (Ok (Db.sql_select status limit offset rows), rows)).

Definition default_limit : Z := 50.

(** [delete_download]: [True] iff a row was deleted. *)
Definition delete_download (download_id : string) : M bool :=
  call (fun rows =>
    (Ok (bool_decide (0 < Db.sql_rowcount download_id rows)%nat),
     Db.sql_delete download_id rows)).

End Database.

(** ** Publication of status and progress changes

    [DownloadManager._notify_status_callbacks] and [_on_progress_update]
    call every registered callback inside its own [try/except] (see
    [Hub] below for the loop itself), so a publication never raises into
    the engine and writes nothing of the engine's own state. In the
    engine's state a publication is an entry of a log. *)
Definition publish_status (download_id : string) (s : DownloadStatus) : M unit :=
  modify (fun w => set_status_log (status_log w ++ [(download_id, s)]) w).

Definition publish_progress (download_id : string) (p : DownloadProgress) : M unit :=
  modify (fun w => set_progress_log (progress_log w ++ [(download_id, p)]) w).

(** ** download_task.py: [DownloadTaskManager] *)

(** What yt-dlp hands to a progress hook. A missing [total_bytes_estimate]
    and one that is [None] both leave the task untouched (the second by
    the [TypeError] that the hook swallows), so both are [None] here. *)
Inductive HookEvent :=
  | HookDownloading (downloaded_bytes : Z) (total_bytes : option Z)
                    (total_bytes_estimate : option Z)
  | HookFinished (filename : option string)
  | HookOther.

(** How one run of yt-dlp ends, after its hooks. *)
Inductive FetchEnd :=
  | FileFound (path : string)      (* [_find_downloaded_file] found it *)
  | FileNotFound
  | FetchRaised (msg : string).    (* [ydl.download] raised *)

(** One run of the external fetch: whether [extract_info] raises; the
    [info] it returns otherwise ([None] for no dictionary, [Some n] for a
    dictionary whose [filesize], or else [filesize_approx], is [n]); the
    hook calls of [ydl.download]; and the end. *)
Record Fetch := {
  extract_error : option string;
  info : option (option Z);
  hooks : list HookEvent;
  ending : FetchEnd
}.

Module Runner.

Definition set_task (t : DownloadTask) (r : DownloadTaskManager) : DownloadTaskManager :=
  {| task := t; _cancelled := _cancelled r; _paused := _paused r |}.

Definition set_cancelled (b : bool) (r : DownloadTaskManager) : DownloadTaskManager :=
  {| task := task r; _cancelled := b; _paused := _paused r |}.

Definition set_paused (b : bool) (r : DownloadTaskManager) : DownloadTaskManager :=
  {| task := task r; _cancelled := _cancelled r; _paused := b |}.

(** Access to the runner object behind a handle. *)
Definition self (h : nat) : M DownloadTaskManager := fun w =>
  match heap w !! h with
  | Some c => (Ok (runner c), w)
  | None => (Raise "no such object", w)
  end.

Definition update_self (h : nat) (f : DownloadTaskManager -> DownloadTaskManager) : M unit :=
  modify (fun w =>
    match heap w !! h with
    | Some c => set_heap (<[h := {| runner := f (runner c); coroutine := coroutine c |}]> (heap w)) w
    | None => w
    end).

Definition set_coroutine (h : nat) (p : Coroutine) : M unit :=
  modify (fun w =>
    match heap w !! h with
    | Some c => set_heap (<[h := {| runner := runner c; coroutine := p |}]> (heap w)) w
    | None => w
    end).

(** [_update_status]: the status callback is the manager's
    [_on_status_update], that is [_notify_status_callbacks]. *)
Definition _update_status (h : nat) (s : DownloadStatus) : M unit :=
  update_self h (fun r => set_task (task_set_status s (task r)) r);;
  r ← self h;
  publish_status (id (task r)) s.

(** [total = d.get('total_bytes') or d.get('total_bytes_estimate', 0)] *)
Definition hook_total (total_bytes total_bytes_estimate : option Z) : Z :=
  match total_bytes with
  | Some t => if Z.eqb t 0 then default 0 total_bytes_estimate else t
  | None => default 0 total_bytes_estimate
  end.

(** [percentage = (downloaded / total) * 100] *)
Definition percentage_of (downloaded total : Z) : Q :=
  ((inject_Z downloaded / inject_Z total) * 100)%Q.

(** [_progress_hook]: the new runner, and the progress object handed to
    the progress callback when there is one. *)
Definition _progress_hook (d : HookEvent) (r : DownloadTaskManager)
    : DownloadTaskManager * option DownloadProgress :=
  match d with
  | HookDownloading downloaded total_bytes total_bytes_estimate =>
      let total := hook_total total_bytes total_bytes_estimate in
      if Z.ltb 0 total then
        let percentage := percentage_of downloaded total in
        let t := task_set_file_size (Some total)
                   (task_set_downloaded_size downloaded
                      (task_set_progress percentage (task r))) in
        (set_task t r,
         Some {| dp_downloaded_bytes := downloaded;
                 dp_total_bytes := Some total;
                 dp_percentage := percentage;
                 dp_status := DOWNLOADING |})
      else (r, None)
  | HookFinished filename =>
      (set_task (task_set_file_path filename (task_set_progress 100%Q (task r))) r, None)
  | HookOther => (r, None)
  end.

(** The hook as yt-dlp calls it on the runner behind [h]; the manager
    always installs [_on_progress_update] as the progress callback. *)
Definition progress_hook (h : nat) (d : HookEvent) : M unit :=
  r ← self h;
  let '(r', p) := _progress_hook d r in
  update_self h (fun _ => r');;
  match p with
  | Some p => publish_progress (id (task r')) p
  | None => mret tt
  end.

Fixpoint run_hooks (h : nat) (ds : list HookEvent) : M unit :=
  match ds with
  | [] => mret tt
  | d :: rest => progress_hook h d;; run_hooks h rest
  end.

(** [_execute_download]: the whole body sits in a [try] whose handler
    stores the message and returns [False]. *)
Definition _execute_download (h : nat) (f : Fetch) : M bool :=
  try_except
    (match extract_error f with
     | Some e => raise e
     | None => mret tt
     end;;
     match info f with
     | Some filesize =>
         update_self h (fun r => set_task (task_set_file_size filesize (task r)) r)
     | None => mret tt
     end;;
     r ← self h;
     if negb (_cancelled r) && negb (_paused r) then
       run_hooks h (hooks f);;
       match ending f with
       | FileFound path =>
           match info f with
           | Some _ =>
               update_self h
                 (fun r => set_task (task_set_file_path (Some path) (task r)) r);;
               mret true
           | None => mret false    (* the file is looked up through [info] *)
           end
       | FileNotFound => mret false
       | FetchRaised msg => raise msg
       end
     else mret false)
    (fun e =>
       update_self h (fun r => set_task (task_set_error_message (Some e) (task r)) r);;
       mret false).

Definition task_id (h : nat) : M string := r ← self h; mret (id (task r)).

(** [start_download] up to the point where it waits for the fetch. *)
Definition start_download_prologue (h : nat) : M unit :=
  _update_status h DOWNLOADING;;
  i ← task_id h;
  Database.update_download i (Db.only_status DOWNLOADING);;
  mret tt.

(** [start_download] from the fetch on. *)
Definition start_download_epilogue (h : nat) (f : Fetch) : M bool :=
  success ← _execute_download h f;
  r ← self h;
  if success && negb (_cancelled r) then
    _update_status h COMPLETED;;
    update_self h (fun r => set_task (task_set_progress 100%Q (task r)) r);;
    i ← task_id h;
    Database.update_download i
      {| Db.upd_status := Some COMPLETED; Db.upd_progress := Some 100%Q;
         Db.upd_error_message := None |};;
    mret true
  else
    (if negb (_cancelled r) then
       _update_status h FAILED;;
       i ← task_id h;
       Database.update_download i
         {| Db.upd_status := Some FAILED; Db.upd_progress := None;
            Db.upd_error_message := Some "Download failed" |};;
       mret tt
     else mret tt);;
    mret false.

(** The [except Exception as e] handler of [start_download]. *)
Definition start_download_except (h : nat) (e : string) : M bool :=
  _update_status h FAILED;;
  update_self h (fun r => set_task (task_set_error_message (Some e) (task r)) r);;
  i ← task_id h;
  Database.update_download i
    {| Db.upd_status := Some FAILED; Db.upd_progress := None;
       Db.upd_error_message := Some e |};;
  mret false.

(** [start_download], run in one piece. *)
Definition start_download (h : nat) (f : Fetch) : M bool :=
  try_except
    (start_download_prologue h;; start_download_epilogue h f)
    (start_download_except h).

Definition pause_download (h : nat) : M bool :=
  try_except
    (update_self h (set_paused true);;
     _update_status h PAUSED;;
     i ← task_id h;
     Database.update_download i (Db.only_status PAUSED);;
     mret true)
    (fun _ => mret false).

Definition resume_download (h : nat) (f : Fetch) : M bool :=
  try_except
    (update_self h (set_paused false);;
     _update_status h DOWNLOADING;;
     i ← task_id h;
     Database.update_download i (Db.only_status DOWNLOADING);;
     _execute_download h f)
    (fun _ => mret false).

(** [cancel_download]; the removal of the partial file acts on the
    file system only and cannot raise out of its own [try]. *)
Definition cancel_download (h : nat) : M bool :=
  try_except
    (update_self h (set_cancelled true);;
     _update_status h CANCELLED;;
     i ← task_id h;
     Database.update_download i (Db.only_status CANCELLED);;
     mret true)
    (fun _ => mret false).

Definition get_progress (r : DownloadTaskManager) : DownloadProgress :=
  {| dp_downloaded_bytes := downloaded_size (task r);
     dp_total_bytes := file_size (task r);
     dp_percentage := progress (task r);
     dp_status := status (task r) |}.

(** [self.task.status in [DOWNLOADING, PENDING]] *)
Definition is_active (r : DownloadTaskManager) : bool :=
  bool_decide (status (task r) = DOWNLOADING) || bool_decide (status (task r) = PENDING).

Definition is_completed (r : DownloadTaskManager) : bool :=
  bool_decide (status (task r) = COMPLETED).

Definition is_failed (r : DownloadTaskManager) : bool :=
  bool_decide (status (task r) = FAILED).

(** [quality.endswith('p')] *)
Fixpoint endswith_p (quality : string) : bool :=
  match quality with
  | EmptyString => false
  | String c EmptyString => bool_decide (String c EmptyString = "p")
  | String _ rest => endswith_p rest
  end.

(** [quality[:-1]] *)
Fixpoint all_but_last (quality : string) : string :=
  match quality with
  | EmptyString => EmptyString
  | String _ EmptyString => EmptyString
  | String c rest => String c (all_but_last rest)
  end.

(** [_get_format_selector], as a function of [self.task.quality] (the
    value of a [VideoQuality], or [None]). *)
Definition _get_format_selector (quality : option string) : string :=
  match quality with
  | None => "best"
  | Some quality =>
      if bool_decide (quality = "") || bool_decide (quality = "best") then "best"
      else if bool_decide (quality = "worst") then "worst"
      else if bool_decide (quality = "audio_only") then "bestaudio"
      else if endswith_p quality then
        let height := all_but_last quality in
        "best[height<=" +:+ height +:+ "]"
      else "best"
  end.

End Runner.

(** ** download_manager.py: [DownloadManager] *)

(** The dictionary returned by [get_system_status]. *)
Record StatusCounts := {
  active : nat;
  queued : nat;
  completed : nat;
  failed : nat;
  total : nat
}.

Module Manager.

(** [list.remove(x)]: the first occurrence goes. *)
Fixpoint list_remove (x : string) (l : list string) : list string :=
  match l with
  | [] => []
  | y :: rest => if decide (y = x) then rest else y :: list_remove x rest
  end.

(** [DownloadManager(max_concurrent_downloads)] over a given store. *)
Definition init (max : Z) (table : list Db.Row) (faults : list Fault) : World :=
  {| rows := table; db_faults := faults; download_queue := [];
     active_downloads := ∅; heap := [];
     max_concurrent_downloads := max; _running := false;
     status_log := []; progress_log := [] |}.

(** [add_download]; the fresh uuid and the creation stamp are inputs, and
    [quality] is [request.quality] ([None], or the value of a
    [VideoQuality]; the request's default is [best]). [DownloadTask] keeps
    the values of its enumerations ([use_enum_values]), so [task.quality]
    is a string, and [task.quality.value], which is evaluated for every
    quality but [None] while the row is built, raises before the store is
    called. *)
Definition add_download (new_id : string) (request_url : string)
    (quality : option string) (now : Z) : M string :=
  try_except
    (match quality with
     | Some _ => raise "'str' object has no attribute 'value'"
     | None => mret tt
     end;;
     Database.insert_download
       {| Db.row_id := new_id; Db.row_url := request_url;
          Db.row_status := PENDING; Db.row_progress := 0%Q;
          Db.row_created_at := now; Db.row_error_message := None |};;
     modify (fun w => set_download_queue (download_queue w ++ [new_id]) w);;
     publish_status new_id PENDING;;
     mret new_id)
    (fun e => raise e).

Definition notify_if (success : bool) (download_id : string) (s : DownloadStatus) : M unit :=
  if success then publish_status download_id s else mret tt.

Definition pause_download (download_id : string) : M bool :=
  try_except
    (reg ← gets active_downloads;
     match reg !! download_id with
     | Some h =>
         success ← Runner.pause_download h;
         notify_if success download_id PAUSED;;
         mret success
     | None =>
         success ← Database.update_download download_id (Db.only_status PAUSED);
         notify_if success download_id PAUSED;;
         mret success
     end)
    (fun _ => mret false).

(** [resume_download]; [f] is the fetch that a bound runner restarts. *)
Definition resume_download (download_id : string) (f : Fetch) : M bool :=
  try_except
    (reg ← gets active_downloads;
     match reg !! download_id with
     | Some h =>
         success ← Runner.resume_download h f;
         notify_if success download_id DOWNLOADING;;
         mret success
     | None =>
         success ← Database.update_download download_id (Db.only_status PENDING);
         (if (success : bool) then
            modify (fun w =>
              if bool_decide (download_id ∈ download_queue w) then w
              else set_download_queue (download_queue w ++ [download_id]) w);;
            publish_status download_id PENDING
          else mret tt);;
         mret success
     end)
    (fun _ => mret false).

Definition cancel_download (download_id : string) : M bool :=
  try_except
    (modify (fun w =>
       if bool_decide (download_id ∈ download_queue w)
       then set_download_queue (list_remove download_id (download_queue w)) w
       else w);;
     reg ← gets active_downloads;
     match reg !! download_id with
     | Some h =>
         success ← Runner.cancel_download h;
         modify (fun w => set_active_downloads (delete download_id (active_downloads w)) w);;
         notify_if success download_id CANCELLED;;
         mret success
     | None =>
         success ← Database.update_download download_id (Db.only_status CANCELLED);
         notify_if success download_id CANCELLED;;
         mret success
     end)
    (fun _ => mret false).

Definition zero_counts : StatusCounts :=
  {| active := 0; queued := 0; completed := 0; failed := 0; total := 0 |}.

(** One turn of the counting loop of [get_system_status]. *)
Definition count_one (c : StatusCounts) (download : Db.Row) : StatusCounts :=
  let status := value (Db.row_status download) in
  if bool_decide (status ∈ ["downloading"]) then
    {| active := S (active c); queued := queued c; completed := completed c;
       failed := failed c; total := total c |}
  else if bool_decide (status ∈ ["pending"; "paused"]) then
    {| active := active c; queued := S (queued c); completed := completed c;
       failed := failed c; total := total c |}
  else if bool_decide (status = "completed") then
    {| active := active c; queued := queued c; completed := S (completed c);
       failed := failed c; total := total c |}
  else if bool_decide (status = "failed") then
    {| active := active c; queued := queued c; completed := completed c;
       failed := S (failed c); total := total c |}
  else c.

Definition count_all (all_downloads : list Db.Row) : StatusCounts :=
  foldl count_one
    {| active := 0; queued := 0; completed := 0; failed := 0;
       total := length all_downloads |}
    all_downloads.

Definition get_system_status : M StatusCounts :=
  try_except
    (all_downloads ← Database.get_downloads None 10000 0;
     mret (count_all all_downloads))
    (fun _ => mret zero_counts).

Definition _load_pending_downloads : M unit :=
  try_except
    (pending_downloads ← Database.get_downloads (Some PENDING) Database.default_limit 0;
     paused_downloads ← Database.get_downloads (Some PAUSED) Database.default_limit 0;
     modify (fun w =>
       set_download_queue (download_queue w ++ map Db.row_id pending_downloads) w);;
     modify (fun w =>
       set_download_queue (download_queue w ++ map Db.row_id paused_downloads) w))
    (fun _ => mret tt).

(** [start]: the recovery, then the control loop is created; its turns
    are the [process_queue_iteration]s below. *)
Definition start : M unit :=
  running ← gets _running;
  if (running : bool) then mret tt
  else
    modify (set_running true);;
    _load_pending_downloads.

(** The task built from the stored row in [_start_download]; the fields
    not passed to the constructor take their defaults. *)
Definition task_of_row (r : Db.Row) : DownloadTask :=
  {| id := Db.row_id r; url := Db.row_url r; status := Db.row_status r;
     progress := 0%Q; file_path := None; file_size := None;
     downloaded_size := 0; error_message := None |}.

Definition _start_download (download_id : string) : M unit :=
  try_except
    (download_data ← Database.get_download download_id;
     match download_data with
     | None => mret tt
     | Some r =>
         let task_manager :=
           {| task := task_of_row r; _cancelled := false; _paused := false |} in
         modify (fun w =>
           let h := length (heap w) in
           set_active_downloads (<[download_id := h]> (active_downloads w))
             (set_heap (heap w ++ [{| runner := task_manager; coroutine := Launched |}]) w))
     end)
    (fun _ => mret tt).

Definition runner_is_active (w : World) (h : nat) : bool :=
  match heap w !! h with
  | Some c => Runner.is_active (runner c)
  | None => false
  end.

(** The two clean-up loops: every registered runner that is not active
    is deleted from the registry. *)
Definition clean_up : M unit :=
  modify (fun w =>
    set_active_downloads
      (filter (fun kv => runner_is_active w kv.2 = true) (active_downloads w)) w).

(** The body of the [while self._running] loop of [_process_queue]. *)
Definition process_queue_iteration : M unit :=
  try_except
    (w ← gets (fun w => w);
     (if bool_decide (Z.of_nat (size (active_downloads w)) < max_concurrent_downloads w)
      then
        match download_queue w with
        | download_id :: rest =>
            modify (set_download_queue rest);;
            _start_download download_id
        | [] => mret tt
        end
      else mret tt);;
     clean_up)
    (fun _ => mret tt).

(** The loop of [stop]: [cancel_download] on each key in turn. *)
Fixpoint cancel_each (keys : list string) : M unit :=
  match keys with
  | [] => mret tt
  | download_id :: rest => cancel_download download_id;; cancel_each rest
  end.

(** [stop], given [list(self.active_downloads.keys())]: Python lists
    the keys in the order in which they were inserted, which the finite
    map does not record. The cancellation of the control loop's own task
    ends the turns of the loop. *)
Definition stop_in_order (keys : list string) : M unit :=
  running ← gets _running;
  if (running : bool) then
    modify (set_running false);;
    cancel_each keys
  else mret tt.

(** [stop], with the keys in the order in which the finite map
    enumerates them. *)
Definition stop : M unit :=
  reg ← gets active_downloads;
  stop_in_order (map_to_list reg).*1.

(** The task that [get_downloads] builds from a listed row. The columns
    [file_path], [file_size] and [downloaded_size] are written by no
    statement of the engine and hold their defaults. *)
Definition task_of_listed_row (data : Db.Row) : DownloadTask :=
  {| id := Db.row_id data; url := Db.row_url data; status := Db.row_status data;
     progress := Db.row_progress data; file_path := None; file_size := None;
     downloaded_size := 0; error_message := Db.row_error_message data |}.

(** [DownloadManager.get_downloads(status, limit, offset)] *)
Definition get_downloads (status : option DownloadStatus) (limit offset : Z)
    : M (list DownloadTask) :=
  try_except
    (downloads_data ← Database.get_downloads status limit offset;
     mret (map task_of_listed_row downloads_data))
    (fun _ => mret []).

(** [get_download_progress]: from the bound runner, or else from the
    stored row (whose [downloaded_size] and [file_size] are the
    defaults, see [task_of_listed_row]). *)
Definition get_download_progress (download_id : string) : M (option DownloadProgress) :=
  try_except
    (w ← gets (fun w => w);
     match active_downloads w !! download_id with
     | Some h =>
         r ← Runner.self h;
         mret (Some (Runner.get_progress r))
     | None =>
         download_data ← Database.get_download download_id;
         match download_data with
         | Some data =>
             mret (Some {| dp_downloaded_bytes := 0;
                           dp_total_bytes := None;
                           dp_percentage := Db.row_progress data;
                           dp_status := Db.row_status data |})
         | None => mret None
         end
     end)
    (fun _ => mret None).

End Manager.

(** ** The engine as a transition system *)

(** What can happen to the engine: a call of its interface, a turn of
    the control loop, or a step of the background coroutine of a runner. *)
Inductive Op :=
  | OpAdd (new_id request_url : string) (quality : option string) (now : Z)
  | OpPause (download_id : string)
  | OpResume (download_id : string) (f : Fetch)
  | OpCancel (download_id : string)
  | OpStart
  | OpTick
  | OpRunnerBegin (h : nat)
  | OpRunnerFinish (h : nat) (f : Fetch).

Definition coroutine_of (w : World) (h : nat) : option Coroutine :=
  coroutine <$> heap w !! h.

(** The coroutine behind [h] runs from its creation up to the fetch. *)
Definition runner_begin (h : nat) : M unit :=
  try_except
    (Runner.start_download_prologue h;; Runner.set_coroutine h Fetching)
    (fun e =>
       Runner.set_coroutine h Returned;;
       Runner.start_download_except h e;;
       mret tt).

(** The coroutine behind [h] runs the fetch [f] and goes on to its end. *)
Definition runner_finish (h : nat) (f : Fetch) : M unit :=
  Runner.set_coroutine h Returned;;
  try_except (Runner.start_download_epilogue h f) (Runner.start_download_except h);;
  mret tt.

Definition step (o : Op) (w : World) : World :=
  match o with
  | OpAdd new_id request_url quality now =>
      exec (Manager.add_download new_id request_url quality now) w
  | OpPause download_id => exec (Manager.pause_download download_id) w
  | OpResume download_id f => exec (Manager.resume_download download_id f) w
  | OpCancel download_id => exec (Manager.cancel_download download_id) w
  | OpStart => exec Manager.start w
  | OpTick => if _running w then exec Manager.process_queue_iteration w else w
  | OpRunnerBegin h =>
      if decide (coroutine_of w h = Some Launched) then exec (runner_begin h) w else w
  | OpRunnerFinish h f =>
      if decide (coroutine_of w h = Some Fetching) then exec (runner_finish h f) w else w
  end.

Definition run (ops : list Op) (w : World) : World :=
  foldl (fun w o => step o w) w ops.

(** [cancel_download] is not one step. It tests and empties the pending
    list and looks the id up in the registry, and then it waits: for the
    runner's own cancel, or for the store. [between] is what other
    coroutines do from the answer of the store until the call goes on;
    the call then deletes the registry entry that it found ([del] raises
    [KeyError] when the entry has gone) and publishes. With nothing in
    between this is [Manager.cancel_download]. *)
Definition cancel_download_overlapped (download_id : string) (between : list Op)
    : M bool :=
  try_except
    (modify (fun w =>
       if bool_decide (download_id ∈ download_queue w)
       then set_download_queue (Manager.list_remove download_id (download_queue w)) w
       else w);;
     reg ← gets active_downloads;
     match reg !! download_id with
     | Some h =>
         success ← Runner.cancel_download h;
         modify (run between);;
         reg' ← gets active_downloads;
         match reg' !! download_id with
         | Some _ =>
             modify (fun w =>
               set_active_downloads (delete download_id (active_downloads w)) w)
         | None => raise "KeyError"
         end;;
         Manager.notify_if success download_id CANCELLED;;
         mret success
     | None =>
         success ← Database.update_download download_id (Db.only_status CANCELLED);
         modify (run between);;
         Manager.notify_if success download_id CANCELLED;;
         mret success
     end)
    (fun _ => mret false).

(** The stored status of a download. *)
Definition stored_status (w : World) (download_id : string) : option DownloadStatus :=
  Db.row_status <$> Db.sql_select_id download_id (rows w).

(** The number of stored downloads in a given status. *)
Definition count_status (s : DownloadStatus) (table : list Db.Row) : nat :=
  length (filter (fun r => Db.row_status r = s) table).

(** The number of runner objects whose task is in a given status. *)
Definition count_runners (s : DownloadStatus) (w : World) : nat :=
  length (filter (fun c => status (task (runner c)) = s) (heap w)).

(** ** The notification fan-out

    The manager keeps two lists of callbacks; the application registers
    one status callback and one progress callback, each of which encodes
    the event and hands it to [ConnectionManager.broadcast] (app.py). *)

Module Hub.

Definition WebSocket := nat.

(** [ConnectionManager], and the record of every [send_text] call made
    so far: the socket, the text, and whether the call returned. *)
Record ConnectionManager := {
  active_connections : list WebSocket;
  sends : list (WebSocket * string * bool)
}.

Section Delivery.

(** Whether [send_text] on a socket returns ([true]) or raises: a
    property of the socket (closed or not) at the time of the
    broadcast. *)
Variable send_ok : WebSocket -> bool.

(** The JSON text of a status event ([WebSocketMessage.model_dump_json]). *)
Variable encode : string -> DownloadStatus -> string.

Definition H (A : Type) : Type := ConnectionManager -> Result A * ConnectionManager.

Definition send_text (connection : WebSocket) (message : string) : H unit := fun cm =>
  let cm' := {| active_connections := active_connections cm;
                sends := sends cm ++ [(connection, message, send_ok connection)] |} in
  if send_ok connection then (Ok tt, cm') else (Raise "connection closed", cm').

(** [try: await connection.send_text(message)
     except: disconnected.append(connection)] *)
Definition try_send (connection : WebSocket) (message : string)
    (disconnected : list WebSocket) : H (list WebSocket) := fun cm =>
  match send_text connection message cm with
  | (Ok _, cm') => (Ok disconnected, cm')
  | (Raise _, cm') => (Ok (disconnected ++ [connection]), cm')
  end.

(** The sends of [broadcast] over a list that nothing changes. *)
Fixpoint send_all (connections : list WebSocket) (message : string)
    (disconnected : list WebSocket) : H (list WebSocket) := fun cm =>
  match connections with
  | [] => (Ok disconnected, cm)
  | connection :: rest =>
      match try_send connection message disconnected cm with
      | (Ok disconnected', cm') => send_all rest message disconnected' cm'
      | (Raise e, cm') => (Raise e, cm')
      end
  end.

(** [list.remove] on the connection list. *)
Fixpoint list_remove (x : WebSocket) (l : list WebSocket) : list WebSocket :=
  match l with
  | [] => []
  | y :: rest => if decide (y = x) then rest else y :: list_remove x rest
  end.

Definition disconnect (websocket : WebSocket) (cm : ConnectionManager) : ConnectionManager :=
  if bool_decide (websocket ∈ active_connections cm)
  then {| active_connections := list_remove websocket (active_connections cm);
          sends := sends cm |}
  else cm.

(** What another coroutine does to the set while a send is awaited: the
    endpoint of a socket that has been accepted appends it, the endpoint
    of a socket that has closed disconnects it (and so does the second
    loop of another broadcast). *)
Inductive Event :=
  | Joins (websocket : WebSocket)
  | Leaves (websocket : WebSocket).

Definition happen (cm : ConnectionManager) (e : Event) : ConnectionManager :=
  match e with
  | Joins websocket =>
      {| active_connections := active_connections cm ++ [websocket];
         sends := sends cm |}
  | Leaves websocket => disconnect websocket cm
  end.

(** The first loop of [broadcast], [for connection in
    self.active_connections]: the iterator walks the live list by index,
    and every turn awaits one send. [during] lists, for each send of the
    loop, what happened to the set while that send was awaited; once it
    is used up nothing else runs, and the loop walks what is left of the
    list. *)
Fixpoint send_live (during : list (list Event)) (i : nat) (message : string)
    (disconnected : list WebSocket) : H (list WebSocket) := fun cm =>
  match during with
  | [] => send_all (drop i (active_connections cm)) message disconnected cm
  | events :: later =>
      match active_connections cm !! i with
      | None => (Ok disconnected, cm)
      | Some connection =>
          match try_send connection message disconnected cm with
          | (Ok disconnected', cm') =>
              send_live later (S i) message disconnected' (foldl happen cm' events)
          | (Raise e, cm') => (Raise e, cm')
          end
      end
  end.

(** [broadcast]; its second loop awaits nothing. *)
Definition broadcast (message : string) (during : list (list Event)) : H unit := fun cm =>
  match send_live during 0 message [] cm with
  | (Ok disconnected, cm') => (Ok tt, foldl (fun c ws => disconnect ws c) cm' disconnected)
  | (Raise e, cm') => (Raise e, cm')
  end.

(** A callback registered with the manager. *)
Definition Callback : Type := string -> DownloadStatus -> H unit.

(** [for callback in self.status_callbacks:
       try: await callback(download_id, status)
       except Exception as e: log] *)
Fixpoint _notify_status_callbacks (status_callbacks : list Callback)
    (download_id : string) (s : DownloadStatus) : H unit := fun cm =>
  match status_callbacks with
  | [] => (Ok tt, cm)
  | callback :: rest =>
      match callback download_id s cm with
      | (Ok _, cm') => _notify_status_callbacks rest download_id s cm'
      | (Raise _, cm') => _notify_status_callbacks rest download_id s cm'
      end
  end.

(** The callback that [lifespan] registers. *)
Definition status_callback (during : list (list Event)) : Callback :=
  fun download_id s => broadcast (encode download_id s) during.

(** The manager's side of a publication: its list of status callbacks,
    and the connection manager that the application's callback acts
    on. *)
Record Publisher := {
  status_callbacks : list Callback;
  connections : ConnectionManager
}.

(** [add_status_callback] *)
Definition add_status_callback (callback : Callback) (p : Publisher) : Publisher :=
  {| status_callbacks := status_callbacks p ++ [callback];
     connections := connections p |}.

(** [_on_status_update]: [_notify_status_callbacks] over
    [self.status_callbacks]; the list is read, and nothing writes it. *)
Definition _on_status_update (download_id : string) (s : DownloadStatus)
    (p : Publisher) : Result unit * Publisher :=
  let '(r, cm) :=
    _notify_status_callbacks (status_callbacks p) download_id s (connections p) in
  (r, {| status_callbacks := status_callbacks p; connections := cm |}).

(** Whether [websocket.accept()] returns or raises. *)
Variable accept_ok : WebSocket -> bool.

(** [connect]: the socket joins the set once it has been accepted. *)
Definition connect (websocket : WebSocket) : H unit := fun cm =>
  if accept_ok websocket
  then (Ok tt, {| active_connections := active_connections cm ++ [websocket];
                  sends := sends cm |})
  else (Raise "accept failed", cm).

(** [send_personal_message]: a send that raises disconnects the
    socket. *)
Definition send_personal_message (message : string) (websocket : WebSocket) : H unit :=
  fun cm =>
    match send_text websocket message cm with
    | (Ok _, cm') => (Ok tt, cm')
    | (Raise _, cm') => (Ok tt, disconnect websocket cm')
    end.

End Delivery.

End Hub.

(** ** app.py: the listing endpoint *)

Module App.

(** [DownloadListResponse] *)
Record DownloadListResponse := {
  resp_downloads : list DownloadTask;
  resp_total : Z;
  resp_page : Z;
  resp_per_page : Z;
  resp_has_next : bool;
  resp_has_prev : bool
}.

(** [list_downloads(status, page, per_page)]; both calls to the manager
    return whatever the store does, so the handler of the endpoint is
    not reached from them. *)
Definition list_downloads (status : option DownloadStatus) (page per_page : Z)
    : M DownloadListResponse :=
  try_except
    (let offset := (page - 1) * per_page in
     downloads ← Manager.get_downloads status per_page offset;
     total_downloads ← Manager.get_system_status;
     let total := Z.of_nat (total total_downloads) in
     mret {| resp_downloads := downloads;
             resp_total := total;
             resp_page := page;
             resp_per_page := per_page;
             resp_has_next := bool_decide (offset + per_page < total);
             resp_has_prev := bool_decide (1 < page) |})
    (fun _ => raise "500: Failed to list downloads").

End App.

(** ** The lifecycle of a task *)



(** From [w] to [w'] a stored status is either kept or replaced by one
    of the statuses in [S]. *)
Definition evolves (S : list DownloadStatus) : relation World :=
  fun w w' => ∀ download_id s',
    stored_status w' download_id = Some s' →
    stored_status w download_id = Some s' ∨ s' ∈ S.

(** ** The concurrency limit *)

(** The registry holds at most [max_concurrent_downloads] runners. *)
Definition within_limit (w : World) : Prop :=
  Z.of_nat (size (active_downloads w)) ≤ max_concurrent_downloads w.

(** From [w] to [w'] the limit is the same and no runner was registered. *)
Definition unregisters : relation World :=
  fun w w' =>
    max_concurrent_downloads w' = max_concurrent_downloads w ∧
    active_downloads w' ⊆ active_downloads w.

(** ** Runs of the engine used below *)

(** A fetch that reports nothing and leaves its file at [path]. *)
Definition fetch_ok (path : string) : Fetch :=
  {| extract_error := None; info := Some None; hooks := [];
     ending := FileFound path |}.

(** A started engine with limit 2 and five downloads enqueued. *)
Definition five_queued : World :=
  run [OpStart; OpAdd "a" "http://x/a" None 1; OpAdd "b" "http://x/b" None 2;
       OpAdd "c" "http://x/c" None 3; OpAdd "d" "http://x/d" None 4;
       OpAdd "e" "http://x/e" None 5]
      (Manager.init 2 [] []).

(** A started engine with limit 1 and two downloads, both paused while
    they were still queued. *)
Definition two_paused : World :=
  run [OpStart; OpAdd "a" "http://x/a" None 1; OpAdd "b" "http://x/b" None 2;
       OpPause "a"; OpPause "b"]
      (Manager.init 1 [] []).


(** An engine that enqueued a download before it was started. *)
Definition queued_before_start : World :=
  run [OpAdd "a" "http://x/a" None 1; OpStart] (Manager.init 3 [] []).

(** A store left by a process that died during a download. *)
Definition crashed_store : list Db.Row :=
  [ {| Db.row_id := "a"; Db.row_url := "http://x/a"; Db.row_status := DOWNLOADING;
       Db.row_progress := 0%Q; Db.row_created_at := 1; Db.row_error_message := None |} ].

(** A started engine whose only download was cancelled while queued. *)
Definition one_cancelled : World :=
  run [OpStart; OpAdd "a" "http://x/a" None 1; OpCancel "a"] (Manager.init 3 [] []).

(** A store with a pending, a paused and a downloading record. *)
Definition mixed_store : list Db.Row :=
  map (fun '(i, s, t) =>
         {| Db.row_id := i; Db.row_url := "http://x"; Db.row_status := s;
            Db.row_progress := 0%Q; Db.row_created_at := t;
            Db.row_error_message := None |})
      [("p", PENDING, 1); ("q", PAUSED, 2); ("d", DOWNLOADING, 3)].

(** The runner object of a task that is being downloaded. *)
Definition downloading_runner : DownloadTaskManager :=
  {| task := {| id := "a"; url := "http://x/a"; status := DOWNLOADING;
                progress := 0%Q; file_path := None; file_size := None;
                downloaded_size := 0; error_message := None |};
     _cancelled := false; _paused := false |}.

(** The runner after a sequence of hook calls. *)
Definition after_hooks (ds : list HookEvent) (r : DownloadTaskManager) : DownloadTaskManager :=
  foldl (fun r d => (Runner._progress_hook d r).1) r ds.

(** ** Listings *)

(** Every row of a listing is at least as new as the rows after it. *)
Fixpoint newest_first (l : list Db.Row) : Prop :=
  match l with
  | [] => True
  | r :: rest =>
      (∀ x, x ∈ rest → Db.row_created_at x ≤ Db.row_created_at r) ∧ newest_first rest
  end.

(** ** Runner objects in the heap *)

(** The runner object behind [h] exists and satisfies [P]. *)
Definition runner_at (P : DownloadTaskManager -> Prop) (h : nat) (w : World) : Prop :=
  ∃ c, heap w !! h = Some c ∧ P (runner c).

(** From [w] to [w'] the runner behind [h] keeps [P]. *)
Definition keeps (P : DownloadTaskManager -> Prop) (h : nat) : relation World :=
  fun w w' => runner_at P h w → runner_at P h w'.

(** A runner that has been cancelled. *)
Definition was_cancelled (r : DownloadTaskManager) : Prop :=
  _cancelled r = true ∧ status (task r) = CANCELLED.

(** ** The pending list of a started engine *)

(** The pending list names stored downloads, each of them once. *)
Definition queue_ok (w : World) : Prop :=
  NoDup (download_queue w) ∧
  (∀ i, i ∈ download_queue w → i ∈ map Db.row_id (rows w)).

(** From [w] to [w'] the running flag and the stored ids are the same
    and no id was enqueued. *)
Definition dequeues : relation World :=
  fun w w' =>
    _running w' = _running w ∧
    map Db.row_id (rows w') = map Db.row_id (rows w) ∧
    download_queue w' `sublist_of` download_queue w.

(** The flags, the status and the id of a runner. *)
Definition runner_is (c p : bool) (s : DownloadStatus) (i : string)
    (r : DownloadTaskManager) : Prop :=
  _cancelled r = c ∧ _paused r = p ∧ status (task r) = s ∧ id (task r) = i.

(** ** What a runner's code sees *)

(** What the code of the runner behind [h] reads and writes: its own
    object, the table, the faults of the store still to come, and the two
    logs of publications. *)
Definition sees (h : nat) (P : DownloadTaskManager -> Prop) (table : list Db.Row)
    (faults : list Fault) (sl : list (string * DownloadStatus))
    (pl : list (string * DownloadProgress)) (w : World) : Prop :=
  runner_at P h w ∧ rows w = table ∧ db_faults w = faults ∧
  status_log w = sl ∧ progress_log w = pl.

(** Started where [P] holds, [m] ends with an outcome and in a state
    that [Q] accepts. *)
Definition hoare {A} (P : World -> Prop) (m : M A) (Q : Result A -> World -> Prop) : Prop :=
  ∀ w, P w → Q (outcome m w) (exec m w).

(** * Reasoning about computations *)

(** [m] relates every state to the state it leaves, whether it returns
    or raises. With a preorder for [R] this composes along the program;
    invariants are the relations [fun w w' => I w -> I w']. *)
Definition preserves {A} (R : relation World) (m : M A) : Prop :=
  ∀ w, R w (exec m w).

(** Relations that do not look at a part of the state. *)
Class IgnoresFaults (R : relation World) :=
  ignores_faults : ∀ w x, R w (set_db_faults x w).
Class IgnoresRows (R : relation World) :=
  ignores_rows : ∀ w x, R w (set_rows x w).
Class IgnoresHeap (R : relation World) :=
  ignores_heap : ∀ w x, R w (set_heap x w).
Class IgnoresLogs (R : relation World) :=
  ignores_logs : ∀ w, (∀ x, R w (set_status_log x w)) ∧ (∀ x, R w (set_progress_log x w)).

(** A projection of the state is left as it is. *)
Definition same {X} (π : World -> X) : relation World :=
  fun w w' => π w' = π w.

Global Instance same_preorder {X} (π : World -> X) : PreOrder (same π).
Proof. split; [intros w; reflexivity | intros a b c Hab Hbc; unfold same in *; congruence]. Qed.

Lemma exec_bind {A B} (m : M A) (f : A -> M B) (w : World) :
  exec (m ≫= f) w =
    match m w with
    | (Ok a, w') => exec (f a) w'
    | (Raise _, w') => w'
    end.
Proof. unfold exec, mbind, M_bind. destruct (m w) as [[a|e] w']; reflexivity. Qed.

Lemma exec_try {A} (m : M A) (handler : string -> M A) (w : World) :
  exec (try_except m handler) w =
    match m w with
    | (Ok _, w') => w'
    | (Raise e, w') => exec (handler e) w'
    end.
Proof. unfold exec, try_except. destruct (m w) as [[a|e] w']; reflexivity. Qed.

Lemma try_except_outcome {A} (m : M A) (handler : string -> M A) (w : World) :
  (∀ e w', ∃ a, outcome (handler e) w' = Ok a) →
  ∃ a, outcome (try_except m handler) w = Ok a.
Proof.
  intros Hh. unfold outcome, try_except.
  destruct (m w) as [[a|e] w']; [by exists a | apply Hh].
Qed.

Section Preserves.
Context (R : relation World) `{!PreOrder R}.

Lemma preserves_ret {A} (a : A) : preserves R (mret a).
Proof. intros w. reflexivity. Qed.

Lemma preserves_raise {A} (e : string) : preserves R (raise (A := A) e).
Proof. intros w. reflexivity. Qed.

Lemma preserves_gets {A} (f : World -> A) : preserves R (gets f).
Proof. intros w. reflexivity. Qed.

Lemma preserves_modify (f : World -> World) :
  (∀ w, R w (f w)) → preserves R (modify f).
Proof. intros Hf w. apply Hf. Qed.

Lemma preserves_bind {A B} (m : M A) (f : A -> M B) :
  preserves R m → (∀ a, preserves R (f a)) → preserves R (m ≫= f).
Proof.
  intros Hm Hf w. rewrite exec_bind.
  specialize (Hm w). unfold exec in Hm.
  destruct (m w) as [[a|e] w']; simpl in Hm; [|done].
  etrans; [exact Hm | apply Hf].
Qed.

Lemma preserves_try {A} (m : M A) (handler : string -> M A) :
  preserves R m → (∀ e, preserves R (handler e)) → preserves R (try_except m handler).
Proof.
  intros Hm Hh w. rewrite exec_try.
  specialize (Hm w). unfold exec in Hm.
  destruct (m w) as [[a|e] w']; simpl in Hm; [done|].
  etrans; [exact Hm | apply Hh].
Qed.

(** The store. *)
Lemma preserves_call {A} `{!IgnoresFaults R} (q : list Db.Row -> Result A * list Db.Row) :
  (∀ w, R w (set_rows (q (rows w)).2 w)) → preserves R (Database.call q).
Proof.
  intros Hq w. unfold exec, Database.call.
  destruct (db_faults w) as [|[] fs] eqn:Hf; simpl.
  - specialize (Hq w). by destruct (q (rows w)).
  - etrans; [apply (ignores_faults w fs)|].
    specialize (Hq (set_db_faults fs w)). simpl in Hq.
    by destruct (q (rows w)).
  - apply ignores_faults.
  - etrans; [apply (ignores_faults w fs)|].
    specialize (Hq (set_db_faults fs w)). simpl in Hq.
    by destruct (q (rows w)) as [[?|?] ?].
Qed.

Lemma preserves_call_frame {A} `{!IgnoresFaults R, !IgnoresRows R}
    (q : list Db.Row -> Result A * list Db.Row) :
  preserves R (Database.call q).
Proof. apply preserves_call. intros w. apply ignores_rows. Qed.

(** The runner objects. *)
Lemma preserves_self (h : nat) : preserves R (Runner.self h).
Proof. intros w. unfold exec, Runner.self. destruct (heap w !! h); reflexivity. Qed.

Lemma preserves_update_self `{!IgnoresHeap R} (h : nat) f :
  preserves R (Runner.update_self h f).
Proof.
  apply preserves_modify. intros w.
  destruct (heap w !! h); [apply ignores_heap | reflexivity].
Qed.

Lemma preserves_set_coroutine `{!IgnoresHeap R} (h : nat) p :
  preserves R (Runner.set_coroutine h p).
Proof.
  apply preserves_modify. intros w.
  destruct (heap w !! h); [apply ignores_heap | reflexivity].
Qed.

Lemma preserves_task_id (h : nat) : preserves R (Runner.task_id h).
Proof. apply preserves_bind; [apply preserves_self | intros; apply preserves_ret]. Qed.

(** The publications. *)
Lemma preserves_publish_status `{!IgnoresLogs R} i s : preserves R (publish_status i s).
Proof. apply preserves_modify. intros w. apply ignores_logs. Qed.

Lemma preserves_publish_progress `{!IgnoresLogs R} i p : preserves R (publish_progress i p).
Proof. apply preserves_modify. intros w. apply ignores_logs. Qed.

End Preserves.

(** One step of a proof that a computation preserves a relation: follow
    the structure of the program, split on what it inspects. *)
Ltac preserves_step :=
  first
    [ apply preserves_ret; solve [typeclasses eauto]
    | apply preserves_raise; solve [typeclasses eauto]
    | apply preserves_gets; solve [typeclasses eauto]
    | apply preserves_self; solve [typeclasses eauto]
    | apply preserves_task_id; solve [typeclasses eauto]
    | apply preserves_update_self; solve [typeclasses eauto]
    | apply preserves_set_coroutine; solve [typeclasses eauto]
    | apply preserves_publish_status; solve [typeclasses eauto]
    | apply preserves_publish_progress; solve [typeclasses eauto]
    | apply preserves_bind; [typeclasses eauto | | intros ?]
    | apply preserves_try; [typeclasses eauto | | intros ?]
    | match goal with
      | |- preserves _ (match ?x with _ => _ end) => destruct x
      | |- preserves _ (let (_, _) := ?x in _) => destruct x
      end ].

Ltac preserves_auto := repeat preserves_step.

(** A computation that touches only the store, the runner objects and
    the publication logs preserves every relation that ignores these. *)
Ltac frame_step :=
  first
    [ preserves_step
    | apply preserves_call_frame; solve [typeclasses eauto]
    | lazymatch goal with
      | |- preserves _ _ => fail
      | |- _ => solve [typeclasses eauto]
      end ].

Section RunnerFrame.
Context (R : relation World) `{!PreOrder R}
        `{!IgnoresFaults R, !IgnoresRows R, !IgnoresHeap R, !IgnoresLogs R}.

Lemma frame_update_status h s : preserves R (Runner._update_status h s).
Proof. unfold Runner._update_status. repeat frame_step. Qed.

Lemma frame_progress_hook h d : preserves R (Runner.progress_hook h d).
Proof. unfold Runner.progress_hook. repeat frame_step. Qed.

Lemma frame_run_hooks h ds : preserves R (Runner.run_hooks h ds).
Proof.
  induction ds as [|d ds IH]; simpl.
  - by apply preserves_ret.
  - apply preserves_bind; [done | apply frame_progress_hook | intros _; exact IH].
Qed.

Lemma frame_execute_download h f : preserves R (Runner._execute_download h f).
Proof.
  unfold Runner._execute_download.
  repeat first [apply frame_run_hooks | frame_step].
Qed.

Lemma frame_start_download_except h e : preserves R (Runner.start_download_except h e).
Proof.
  unfold Runner.start_download_except.
  repeat first [apply frame_update_status | frame_step].
Qed.

Lemma frame_start_download_prologue h : preserves R (Runner.start_download_prologue h).
Proof.
  unfold Runner.start_download_prologue.
  repeat first [apply frame_update_status | frame_step].
Qed.

Lemma frame_start_download_epilogue h f : preserves R (Runner.start_download_epilogue h f).
Proof.
  unfold Runner.start_download_epilogue.
  repeat first [apply frame_update_status | apply frame_execute_download | frame_step].
Qed.

Lemma frame_runner_pause h : preserves R (Runner.pause_download h).
Proof.
  unfold Runner.pause_download.
  repeat first [apply frame_update_status | frame_step].
Qed.

Lemma frame_runner_resume h f : preserves R (Runner.resume_download h f).
Proof.
  unfold Runner.resume_download.
  repeat first [apply frame_update_status | apply frame_execute_download | frame_step].
Qed.

Lemma frame_runner_cancel h : preserves R (Runner.cancel_download h).
Proof.
  unfold Runner.cancel_download.
  repeat first [apply frame_update_status | frame_step].
Qed.

Lemma frame_runner_begin h : preserves R (runner_begin h).
Proof.
  unfold runner_begin.
  repeat first [apply frame_start_download_prologue | apply frame_start_download_except | frame_step].
Qed.

Lemma frame_runner_finish h f : preserves R (runner_finish h f).
Proof.
  unfold runner_finish.
  repeat first [apply frame_start_download_epilogue | apply frame_start_download_except | frame_step].
Qed.

End RunnerFrame.

(** ** Frames of the manager's state *)

Global Instance same_queue_faults : IgnoresFaults (same download_queue).
Proof. by intros ??. Qed.
Global Instance same_queue_rows : IgnoresRows (same download_queue).
Proof. by intros ??. Qed.
Global Instance same_queue_heap : IgnoresHeap (same download_queue).
Proof. by intros ??. Qed.
Global Instance same_queue_logs : IgnoresLogs (same download_queue).
Proof. by intros ?; split; intros ?. Qed.

Global Instance same_registry_faults : IgnoresFaults (same active_downloads).
Proof. by intros ??. Qed.
Global Instance same_registry_rows : IgnoresRows (same active_downloads).
Proof. by intros ??. Qed.
Global Instance same_registry_heap : IgnoresHeap (same active_downloads).
Proof. by intros ??. Qed.
Global Instance same_registry_logs : IgnoresLogs (same active_downloads).
Proof. by intros ?; split; intros ?. Qed.

(** The computations that end in [except: return False] (or in a value)
    never raise. *)
Lemma runner_pause_returns h w : ∃ b, outcome (Runner.pause_download h) w = Ok b.
Proof. apply try_except_outcome. intros e w'. by exists false. Qed.

Lemma runner_resume_returns h f w : ∃ b, outcome (Runner.resume_download h f) w = Ok b.
Proof. apply try_except_outcome. intros e w'. by exists false. Qed.

Lemma runner_cancel_returns h w : ∃ b, outcome (Runner.cancel_download h) w = Ok b.
Proof. apply try_except_outcome. intros e w'. by exists false. Qed.

Lemma notify_if_frame (R : relation World) `{!PreOrder R, !IgnoresLogs R} b i s :
  preserves R (Manager.notify_if b i s).
Proof.
  unfold Manager.notify_if. destruct b.
  - by apply preserves_publish_status.
  - by apply preserves_ret.
Qed.

(** [pause_download] never writes the pending list. *)
Lemma pause_download_same_queue download_id :
  preserves (same download_queue) (Manager.pause_download download_id).
Proof.
  unfold Manager.pause_download.
  repeat first [apply frame_runner_pause | apply notify_if_frame | frame_step].
Qed.

(** What [cancel_download] does after it has dealt with the pending
    list leaves the pending list alone and unbinds the runner. *)
Lemma cancel_download_tail_lookup download_id (k : bool -> M bool) w :
  (∀ b, preserves (same active_downloads) (k b)) →
  active_downloads
    (exec (reg ← gets active_downloads;
           match reg !! download_id with
           | Some h =>
               success ← Runner.cancel_download h;
               modify (fun w => set_active_downloads
                                  (delete download_id (active_downloads w)) w);;
               k success
           | None =>
               success ← Database.update_download download_id (Db.only_status CANCELLED);
               k success
           end) w) !! download_id = None.
Proof.
  intros Hk. rewrite exec_bind. simpl.
  destruct (active_downloads w !! download_id) as [h|] eqn:Hreg.
  - rewrite exec_bind.
    destruct (runner_cancel_returns h w) as [b Hb]. unfold outcome in Hb.
    destruct (Runner.cancel_download h w) as [r w1]. simpl in Hb. subst r.
    rewrite exec_bind. simpl. rewrite (Hk b _). simpl. apply lookup_delete_eq.
  - assert (Hu : preserves (same active_downloads)
                   (success ← Database.update_download download_id (Db.only_status CANCELLED);
                    k success)).
    { apply preserves_bind; [apply _ | by apply preserves_call_frame; apply _ | exact Hk]. }
    rewrite (Hu w). exact Hreg.
Qed.

Lemma exec_try_modify {A} (f : World -> World) (m : M A) (a : A) (w : World) :
  exec (try_except (modify f;; m) (fun _ => mret a)) w = exec m (f w).
Proof.
  unfold exec, try_except, mbind, M_bind, modify, mret, M_ret. simpl.
  by destruct (m (f w)) as [[?|?] ?].
Qed.

(** [list.remove] takes out the one occurrence there is. *)
Lemma list_remove_single (x : string) (l : list string) :
  (length (filter (fun i => i = x) l) ≤ 1)%nat → x ∉ Manager.list_remove x l.
Proof.
  induction l as [|y l IH]; simpl; [intros _; apply not_elem_of_nil|].
  rewrite filter_cons. destruct (decide (y = x)) as [->|Hne]; simpl.
  - intros Hlen Hin.
    assert (Hx : x ∈ filter (fun i => i = x) l) by (by apply list_elem_of_filter).
    destruct (filter (fun i => i = x) l); [by apply elem_of_nil in Hx | simpl in Hlen; lia].
  - intros Hlen. rewrite not_elem_of_cons. split; [congruence | by apply IH].
Qed.

(** With no other coroutine in between, the call in its parts is the
    call in one step. *)
Lemma cancel_download_alone (download_id : string) (w : World) :
  cancel_download_overlapped download_id [] w = Manager.cancel_download download_id w.
Proof.
  unfold cancel_download_overlapped, Manager.cancel_download, try_except,
    mbind, M_bind, modify, gets. simpl.
  match goal with |- context [active_downloads ?w0 !! download_id] => set (w1 := w0) end.
  destruct (active_downloads w1 !! download_id) as [h|] eqn:Hreg.
  - pose proof (frame_runner_cancel (same active_downloads) h w1) as Hframe.
    unfold same, exec in Hframe.
    destruct (Runner.cancel_download h w1) as [[b|e] w2]; simpl in *; [|done].
    assert (Hreg2 : active_downloads w2 !! download_id = Some h) by (by rewrite Hframe).
    rewrite Hreg2. reflexivity.
  - by destruct (Database.update_download download_id (Db.only_status CANCELLED) w1)
      as [[b|e] w2].
Qed.

(** C9 (as amended). After a [cancel_download(task_id)] that no other
    coroutine overlaps, the id is bound to no runner in the registry,
    whatever the runner's own cancel returned and whatever the store did;
    and it is no longer in the pending list when it occurred there at
    most once, since [list.remove] takes out one occurrence. *)
Theorem cancel_download_unbinds (w : World) (download_id : string) :
  active_downloads (step (OpCancel download_id) w) !! download_id = None ∧
  ((length (filter (fun i => i = download_id) (download_queue w)) ≤ 1)%nat →
   download_id ∉ download_queue (step (OpCancel download_id) w)).
Proof.
  unfold step, Manager.cancel_download. rewrite exec_try_modify. split.
  - apply cancel_download_tail_lookup. intros b.
    repeat first [apply notify_if_frame | frame_step].
  - intros Honce.
    match goal with
    | |- _ ∉ download_queue (exec ?m ?w0) =>
        assert (Hq : preserves (same download_queue) m)
    end.
    { repeat first [apply frame_runner_cancel | apply notify_if_frame | frame_step].
      apply preserves_modify; first [apply _ | by intros ?]. }
    rewrite (Hq _).
    case_bool_decide as Hin; simpl.
    + by apply list_remove_single.
    + exact Hin.
Qed.

(** The amended C9 at a state where the id is bound to a runner and the
    store fails on the runner's write, so that the runner's cancel
    returns [False]; and at a state where the pending list holds the id
    once, behind another id that it holds twice. *)
Lemma cancel_download_unbinds_witness :
  let w := run [OpStart; OpAdd "a" "http://x/a" None 1; OpTick;
                OpAdd "b" "http://x/b" None 2]
               (Manager.init 3 []
                  [Answers; Answers; Answers; Answers; Answers; ExecuteRaises]) in
  let v := run [OpAdd "b" "http://x/b" None 1; OpStart; OpAdd "a" "http://x/a" None 2]
               (Manager.init 3 [] []) in
  (length (filter (fun i => i = "a") (download_queue w)) ≤ 1)%nat ∧
  outcome (Manager.cancel_download "a") w = Ok false ∧
  active_downloads (step (OpCancel "a") w) !! "a" = None ∧
  ("a" ∉ download_queue (step (OpCancel "a") w)) ∧
  download_queue v = ["b"; "b"; "a"] ∧
  (length (filter (fun i => i = "a") (download_queue v)) ≤ 1)%nat ∧
  "a" ∉ download_queue (step (OpCancel "a") v).
Proof.
  intros w v.
  assert (Hw : (length (filter (fun i => i = "a") (download_queue w)) ≤ 1)%nat)
    by (vm_compute; lia).
  assert (Hv : (length (filter (fun i => i = "a") (download_queue v)) ≤ 1)%nat)
    by (vm_compute; lia).
  split; [exact Hw|].
  split; [vm_compute; reflexivity|].
  destruct (cancel_download_unbinds w "a") as [H1 H2].
  split; [exact H1|]. split; [exact (H2 Hw)|].
  split; [reflexivity|]. split; [exact Hv|].
  exact (proj2 (cancel_download_unbinds v "a") Hv).
Defined.

(** C9 (as stated) fails when the id is queued twice: an engine that
    enqueued a download before [start()] holds its id twice after the
    recovery, and one occurrence survives the cancel. It also fails when
    a [resume_download] of the id runs while the cancel waits: the cancel
    has tested the pending list before it waits, the resume enqueues the
    id, and the cancel returns [True] with the id in the pending list. *)
Lemma cancel_download_keeps_duplicate :
  (download_queue queued_before_start = ["a"; "a"] ∧
   outcome (Manager.cancel_download "a") queued_before_start = Ok true ∧
   "a" ∈ download_queue (step (OpCancel "a") queued_before_start)) ∧
  (let w := run [OpStart; OpAdd "a" "http://x/a" None 1] (Manager.init 3 [] []) in
   let call := cancel_download_overlapped "a" [OpResume "a" (fetch_ok "a.mp4")] in
   download_queue w = ["a"] ∧
   active_downloads w !! "a" = None ∧
   outcome call w = Ok true ∧
   download_queue (exec call w) = ["a"] ∧
   active_downloads (step OpTick (exec call w)) !! "a" = Some 0%nat).
Proof.
  split.
  - split; [by vm_compute|]. split; [by vm_compute|].
    assert (download_queue (step (OpCancel "a") queued_before_start) = ["a"]) as ->
      by (by vm_compute).
    apply list_elem_of_here.
  - by vm_compute.
Qed.

(** C5. [pause_download] on a queued task records [PAUSED] in the store
    and never touches the pending list; the next turn of the control loop
    pops the paused id and launches a runner for it, which then sets the
    task to [DOWNLOADING]. *)
Theorem pause_leaves_task_queued :
  (∀ w download_id,
     download_queue (step (OpPause download_id) w) = download_queue w) ∧
  let w0 := run [OpStart; OpAdd "a" "http://x/a" None 1] (Manager.init 3 [] []) in
  let w1 := step (OpPause "a") w0 in
  let w2 := step OpTick w1 in
  let w3 := step (OpRunnerBegin 0) w2 in
  active_downloads w0 !! "a" = None ∧
  outcome (Manager.pause_download "a") w0 = Ok true ∧
  stored_status w1 "a" = Some PAUSED ∧
  download_queue w1 = ["a"] ∧
  download_queue w2 = [] ∧
  coroutine_of w2 0 = Some Launched ∧
  stored_status w3 "a" = Some DOWNLOADING ∧
  count_runners DOWNLOADING w3 = 1%nat.
Proof.
  split.
  - intros w download_id. apply (pause_download_same_queue download_id w).
  - by vm_compute.
Qed.

(** C2. With limit 1, two downloads paused while queued are both popped
    by the control loop; each runner is swept from the registry before
    its coroutine starts, so the registry is empty while both tasks are
    [DOWNLOADING], in the store and in their runner objects. *)
Theorem concurrency_limit_exceeded :
  let w := run [OpTick; OpRunnerBegin 0; OpTick; OpRunnerBegin 1] two_paused in
  max_concurrent_downloads w = 1 ∧
  size (active_downloads w) = 0%nat ∧
  count_status DOWNLOADING (rows w) = 2%nat ∧
  count_runners DOWNLOADING w = 2%nat ∧
  coroutine_of w 0 = Some Fetching ∧
  coroutine_of w 1 = Some Fetching ∧
  outcome Manager.get_system_status w =
    Ok {| active := 2; queued := 0; completed := 0; failed := 0; total := 2 |}.
Proof. by vm_compute. Qed.

(** ** The store queries *)

Lemma insert_desc_perm (r : Db.Row) (l : list Db.Row) : Db.insert_desc r l ≡ₚ r :: l.
Proof.
  induction l as [|x l IH]; simpl; [done|].
  destruct (Z.ltb _ _); [done|].
  rewrite IH. apply Permutation_swap.
Qed.

Lemma order_by_created_at_desc_perm (l : list Db.Row) :
  Db.order_by_created_at_desc l ≡ₚ l.
Proof.
  unfold Db.order_by_created_at_desc.
  induction l as [|x l IH]; simpl; [done|].
  by rewrite insert_desc_perm, IH.
Qed.

Lemma limit_offset_all (limit : Z) (l : list Db.Row) :
  (length l ≤ Z.to_nat limit)%nat → Db.limit_offset limit 0 l = l.
Proof.
  intros Hlen. unfold Db.limit_offset. simpl.
  destruct (Z.ltb limit 0); [done|]. by apply take_ge.
Qed.

Lemma limit_offset_sublist (limit offset : Z) (l : list Db.Row) :
  Db.limit_offset limit offset l ⊆ l.
Proof.
  unfold Db.limit_offset. intros x Hx.
  destruct (Z.ltb limit 0).
  - by eapply subseteq_drop.
  - eapply subseteq_drop, subseteq_take, Hx.
Qed.

(** A query with a status returns rows of that status, taken from the
    table. *)
Lemma sql_select_status_elem s limit offset table r :
  r ∈ Db.sql_select (Some s) limit offset table →
  r ∈ table ∧ Db.row_status r = s.
Proof.
  unfold Db.sql_select. intros Hr.
  apply limit_offset_sublist in Hr.
  rewrite order_by_created_at_desc_perm in Hr.
  apply list_elem_of_filter in Hr as [? ?]. by split.
Qed.

(** Within the limit, it returns all of them. *)
Lemma sql_select_status_all s limit table r :
  (count_status s table ≤ Z.to_nat limit)%nat →
  r ∈ table → Db.row_status r = s →
  r ∈ Db.sql_select (Some s) limit 0 table.
Proof.
  unfold Db.sql_select, count_status. intros Hlen Hr Hs.
  rewrite limit_offset_all.
  - rewrite order_by_created_at_desc_perm. by apply list_elem_of_filter.
  - by rewrite order_by_created_at_desc_perm.
Qed.

Lemma sql_select_all_length limit table :
  (length table ≤ Z.to_nat limit)%nat →
  length (Db.sql_select None limit 0 table) = length table.
Proof.
  intros Hlen. unfold Db.sql_select.
  rewrite limit_offset_all; by rewrite order_by_created_at_desc_perm.
Qed.

(** ** The counts of [get_system_status] *)

Lemma count_status_cons s r l :
  count_status s (r :: l) =
    ((if decide (Db.row_status r = s) then 1 else 0) + count_status s l)%nat.
Proof.
  unfold count_status. rewrite filter_cons.
  by destruct (decide (Db.row_status r = s)).
Qed.

Lemma count_one_foldl (l : list Db.Row) (c : StatusCounts) :
  foldl Manager.count_one c l =
    {| active := active c + count_status DOWNLOADING l;
       queued := queued c + (count_status PENDING l + count_status PAUSED l);
       completed := completed c + count_status COMPLETED l;
       failed := failed c + count_status FAILED l;
       total := total c |}%nat.
Proof.
  revert c. induction l as [|r l IH]; intros c; simpl.
  - destruct c. unfold count_status. simpl. f_equal; lia.
  - rewrite IH, !count_status_cons.
    unfold Manager.count_one.
    destruct (Db.row_status r); simpl; f_equal; lia.
Qed.

(** Every row has exactly one of the six statuses. *)
Lemma count_status_partition (l : list Db.Row) :
  (count_status DOWNLOADING l + (count_status PENDING l + count_status PAUSED l)
   + count_status COMPLETED l + count_status FAILED l + count_status CANCELLED l
   = length l)%nat.
Proof.
  induction l as [|r l IH]; [done|].
  rewrite !count_status_cons. simpl length.
  destruct (Db.row_status r); simpl; lia.
Qed.

(** The result of [get_system_status] when the store answers. *)
Lemma get_system_status_answer (w : World) :
  raises <$> head (db_faults w) ≠ Some true →
  outcome Manager.get_system_status w =
    Ok (Manager.count_all (Db.sql_select None 10000 0 (rows w))).
Proof.
  intros Hf. unfold outcome, Manager.get_system_status, try_except, mbind, M_bind,
    Database.get_downloads, Database.call.
  destruct (db_faults w) as [|[] fs]; simpl in *; [done | done | congruence | congruence].
Qed.

(** C7 (as stated) fails on a cancelled record: it is counted in
    [total] and in none of the four classes. *)
Lemma status_snapshot_misses_cancelled :
  stored_status one_cancelled "a" = Some CANCELLED ∧
  outcome Manager.get_system_status one_cancelled =
    Ok {| active := 0; queued := 0; completed := 0; failed := 0; total := 1 |} ∧
  (0 + 0 + 0 + 0 ≠ 1)%nat.
Proof. split; [by vm_compute|]. split; [by vm_compute | lia]. Qed.

(** C7 (as amended). When the store answers, [get_system_status] counts
    the records the query returns (the 10000 newest, hence all of them
    up to that number): [total] is their number; a record is counted in
    [active] when its stored status is downloading, in [queued] when it is
    pending or paused, in [completed] and [failed] likewise; a cancelled
    record is counted in none of the four, so the four counts and the
    number of cancelled records add up to [total]. *)
Theorem status_snapshot_partition (w : World) :
  raises <$> head (db_faults w) ≠ Some true →
  let returned := Db.sql_select None 10000 0 (rows w) in
  ∃ c, outcome Manager.get_system_status w = Ok c ∧
    active c = count_status DOWNLOADING returned ∧
    queued c = (count_status PENDING returned + count_status PAUSED returned)%nat ∧
    completed c = count_status COMPLETED returned ∧
    failed c = count_status FAILED returned ∧
    total c = length returned ∧
    (active c + queued c + completed c + failed c
     + count_status CANCELLED returned = total c)%nat ∧
    (Z.of_nat (length (rows w)) ≤ 10000 → total c = length (rows w)).
Proof.
  intros Hf returned. eexists. split; [by apply get_system_status_answer|].
  fold returned. unfold Manager.count_all. rewrite count_one_foldl. simpl.
  repeat split; try done.
  - apply count_status_partition.
  - intros Hlen. apply sql_select_all_length. lia.
Qed.

(** The amended C7 on a store with a record of every status. *)
Lemma status_snapshot_partition_witness :
  let w := Manager.init 3
    (map (fun '(i, s) =>
            {| Db.row_id := i; Db.row_url := "http://x"; Db.row_status := s;
               Db.row_progress := 0%Q; Db.row_created_at := 0;
               Db.row_error_message := None |})
         [("a", PENDING); ("b", DOWNLOADING); ("c", PAUSED); ("d", COMPLETED);
          ("e", FAILED); ("f", CANCELLED); ("g", CANCELLED)]) [] in
  raises <$> head (db_faults w) ≠ Some true ∧
  ∃ c, outcome Manager.get_system_status w = Ok c ∧
       (active c + queued c + completed c + failed c + 2 = total c)%nat.
Proof.
  intros w.
  assert (Hf : raises <$> head (db_faults w) ≠ Some true) by (vm_compute; congruence).
  split; [exact Hf|].
  destruct (status_snapshot_partition w Hf) as (c & Hc & _ & _ & _ & _ & _ & Hsum & _).
  exists c. split; [exact Hc|].
  replace 2%nat with (count_status CANCELLED (Db.sql_select None 10000 0 (rows w)))
    by (by vm_compute).
  exact Hsum.
Defined.

(** C10. [get_system_status] returns for every state of the engine and
    of the store; when the store query raises it returns five zeros,
    which is also what it returns on an empty store that answers. *)
Theorem get_system_status_never_raises :
  (∀ w, ∃ c, outcome Manager.get_system_status w = Ok c) ∧
  (∀ w, raises <$> head (db_faults w) = Some true →
        outcome Manager.get_system_status w = Ok Manager.zero_counts) ∧
  (∀ w, raises <$> head (db_faults w) ≠ Some true → rows w = [] →
        outcome Manager.get_system_status w = Ok Manager.zero_counts).
Proof.
  split; [|split].
  - intros w. apply try_except_outcome. intros e w'. by eexists.
  - intros w Hf.
    unfold outcome, Manager.get_system_status, try_except, mbind, M_bind,
      Database.get_downloads, Database.call.
    destruct (db_faults w) as [|[] fs]; simpl in *; [congruence | congruence | done | done].
  - intros w Hf Hrows. rewrite get_system_status_answer by done.
    rewrite Hrows. unfold Db.sql_select, Db.limit_offset.
    change (Db.order_by_created_at_desc []) with (@nil Db.Row).
    rewrite drop_nil. destruct (Z.ltb 10000 0); [done|]. by rewrite take_nil.
Qed.

(** C10 on a failing store that holds a record, and on an empty one. *)
Lemma get_system_status_never_raises_witness :
  let failing := Manager.init 3 crashed_store [ExecuteRaises] in
  let empty := Manager.init 3 [] [] in
  raises <$> head (db_faults failing) = Some true ∧
  raises <$> head (db_faults empty) ≠ Some true ∧ rows empty = [] ∧
  outcome Manager.get_system_status failing = Ok Manager.zero_counts ∧
  outcome Manager.get_system_status empty = Ok Manager.zero_counts.
Proof.
  intros failing empty.
  destruct get_system_status_never_raises as (_ & Hfail & Hempty).
  assert (H1 : raises <$> head (db_faults failing) = Some true) by reflexivity.
  assert (H2 : raises <$> head (db_faults empty) ≠ Some true) by (simpl; congruence).
  assert (H3 : rows empty = []) by reflexivity.
  split; [exact H1|]. split; [exact H2|]. split; [exact H3|].
  split; [exact (Hfail failing H1) | exact (Hempty empty H2 H3)].
Defined.

(** ** Startup recovery *)

(** The recovery when both queries are answered. *)
Lemma start_answered (w : World) :
  _running w = false →
  true ∉ take 2 (raises <$> db_faults w) →
  download_queue (step OpStart w) =
    download_queue w
    ++ map Db.row_id (Db.sql_select (Some PENDING) Database.default_limit 0 (rows w))
    ++ map Db.row_id (Db.sql_select (Some PAUSED) Database.default_limit 0 (rows w)) ∧
  rows (step OpStart w) = rows w.
Proof.
  intros Hrun Hf.
  unfold step, exec, Manager.start, Manager._load_pending_downloads, try_except,
    mbind, M_bind, gets, modify, Database.get_downloads, Database.call.
  rewrite Hrun. simpl.
  destruct (db_faults w) as [|[] [|[] fs]] eqn:Hfaults; simpl;
    rewrite ?Hfaults; simpl;
    try (rewrite <- (assoc_L (++)); done);
    exfalso; apply Hf; simpl; set_solver.
Qed.

(** C3 (as stated) fails on a record left [DOWNLOADING] by a crash:
    [start()] neither resets it nor enqueues it, and with an empty
    pending list no later turn of the control loop admits it. *)
Lemma recovery_leaves_active_record :
  let w := step OpStart (Manager.init 3 crashed_store []) in
  stored_status w "a" = Some DOWNLOADING ∧
  ("a" ∉ download_queue w) ∧
  step OpTick w = w.
Proof.
  intros w. split; [by vm_compute|]. split.
  - assert (download_queue w = []) as -> by (by vm_compute). apply not_elem_of_nil.
  - by vm_compute.
Qed.

(** C3 (as amended). When [start()] runs the recovery and both queries
    are answered, the ids of the stored pending records and then those of
    the paused ones, each newest first and at most 50 of each, are
    appended to the pending list, before any turn of the control loop;
    with at most 50 records of a status, every record of that status is
    enqueued. Nothing else is enqueued and no record is written: a
    record found downloading stays as it is. *)
Theorem recovery_requeues_pending_and_paused (w : World) :
  _running w = false →
  true ∉ take 2 (raises <$> db_faults w) →
  let pending := Db.sql_select (Some PENDING) Database.default_limit 0 (rows w) in
  let paused := Db.sql_select (Some PAUSED) Database.default_limit 0 (rows w) in
  let w' := step OpStart w in
  download_queue w' =
    download_queue w ++ map Db.row_id pending ++ map Db.row_id paused ∧
  rows w' = rows w ∧
  (∀ r, r ∈ pending ++ paused →
        r ∈ rows w ∧ (Db.row_status r = PENDING ∨ Db.row_status r = PAUSED)) ∧
  (∀ s, s = PENDING ∨ s = PAUSED →
        (count_status s (rows w) ≤ 50)%nat →
        ∀ r, r ∈ rows w → Db.row_status r = s → Db.row_id r ∈ download_queue w').
Proof.
  intros Hrun Hf pending paused w'.
  destruct (start_answered w Hrun Hf) as [Hq Hrows].
  fold pending paused w' in Hq. fold w' in Hrows.
  split; [exact Hq|]. split; [exact Hrows|]. split.
  - intros r [Hr|Hr]%elem_of_app;
      apply sql_select_status_elem in Hr as [? ?]; auto.
  - intros s Hs Hcount r Hr Hstatus. rewrite Hq.
    assert (Hsel : r ∈ Db.sql_select (Some s) Database.default_limit 0 (rows w)).
    { apply sql_select_status_all; [|done..].
      unfold Database.default_limit. lia. }
    rewrite !elem_of_app.
    destruct Hs as [-> | ->]; [right; left | right; right];
      by apply list_elem_of_fmap_2.
Qed.

(** The amended C3 on a store with a pending, a paused and a downloading
    record. *)
Lemma recovery_requeues_pending_and_paused_witness :
  let w := Manager.init 3 mixed_store [] in
  _running w = false ∧ (true ∉ take 2 (raises <$> db_faults w)) ∧
  download_queue (step OpStart w) = ["p"; "q"] ∧
  rows (step OpStart w) = mixed_store.
Proof.
  intros w.
  assert (Hrun : _running w = false) by reflexivity.
  assert (Hf : true ∉ take 2 (raises <$> db_faults w)) by (simpl; apply not_elem_of_nil).
  split; [exact Hrun|]. split; [exact Hf|].
  destruct (recovery_requeues_pending_and_paused w Hrun Hf) as (Hq & Hrows & _).
  split; [exact Hq | exact Hrows].
Defined.

(** ** One turn of the control loop *)

Lemma exec_try_ret {A} (m : M A) (a : A) (w : World) :
  exec (try_except m (fun _ => mret a)) w = exec m w.
Proof. unfold exec, try_except. by destruct (m w) as [[?|?] ?]. Qed.

Lemma start_download_returns download_id w :
  ∃ u, outcome (Manager._start_download download_id) w = Ok u.
Proof. apply try_except_outcome. intros e w'. by exists tt. Qed.

(** [_start_download] either changes neither the registry nor the heap
    (the store raised, or has no such record), or binds the id to a new
    runner object built from the stored record. *)
Lemma start_download_effect (download_id : string) (w : World) :
  let w1 := exec (Manager._start_download download_id) w in
  download_queue w1 = download_queue w ∧
  max_concurrent_downloads w1 = max_concurrent_downloads w ∧
  ((active_downloads w1 = active_downloads w ∧ heap w1 = heap w ∧
    (raises <$> head (db_faults w) = Some true ∨
     Db.sql_select_id download_id (rows w) = None)) ∨
   (∃ r, raises <$> head (db_faults w) ≠ Some true ∧
         Db.sql_select_id download_id (rows w) = Some r ∧
         active_downloads w1 = <[download_id := length (heap w)]> (active_downloads w) ∧
         heap w1 = heap w ++ [{| runner := {| task := Manager.task_of_row r;
                                              _cancelled := false; _paused := false |};
                                 coroutine := Launched |}])).
Proof.
  unfold exec, Manager._start_download, try_except, mbind, M_bind,
    Database.get_download, Database.call, modify.
  destruct (db_faults w) as [|[] fs] eqn:Hf; simpl;
    try (destruct (Db.sql_select_id download_id (rows w)) as [r|] eqn:Hsel; simpl);
    (split; [done|]); (split; [done|]);
    first [ left; by auto
          | right; exists r; repeat split; by rewrite ?Hf ].
Qed.

(** The clean-up keeps a subset of the registry and nothing else changes. *)
Lemma clean_up_effect (w : World) :
  let w1 := exec Manager.clean_up w in
  download_queue w1 = download_queue w ∧ heap w1 = heap w ∧
  max_concurrent_downloads w1 = max_concurrent_downloads w ∧
  active_downloads w1 =
    filter (fun kv => Manager.runner_is_active w kv.2 = true) (active_downloads w).
Proof. done. Qed.

(** The turn of the loop, spelled out. *)
Lemma tick_unfold (w : World) :
  _running w = true →
  step OpTick w =
    exec Manager.clean_up
      (if bool_decide (Z.of_nat (size (active_downloads w)) < max_concurrent_downloads w)
       then match download_queue w with
            | download_id :: rest =>
                exec (Manager._start_download download_id) (set_download_queue rest w)
            | [] => w
            end
       else w).
Proof.
  intros Hrun. unfold step. rewrite Hrun.
  unfold Manager.process_queue_iteration. rewrite exec_try_ret.
  unfold exec at 1, mbind, M_bind, gets. simpl.
  destruct (bool_decide _); [destruct (download_queue w) as [|i rest]|]; simpl; try done.
  destruct (start_download_returns i (set_download_queue rest w)) as [u Hu].
  unfold outcome in Hu. unfold exec at 2.
  destruct (Manager._start_download i (set_download_queue rest w)) as [r w1].
  simpl in Hu. by subst r.
Qed.

(** C4 (as stated) fails: one turn of the control loop admits one task,
    so after the first turn over five queued tasks with limit 2 there is
    one registered runner and four pending ids, not two and three. *)
Lemma tick_fills_one_slot_only :
  max_concurrent_downloads five_queued = 2 ∧
  download_queue five_queued = ["a"; "b"; "c"; "d"; "e"] ∧
  size (active_downloads (step OpTick five_queued)) = 1%nat ∧
  download_queue (step OpTick five_queued) = ["b"; "c"; "d"; "e"].
Proof. by vm_compute. Qed.

(** C4 (as amended). A turn of the control loop admits at most one
    task: when the registry, which still counts the runners that have
    ended since the last turn, is smaller than the limit, the head of the
    pending list is popped (and, its record being found pending in the
    store, bound to a newly launched runner); otherwise the list is left
    alone. The turn then removes the runners that have ended. So a turn
    that finds the registry full admits nothing, also when a registered
    runner has ended: it only removes that runner, and the slot is free
    for the turn after. With five tasks queued and limit 2 the first turn
    leaves one runner and four pending on every schedule. What the second
    turn leaves depends on the first runner: when its fetch has ended in
    between (the fetch blocks the event loop, so this is the schedule on
    which nothing stalls) the turn admits the second task and removes the
    first runner, leaving one runner and three pending; when it is held
    up before its fetch, two and three, then nothing changes until a
    runner ends, the next turn only removes it and the turn after admits
    the next task. *)
Theorem tick_admits_at_most_one :
  (∀ w, _running w = true →
     let free :=
       bool_decide (Z.of_nat (size (active_downloads w)) < max_concurrent_downloads w) in
     let w' := step OpTick w in
     download_queue w' = (if free then tail (download_queue w) else download_queue w) ∧
     (size (active_downloads w') ≤ S (size (active_downloads w)))%nat ∧
     (∀ download_id rest r,
        free = true → download_queue w = download_id :: rest →
        raises <$> head (db_faults w) ≠ Some true →
        Db.sql_select_id download_id (rows w) = Some r →
        Db.row_status r = PENDING →
        active_downloads w' !! download_id = Some (length (heap w)) ∧
        coroutine_of w' (length (heap w)) = Some Launched) ∧
     (free = false →
        active_downloads w' =
          filter (fun kv => Manager.runner_is_active w kv.2 = true) (active_downloads w) ∧
        (∀ download_id h,
           active_downloads w !! download_id = Some h →
           Manager.runner_is_active w h = false →
           (size (active_downloads w') < size (active_downloads w))%nat))) ∧
  (let t1 := step OpTick five_queued in
   let ended := run [OpRunnerBegin 0; OpRunnerFinish 0 (fetch_ok "a.mp4")] t1 in
   let e2 := step OpTick ended in
   let s2 := step OpTick t1 in
   let s3 := step OpTick s2 in
   let finished := run [OpRunnerBegin 0; OpRunnerFinish 0 (fetch_ok "a.mp4")] s2 in
   let s4 := step OpTick finished in
   let s5 := step OpTick s4 in
   (size (active_downloads t1), download_queue t1) = (1%nat, ["b"; "c"; "d"; "e"]) ∧
   stored_status ended "a" = Some COMPLETED ∧
   (size (active_downloads e2), download_queue e2) = (1%nat, ["c"; "d"; "e"]) ∧
   active_downloads e2 !! "a" = None ∧
   active_downloads e2 !! "b" = Some 1%nat ∧
   (size (active_downloads s2), download_queue s2) = (2%nat, ["c"; "d"; "e"]) ∧
   (size (active_downloads s3), download_queue s3) = (2%nat, ["c"; "d"; "e"]) ∧
   stored_status finished "a" = Some COMPLETED ∧
   (size (active_downloads s4), download_queue s4) = (1%nat, ["c"; "d"; "e"]) ∧
   (size (active_downloads s5), download_queue s5) = (2%nat, ["d"; "e"])).
Proof.
  split; [|by vm_compute].
  intros w Hrun free w'. subst w'. rewrite (tick_unfold w Hrun). fold free.
  destruct free eqn:Hfree.
  - destruct (download_queue w) as [|i rest] eqn:Hq.
    + simpl. split; [done|]. split; [|split; [intros ?????; discriminate | discriminate]].
      etrans; [apply map_size_filter | lia].
    + set (w0 := set_download_queue rest w).
      destruct (start_download_effect i w0) as (Hq1 & _ & Hcases).
      set (w1 := exec (Manager._start_download i) w0) in *.
      destruct (clean_up_effect w1) as (Hq2 & Hh2 & _ & Hreg2).
      split; [by rewrite Hq2, Hq1|]. split; [|split; [|discriminate]].
      * rewrite Hreg2. etrans; [apply map_size_filter|].
        destruct Hcases as [(-> & _) | (r & _ & _ & -> & _)]; [simpl; lia|].
        simpl. rewrite map_size_insert. destruct (_ !! _); simpl; lia.
      * intros download_id rest' r _ [= <- <-] Hf Hsel Hstatus.
        destruct Hcases as [(_ & _ & [Hbad|Hbad]) | (r' & _ & Hsel' & Hreg1 & Hh1)];
          [done | simpl in Hbad; congruence |].
        simpl in Hsel'. assert (r' = r) as -> by congruence.
        assert (Hcell : heap w1 !! length (heap w) = Some
                  {| runner := {| task := Manager.task_of_row r;
                                  _cancelled := false; _paused := false |};
                     coroutine := Launched |}).
        { rewrite Hh1. simpl. by rewrite lookup_app_r, Nat.sub_diag. }
        split.
        -- rewrite Hreg2. apply map_lookup_filter_Some_2.
           ++ rewrite Hreg1. simpl. apply lookup_insert_eq.
           ++ simpl. unfold Manager.runner_is_active. rewrite Hcell.
              unfold Runner.is_active. simpl. rewrite Hstatus. done.
        -- unfold coroutine_of. rewrite Hh2, Hcell. done.
  - split; [done|]. split; [|split; [intros ?????; discriminate|]].
    + destruct (clean_up_effect w) as (_ & _ & _ & ->).
      etrans; [apply map_size_filter | lia].
    + intros _. destruct (clean_up_effect w) as (_ & _ & _ & ->).
      split; [done|]. intros download_id h Hreg Hact.
      assert (Hsub : filter (fun kv : string * nat => Manager.runner_is_active w kv.2 = true)
                       (active_downloads w) ⊆ delete download_id (active_downloads w)).
      { apply map_subseteq_spec. intros k v Hk.
        apply map_lookup_filter_Some in Hk as [Hk Hv]. simpl in Hv.
        rewrite lookup_delete_ne; [done|]. intros <-. congruence. }
      apply map_subseteq_size in Hsub.
      rewrite map_size_delete_Some in Hsub by (by rewrite Hreg).
      assert (size (active_downloads w) ≠ 0%nat)
        by (apply map_size_ne_0_lookup; eauto).
      lia.
Qed.

(** The amended C4 on the engine with five queued tasks and limit 2. *)
Lemma tick_admits_at_most_one_witness :
  _running five_queued = true ∧
  download_queue (step OpTick five_queued) = ["b"; "c"; "d"; "e"] ∧
  (size (active_downloads (step OpTick five_queued)) ≤ 1)%nat.
Proof.
  assert (Hrun : _running five_queued = true) by reflexivity.
  split; [exact Hrun|].
  destruct tick_admits_at_most_one as [Hgen _].
  destruct (Hgen five_queued Hrun) as (Hq & Hsize & _).
  split; [exact Hq | exact Hsize].
Defined.

(** ** What the operations write to the store *)

Lemma sql_select_id_update download_id i u (table : list Db.Row) :
  Db.sql_select_id download_id (Db.sql_update i u table) =
    (fun r => if decide (download_id = i) then Db.apply_update u r else r)
      <$> Db.sql_select_id download_id table.
Proof.
  unfold Db.sql_select_id, Db.sql_update.
  induction table as [|r table IH]; [done|].
  rewrite fmap_cons, !filter_cons.
  assert (Hid : Db.row_id (if decide (Db.row_id r = i) then Db.apply_update u r else r)
                = Db.row_id r) by (destruct (decide (Db.row_id r = i)); reflexivity).
  rewrite Hid. destruct (decide (Db.row_id r = download_id)) as [Heq|Hne]; [|exact IH].
  simpl. f_equal. rewrite Heq. done.
Qed.

Lemma sql_select_id_app download_id (table : list Db.Row) r :
  Db.sql_select_id download_id (table ++ [r]) =
    match Db.sql_select_id download_id table with
    | Some x => Some x
    | None => if decide (Db.row_id r = download_id) then Some r else None
    end.
Proof.
  unfold Db.sql_select_id. rewrite filter_app.
  destruct (filter _ table) as [|x l]; simpl; [|done].
  rewrite filter_cons. destruct (decide _); done.
Qed.

Lemma evolves_same_rows S w w' : rows w' = rows w → evolves S w w'.
Proof. intros Hr i s'. unfold stored_status. rewrite Hr. auto. Qed.

Global Instance evolves_preorder S : PreOrder (evolves S).
Proof.
  split.
  - intros w i s'. auto.
  - intros a b c Hab Hbc i s' Hc.
    destruct (Hbc i s' Hc) as [Hb|?]; [|by right]. by apply Hab.
Qed.

Global Instance evolves_faults S : IgnoresFaults (evolves S).
Proof. intros w x. by apply evolves_same_rows. Qed.
Global Instance evolves_heap S : IgnoresHeap (evolves S).
Proof. intros w x. by apply evolves_same_rows. Qed.
Global Instance evolves_logs S : IgnoresLogs (evolves S).
Proof. intros w. split; intros x; by apply evolves_same_rows. Qed.





(** Membership in a list that is written out. *)
Ltac in_list :=
  solve [repeat first [apply list_elem_of_here | apply list_elem_of_further]
        | assumption].


Section Evolves.
Variable S : list DownloadStatus.















End Evolves.

(** The stored status after an answered status update of a record. *)
Lemma stored_status_after_update w w' download_id s s0 :
  rows w' = Db.sql_update download_id (Db.only_status s) (rows w) →
  stored_status w download_id = Some s0 →
  stored_status w' download_id = Some s.
Proof.
  unfold stored_status. intros -> Hs0. rewrite sql_select_id_update.
  destruct (Db.sql_select_id download_id (rows w)); [|done]. simpl.
  by rewrite decide_True.
Qed.

(** [pause], [resume] and [cancel] on an id that is bound to no runner
    update the store, when it answers, whatever the record holds. *)
Lemma unbound_control_rows w download_id f :
  active_downloads w !! download_id = None →
  raises <$> head (db_faults w) ≠ Some true →
  rows (step (OpPause download_id) w)
    = Db.sql_update download_id (Db.only_status PAUSED) (rows w) ∧
  rows (step (OpResume download_id f) w)
    = Db.sql_update download_id (Db.only_status PENDING) (rows w) ∧
  rows (step (OpCancel download_id) w)
    = Db.sql_update download_id (Db.only_status CANCELLED) (rows w).
Proof.
  intros Hreg Hf.
  unfold step, exec, Manager.pause_download, Manager.resume_download,
    Manager.cancel_download, try_except, mbind, M_bind, gets, modify,
    Database.update_download, Database.call, Manager.notify_if, publish_status.
  simpl. rewrite Hreg.
  assert (Hreg' : ∀ q, active_downloads
            (if bool_decide (download_id ∈ download_queue w)
             then set_download_queue q w else w) !! download_id = None)
    by (intros q; by destruct (bool_decide _)).
  rewrite Hreg'.
  destruct (db_faults w) as [|[] fs] eqn:Hfaults; simpl in Hf; [| |congruence|congruence];
    repeat split; simpl;
    repeat (first [ rewrite Hfaults
                  | match goal with
                    | |- context [bool_decide ?P] => destruct (bool_decide P)
                    end ]; simpl); done.
Qed.




(** ** Progress *)

Lemma percentage_of_bounds (downloaded total : Z) :
  0 < total → 0 ≤ downloaded ≤ total →
  (0 <= Runner.percentage_of downloaded total)%Q ∧
  (Runner.percentage_of downloaded total <= 100)%Q.
Proof.
  intros Ht Hd. unfold Runner.percentage_of, Qle, Qdiv, Qmult, Qinv, inject_Z.
  destruct total as [|p|p]; try lia. simpl. split; nia.
Qed.

Lemma percentage_of_mono (d1 t1 d2 t2 : Z) :
  0 < t1 → 0 < t2 → d1 * t2 ≤ d2 * t1 →
  (Runner.percentage_of d1 t1 <= Runner.percentage_of d2 t2)%Q.
Proof.
  intros H1 H2 H. unfold Runner.percentage_of, Qle, Qdiv, Qmult, Qinv, inject_Z.
  destruct t1 as [|p1|p1]; try lia. destruct t2 as [|p2|p2]; try lia.
  simpl. rewrite !Pos.mul_1_r, !Z.mul_1_r. nia.
Qed.

(** C6 (as stated) fails: while the task stays [DOWNLOADING], a sample
    whose total estimate has grown lowers the percentage, and a sample
    with more bytes than the estimated total puts it above 100. *)
Lemma progress_percentage_unclamped :
  let r1 := after_hooks [HookDownloading 60 (Some 100) None] downloading_runner in
  let r2 := after_hooks [HookDownloading 60 None (Some 200)] r1 in
  let r3 := after_hooks [HookDownloading 150 None (Some 100)] r2 in
  status (task r3) = DOWNLOADING ∧
  (progress (task r2) < progress (task r1))%Q ∧
  (100 < progress (task r3))%Q ∧
  (dp_percentage <$> (Runner._progress_hook (HookDownloading 150 None (Some 100)) r2).2)
    = Some (progress (task r3)).
Proof. by vm_compute. Qed.

(** C6 (as amended). A progress sample with a positive total sets the
    task's percentage, and the one handed to the progress callback, to
    downloaded / total * 100, without comparing it with the previous
    value and without a clamp; a sample without a positive total changes
    nothing. So the percentage lies between 0 and 100 when
    0 <= downloaded <= total, and does not decrease from one sample to
    the next when downloaded / total does not. *)
Theorem progress_percentage_follows_samples :
  (∀ r downloaded total_bytes total_bytes_estimate,
     let total := Runner.hook_total total_bytes total_bytes_estimate in
     let result :=
       Runner._progress_hook
         (HookDownloading downloaded total_bytes total_bytes_estimate) r in
     (0 < total →
        progress (task result.1) = Runner.percentage_of downloaded total ∧
        dp_percentage <$> result.2 = Some (Runner.percentage_of downloaded total) ∧
        status (task result.1) = status (task r)) ∧
     (total ≤ 0 → result = (r, None))) ∧
  (∀ downloaded total,
     0 < total → 0 ≤ downloaded ≤ total →
     (0 <= Runner.percentage_of downloaded total)%Q ∧
     (Runner.percentage_of downloaded total <= 100)%Q) ∧
  (∀ d1 t1 d2 t2,
     0 < t1 → 0 < t2 → d1 * t2 ≤ d2 * t1 →
     (Runner.percentage_of d1 t1 <= Runner.percentage_of d2 t2)%Q).
Proof.
  split; [|split].
  - intros r downloaded tb tbe total result. subst result. simpl. fold total.
    split; intros Ht.
    + by rewrite (proj2 (Z.ltb_lt 0 total) Ht).
    + by rewrite (proj2 (Z.ltb_ge 0 total) Ht).
  - apply percentage_of_bounds.
  - apply percentage_of_mono.
Qed.

(** The amended C6 on two samples of a download of 200 bytes. *)
Lemma progress_percentage_follows_samples_witness :
  let r1 := after_hooks [HookDownloading 50 (Some 200) None] downloading_runner in
  let r2 := after_hooks [HookDownloading 120 (Some 200) None] r1 in
  0 < Runner.hook_total (Some 200) None ∧
  0 ≤ 120 ≤ 200 ∧ 50 * 200 ≤ 120 * 200 ∧
  progress (task r2) = Runner.percentage_of 120 200 ∧
  (Runner.percentage_of 120 200 <= 100)%Q ∧
  (Runner.percentage_of 50 200 <= Runner.percentage_of 120 200)%Q.
Proof.
  intros r1 r2.
  destruct progress_percentage_follows_samples as (Hset & Hbound & Hmono).
  assert (Ht : 0 < Runner.hook_total (Some 200) None) by (by vm_compute).
  assert (Hd : 0 ≤ 120 ≤ 200) by lia.
  assert (Hr : 50 * 200 ≤ 120 * 200) by lia.
  split; [exact Ht|]. split; [exact Hd|]. split; [exact Hr|].
  split; [exact (proj1 (proj1 (Hset r1 120 (Some 200) None) Ht))|].
  split; [exact (proj2 (Hbound 120 200 Ht Hd))|].
  exact (Hmono 50 200 120 200 Ht Ht Hr).
Defined.

(** ** The notification fan-out *)

Section HubFacts.
Variable send_ok : Hub.WebSocket -> bool.
Variable encode : string -> DownloadStatus -> string.

(** The sending loop tries every connection in turn, whatever the
    earlier sends did, and collects the ones whose send raised. *)
Lemma send_all_spec connections message disconnected cm :
  Hub.send_all send_ok connections message disconnected cm =
    (Ok (disconnected ++ filter (fun c => send_ok c = false) connections),
     {| Hub.active_connections := Hub.active_connections cm;
        Hub.sends := Hub.sends cm
                     ++ map (fun c => (c, message, send_ok c)) connections |}).
Proof.
  revert disconnected cm.
  induction connections as [|c rest IH]; intros disconnected cm; simpl.
  - rewrite !app_nil_r. by destruct cm.
  - unfold Hub.try_send, Hub.send_text. rewrite filter_cons.
    destruct (send_ok c) eqn:Hc; simpl; rewrite IH; simpl;
      by rewrite <- ?(assoc_L (++)).
Qed.

Lemma hub_list_remove_app pre x rest :
  x ∉ pre → Hub.list_remove x (pre ++ x :: rest) = pre ++ rest.
Proof.
  induction pre as [|y pre IH]; intros Hx; simpl.
  - by rewrite decide_True.
  - apply not_elem_of_cons in Hx as [Hne Hx].
    rewrite decide_False by done. by rewrite IH.
Qed.

(** Disconnecting the failed connections leaves exactly the others. *)
Lemma disconnect_failed pre connections log :
  (∀ c, c ∈ pre → send_ok c = true) →
  foldl (fun cm ws => Hub.disconnect ws cm)
        {| Hub.active_connections := pre ++ connections; Hub.sends := log |}
        (filter (fun c => send_ok c = false) connections)
  = {| Hub.active_connections := pre ++ filter (fun c => send_ok c = true) connections;
       Hub.sends := log |}.
Proof.
  revert pre. induction connections as [|c rest IH]; intros pre Hpre; [done|].
  rewrite !filter_cons. destruct (send_ok c) eqn:Hc.
  - rewrite decide_False by done. rewrite decide_True by done.
    rewrite (cons_middle c pre rest), (assoc_L (++)).
    rewrite IH.
    + by rewrite <- (assoc_L (++)).
    + intros c' [Hc'| ->%list_elem_of_singleton]%elem_of_app; auto.
  - rewrite decide_True by done. rewrite decide_False by done.
    simpl. unfold Hub.disconnect at 2. simpl.
    rewrite bool_decide_true by (apply elem_of_app; right; apply list_elem_of_here).
    rewrite hub_list_remove_app.
    + by apply IH.
    + intros Hin. apply Hpre in Hin. congruence.
Qed.

Lemma broadcast_alone message cm :
  Hub.broadcast send_ok message [] cm =
    (Ok tt,
     {| Hub.active_connections :=
          filter (fun c => send_ok c = true) (Hub.active_connections cm);
        Hub.sends :=
          Hub.sends cm
          ++ map (fun c => (c, message, send_ok c)) (Hub.active_connections cm) |}).
Proof.
  unfold Hub.broadcast. simpl. rewrite drop_0, send_all_spec. simpl.
  f_equal. apply (disconnect_failed [] (Hub.active_connections cm)).
  intros c Hc. by apply elem_of_nil in Hc.
Qed.

(** The sends of the loop return a list, whatever happens to the set
    while they are awaited. *)
Lemma send_live_returns during i message disconnected cm :
  ∃ disconnected' cm',
    Hub.send_live send_ok during i message disconnected cm = (Ok disconnected', cm').
Proof.
  revert i disconnected cm.
  induction during as [|events later IH]; intros i disconnected cm; simpl.
  - rewrite send_all_spec. eauto.
  - destruct (Hub.active_connections cm !! i) as [c|]; [|eauto].
    unfold Hub.try_send, Hub.send_text. destruct (send_ok c); simpl; apply IH.
Qed.

(** C8 (as amended). A status publication calls every registered
    callback, in order, whether or not an earlier one raised, and
    returns; it leaves the list of callbacks as it is, so a callback that
    raises is called again at the next publication. The callback that the
    application registers broadcasts the encoded event. When no
    connection joins or leaves while the broadcast awaits its sends,
    [send_text] is called once on every connection of the set, in order,
    also after a send that raised, and after the broadcast the set holds
    exactly the connections whose send returned: a connection whose
    delivery failed is dropped. Whatever joins or leaves during the
    sends, the broadcast returns and does not raise. *)
Theorem publish_delivers_isolates_drops :
  (∀ (status_callbacks : list Hub.Callback) download_id s cm,
     Hub._notify_status_callbacks status_callbacks download_id s cm =
       (Ok tt, foldl (fun cm callback => (callback download_id s cm).2)
                     cm status_callbacks)) ∧
  (∀ download_id s p,
     (Hub._on_status_update download_id s p).1 = Ok tt ∧
     Hub.status_callbacks (Hub._on_status_update download_id s p).2
     = Hub.status_callbacks p) ∧
  (∀ download_id s cm,
     Hub._notify_status_callbacks [Hub.status_callback send_ok encode []] download_id s cm =
       Hub.broadcast send_ok (encode download_id s) [] cm) ∧
  (∀ message cm,
     Hub.broadcast send_ok message [] cm =
       (Ok tt,
        {| Hub.active_connections :=
             filter (fun c => send_ok c = true) (Hub.active_connections cm);
           Hub.sends :=
             Hub.sends cm
             ++ map (fun c => (c, message, send_ok c)) (Hub.active_connections cm) |})) ∧
  (∀ message during cm,
     ∃ cm', Hub.broadcast send_ok message during cm = (Ok tt, cm')).
Proof.
  assert (Hn : ∀ (status_callbacks : list Hub.Callback) download_id s cm,
     Hub._notify_status_callbacks status_callbacks download_id s cm =
       (Ok tt, foldl (fun cm callback => (callback download_id s cm).2)
                     cm status_callbacks)).
  { intros status_callbacks download_id s.
    induction status_callbacks as [|callback rest IH]; intros cm; simpl; [done|].
    destruct (callback download_id s cm) as [[[]|e] cm']; simpl; apply IH. }
  split; [exact Hn|]. split; [|split; [|split; [exact broadcast_alone|]]].
  - intros download_id s p. unfold Hub._on_status_update. by rewrite Hn.
  - intros download_id s cm. simpl. unfold Hub.status_callback.
    rewrite broadcast_alone. done.
  - intros message during cm. unfold Hub.broadcast.
    destruct (send_live_returns during 0 message [] cm) as (d & cm' & ->). eauto.
Qed.

End HubFacts.

(** C8 (as stated) fails in two ways. A callback of the manager that
    raises is not dropped: the list of callbacks is the same after the
    publication, and the next publication calls the failing callback
    again. And a connection that is subscribed, before and after, is
    skipped when another connection leaves the set while a send is
    awaited: the iterator of the loop goes by index over the list that
    has become shorter. *)
Lemma publish_retries_and_skips :
  let send_ok := fun c : Hub.WebSocket => bool_decide (c ≠ 9%nat) in
  let encode := fun (download_id : string) (s : DownloadStatus) => download_id in
  let failing : Hub.Callback := fun download_id s =>
    Hub.send_text send_ok 9%nat (encode download_id s) in
  let p := Hub.add_status_callback (Hub.status_callback send_ok encode [])
             (Hub.add_status_callback failing
                {| Hub.status_callbacks := [];
                   Hub.connections :=
                     {| Hub.active_connections := [1%nat]; Hub.sends := [] |} |}) in
  let p1 := (Hub._on_status_update "a" DOWNLOADING p).2 in
  let p2 := (Hub._on_status_update "b" DOWNLOADING p1).2 in
  let cm := {| Hub.active_connections := [1%nat; 2%nat; 3%nat]; Hub.sends := [] |} in
  (failing "a" DOWNLOADING (Hub.connections p)).1 = Raise "connection closed" ∧
  length (Hub.status_callbacks p2) = 2%nat ∧
  Hub.sends (Hub.connections p2) =
    [(9%nat, "a", false); (1%nat, "a", true); (9%nat, "b", false); (1%nat, "b", true)] ∧
  Hub.broadcast (fun _ => true) "m" [[Hub.Leaves 1%nat]] cm =
    (Ok tt, {| Hub.active_connections := [2%nat; 3%nat];
               Hub.sends := [(1%nat, "m", true); (3%nat, "m", true)] |}).
Proof. by vm_compute. Qed.

(** ** The registry and the limit *)

Global Instance unregisters_preorder : PreOrder unregisters.
Proof.
  split.
  - intros w. by split.
  - intros a b c [Hm1 Hs1] [Hm2 Hs2]. split; [congruence | by etrans].
Qed.

Global Instance unregisters_faults : IgnoresFaults unregisters.
Proof. intros w x. by split. Qed.
Global Instance unregisters_rows : IgnoresRows unregisters.
Proof. intros w x. by split. Qed.
Global Instance unregisters_heap : IgnoresHeap unregisters.
Proof. intros w x. by split. Qed.
Global Instance unregisters_logs : IgnoresLogs unregisters.
Proof. intros w. split; intros x; by split. Qed.

Ltac unregisters_step :=
  first
    [ apply frame_runner_pause; solve [typeclasses eauto]
    | apply frame_runner_resume; solve [typeclasses eauto]
    | apply frame_runner_cancel; solve [typeclasses eauto]
    | apply notify_if_frame; solve [typeclasses eauto]
    | apply preserves_modify;
        [ solve [typeclasses eauto] ..
        | intros ?; split; simpl;
            solve [ reflexivity | by case_bool_decide | apply delete_subseteq ] ]
    | frame_step ].

(** Every operation but the turn of the control loop registers no
    runner. *)
Lemma step_unregisters (o : Op) (w : World) :
  o ≠ OpTick → unregisters w (step o w).
Proof.
  intros Ho. destruct o; simpl; try done.
  - unfold Manager.add_download. revert w. change (preserves unregisters
      (Manager.add_download new_id request_url quality now)).
    unfold Manager.add_download. repeat unregisters_step.
  - revert w. change (preserves unregisters (Manager.pause_download download_id)).
    unfold Manager.pause_download. repeat unregisters_step.
  - revert w. change (preserves unregisters (Manager.resume_download download_id f)).
    unfold Manager.resume_download. repeat unregisters_step.
  - revert w. change (preserves unregisters (Manager.cancel_download download_id)).
    unfold Manager.cancel_download. repeat unregisters_step.
  - revert w. change (preserves unregisters Manager.start).
    unfold Manager.start, Manager._load_pending_downloads. repeat unregisters_step.
  - destruct (decide _); [|reflexivity]. by apply frame_runner_begin; apply _.
  - destruct (decide _); [|reflexivity]. by apply frame_runner_finish; apply _.
Qed.

(** The turn of the control loop registers a runner only below the
    limit. *)
Lemma tick_within_limit (w : World) :
  within_limit w → within_limit (step OpTick w).
Proof.
  unfold within_limit. intros Hw.
  destruct (_running w) eqn:Hrun; [|by simpl; rewrite Hrun].
  rewrite (tick_unfold w Hrun).
  match goal with |- context [exec Manager.clean_up ?w0] =>
    destruct (clean_up_effect w0) as (_ & _ & -> & ->);
    assert (Hw0 : Z.of_nat (size (active_downloads w0)) ≤ max_concurrent_downloads w0);
    [| pose proof (map_size_filter
                     (fun kv : string * nat => Manager.runner_is_active w0 kv.2 = true)
                     (active_downloads w0)); lia]
  end.
  case_bool_decide as Hfree; [|done].
  destruct (download_queue w) as [|i rest]; [done|].
  destruct (start_download_effect i (set_download_queue rest w))
    as (_ & -> & [(-> & _) | (r & _ & _ & -> & _)]); simpl; [done|].
  rewrite map_size_insert. destruct (_ !! _); simpl; lia.
Qed.

(** The size of the registry never exceeds the limit: it does not at
    the creation of a manager with a limit that is not negative, and no
    operation of the engine breaks it. *)
Theorem registry_within_limit (max : Z) (table : list Db.Row) (faults : list Fault)
    (ops : list Op) :
  0 ≤ max → within_limit (run ops (Manager.init max table faults)).
Proof.
  intros Hmax.
  assert (Hinit : within_limit (Manager.init max table faults)).
  { unfold within_limit. simpl. rewrite map_size_empty. lia. }
  revert Hinit. generalize (Manager.init max table faults).
  induction ops as [|o ops IH]; intros w Hw; simpl; [done|].
  apply IH.
  assert (Hcase : o = OpTick ∨ o ≠ OpTick) by (destruct o; auto; right; discriminate).
  destruct Hcase as [->|Ho]; [by apply tick_within_limit|].
  destruct (step_unregisters o w Ho) as [Hm Hsub].
  unfold within_limit in *. rewrite Hm.
  apply map_subseteq_size in Hsub. lia.
Qed.

(** The registry bound on the run in which two tasks download at once. *)
Lemma registry_within_limit_witness :
  0 ≤ 1 ∧
  within_limit (run [OpStart; OpAdd "a" "http://x/a" None 1; OpAdd "b" "http://x/b" None 2;
                     OpPause "a"; OpPause "b"; OpTick; OpRunnerBegin 0; OpTick;
                     OpRunnerBegin 1] (Manager.init 1 [] [])).
Proof.
  assert (H : 0 ≤ 1) by lia.
  split; [exact H|]. exact (registry_within_limit 1 [] [] _ H).
Defined.

(** * Further properties of the code *)

(** ** The store: insert, update, delete, get *)

Lemma sql_select_id_None download_id (table : list Db.Row) :
  Db.sql_select_id download_id table = None ↔ download_id ∉ map Db.row_id table.
Proof.
  unfold Db.sql_select_id. induction table as [|r table IH]; simpl.
  - split; [intros _; apply not_elem_of_nil | done].
  - rewrite filter_cons, not_elem_of_cons.
    destruct (decide (Db.row_id r = download_id)) as [Heq|Hne]; simpl.
    + split; [done | intros [? _]; congruence].
    + rewrite IH. split; [intros ?; split; [congruence | done] | by intros [_ ?]].
Qed.

Lemma sql_rowcount_pos download_id (table : list Db.Row) :
  (0 < Db.sql_rowcount download_id table)%nat ↔ download_id ∈ map Db.row_id table.
Proof.
  unfold Db.sql_rowcount. induction table as [|r table IH]; simpl.
  - split; [lia | intros H; by apply elem_of_nil in H].
  - rewrite filter_cons, elem_of_cons.
    destruct (decide (Db.row_id r = download_id)) as [Heq|Hne]; simpl.
    + split; [by left | lia].
    + rewrite IH. split; [by right | intros [?|?]; [congruence | done]].
Qed.

Lemma sql_update_ids download_id u (table : list Db.Row) :
  map Db.row_id (Db.sql_update download_id u table) = map Db.row_id table.
Proof.
  unfold Db.sql_update. rewrite map_map. apply map_ext.
  intros r. by destruct (decide _).
Qed.


Lemma sql_select_id_delete download_id i (table : list Db.Row) :
  Db.sql_select_id download_id (Db.sql_delete i table) =
    if decide (download_id = i) then None else Db.sql_select_id download_id table.
Proof.
  unfold Db.sql_select_id, Db.sql_delete.
  induction table as [|r table IH]; simpl; [by destruct (decide _)|].
  rewrite !filter_cons.
  destruct (decide (Db.row_id r ≠ i)) as [Hne|Heq].
  - rewrite filter_cons. destruct (decide (Db.row_id r = download_id)) as [Hid|Hid].
    + simpl. subst download_id. by rewrite decide_False.
    + exact IH.
  - apply dec_stable in Heq. rewrite IH.
    destruct (decide (download_id = i)) as [->|Hni]; [done|].
    by rewrite decide_False by congruence.
Qed.

Lemma sql_delete_absent i (table : list Db.Row) :
  i ∉ map Db.row_id table → Db.sql_delete i table = table.
Proof.
  unfold Db.sql_delete. induction table as [|r table IH]; [done|].
  simpl. rewrite not_elem_of_cons. intros [Hne Hrest].
  rewrite filter_cons, decide_True by congruence. by rewrite IH.
Qed.

(** A store call that is answered: its result and the table it leaves. *)
Lemma call_answered {A} (q : list Db.Row -> Result A * list Db.Row) (w : World) :
  raises <$> head (db_faults w) ≠ Some true →
  outcome (Database.call q) w = (q (rows w)).1 ∧
  rows (exec (Database.call q) w) = (q (rows w)).2 ∧
  db_faults (exec (Database.call q) w) = tail (db_faults w) ∧
  download_queue (exec (Database.call q) w) = download_queue w ∧
  active_downloads (exec (Database.call q) w) = active_downloads w ∧
  heap (exec (Database.call q) w) = heap w.
Proof.
  intros Hf. unfold outcome, exec, Database.call.
  destruct (db_faults w) as [|[] fs] eqn:Hfaults; simpl in *; try congruence;
    destruct (q (rows w)); simpl; by rewrite ?Hfaults.
Qed.


(** X2. A row inserted under an id that the table does not hold is what
    [get_download] returns for that id afterwards, and the rows stored
    under the other ids are not affected; an id that the table holds
    already is refused with an error, and the table is left as it was. *)
Theorem insert_then_get (w : World) (r : Db.Row) :
  raises <$> head (db_faults w) ≠ Some true →
  let w' := exec (Database.insert_download r) w in
  (Db.sql_select_id (Db.row_id r) (rows w) = None →
     outcome (Database.insert_download r) w = Ok (Db.row_id r) ∧
     Db.sql_select_id (Db.row_id r) (rows w') = Some r ∧
     (raises <$> head (db_faults w') ≠ Some true →
      outcome (Database.get_download (Db.row_id r)) w' = Ok (Some r)) ∧
     (∀ other, other ≠ Db.row_id r →
        Db.sql_select_id other (rows w') = Db.sql_select_id other (rows w))) ∧
  (∀ r0, Db.sql_select_id (Db.row_id r) (rows w) = Some r0 →
     (∃ e, outcome (Database.insert_download r) w = Raise e) ∧ rows w' = rows w).
Proof.
  intros Hf w'. subst w'. unfold Database.insert_download.
  destruct (call_answered
    (fun rows => match Db.sql_select_id (Db.row_id r) rows with
                 | Some _ => (Raise "UNIQUE constraint failed: downloads.id", rows)
                 | None => (Ok (Db.row_id r), rows ++ [r])
                 end) w Hf) as (Hout & Hrows & _).
  rewrite Hout, Hrows. split.
  - intros Hnone. rewrite Hnone. simpl.
    assert (Hsel : Db.sql_select_id (Db.row_id r) (rows w ++ [r]) = Some r).
    { rewrite sql_select_id_app, Hnone. by rewrite decide_True. }
    split; [done|]. split; [done|]. split.
    + intros Hf'. unfold Database.get_download.
      match goal with |- outcome (Database.call ?q) ?w0 = _ =>
        destruct (call_answered q w0 Hf') as (-> & _) end.
      simpl. rewrite Hrows, Hnone. simpl. by rewrite Hsel.
    + intros other Hother. rewrite sql_select_id_app.
      destruct (Db.sql_select_id other (rows w)); [done|].
      by rewrite decide_False.
  - intros r0 Hsome. rewrite Hsome. simpl. eauto.
Qed.

(** X2 on an empty table. *)
Lemma insert_then_get_witness :
  let r := {| Db.row_id := "a"; Db.row_url := "http://x/a"; Db.row_status := PENDING;
              Db.row_progress := 0%Q; Db.row_created_at := 1;
              Db.row_error_message := None |} in
  let w := Manager.init 3 [] [] in
  raises <$> head (db_faults w) ≠ Some true ∧
  Db.sql_select_id "a" (rows w) = None ∧
  Db.sql_select_id "a" (rows (exec (Database.insert_download r) w)) = Some r.
Proof.
  intros r w.
  assert (Hf : raises <$> head (db_faults w) ≠ Some true) by (simpl; congruence).
  assert (Hn : Db.sql_select_id (Db.row_id r) (rows w) = None) by reflexivity.
  split; [exact Hf|]. split; [exact Hn|].
  exact (proj1 (proj2 (proj1 (insert_then_get w r Hf) Hn))).
Defined.





(** X4. After an answered [delete_download] no row is stored under the
    id, the rows stored under the other ids are as before, and the call
    returned [True] exactly when the id was stored; for an id that is not
    stored the table is unchanged. *)
Theorem delete_download_effect (w : World) (download_id : string) :
  raises <$> head (db_faults w) ≠ Some true →
  let w' := exec (Database.delete_download download_id) w in
  outcome (Database.delete_download download_id) w
    = Ok (bool_decide (download_id ∈ map Db.row_id (rows w))) ∧
  Db.sql_select_id download_id (rows w') = None ∧
  (∀ other, other ≠ download_id →
     Db.sql_select_id other (rows w') = Db.sql_select_id other (rows w)) ∧
  (download_id ∉ map Db.row_id (rows w) → rows w' = rows w).
Proof.
  intros Hf w'. subst w'. unfold Database.delete_download.
  match goal with |- outcome (Database.call ?q) _ = _ ∧ _ =>
    destruct (call_answered q w Hf) as (-> & -> & _) end.
  simpl. split; [|split; [|split]].
  - f_equal. apply bool_decide_ext, sql_rowcount_pos.
  - rewrite sql_select_id_delete. by rewrite decide_True.
  - intros other Hne. rewrite sql_select_id_delete. by rewrite decide_False.
  - apply sql_delete_absent.
Qed.

(** X4 on the store with three records. *)
Lemma delete_download_effect_witness :
  let w := Manager.init 3 mixed_store [] in
  raises <$> head (db_faults w) ≠ Some true ∧
  outcome (Database.delete_download "q") w = Ok true ∧
  Db.sql_select_id "q" (rows (exec (Database.delete_download "q") w)) = None.
Proof.
  intros w.
  assert (Hf : raises <$> head (db_faults w) ≠ Some true) by (simpl; congruence).
  split; [exact Hf|].
  destruct (delete_download_effect w "q" Hf) as (Hout & Hgone & _).
  split; [exact Hout | exact Hgone].
Defined.

(** ** Listings *)

Lemma insert_desc_sorted (r : Db.Row) (l : list Db.Row) :
  newest_first l → newest_first (Db.insert_desc r l).
Proof.
  induction l as [|x l IH]; simpl.
  - intros _. split; [intros y Hy; by apply elem_of_nil in Hy | done].
  - intros [Hx Hl]. destruct (Z.ltb_spec (Db.row_created_at x) (Db.row_created_at r)).
    + simpl. split; [|by split].
      intros y [->|Hy]%elem_of_cons; [lia|]. specialize (Hx y Hy). lia.
    + simpl. split; [|by apply IH].
      intros y Hy. rewrite insert_desc_perm in Hy.
      apply elem_of_cons in Hy as [->|Hy]; [lia | by apply Hx].
Qed.

Lemma order_by_created_at_desc_sorted (l : list Db.Row) :
  newest_first (Db.order_by_created_at_desc l).
Proof.
  unfold Db.order_by_created_at_desc.
  induction l as [|r l IH]; simpl; [done | by apply insert_desc_sorted].
Qed.

Lemma newest_first_sublist (l1 l2 : list Db.Row) :
  l1 `sublist_of` l2 → newest_first l2 → newest_first l1.
Proof.
  induction 1 as [|x l1 l2 Hsub IH|x l1 l2 Hsub IH]; simpl; [done|..].
  - intros [Hx Hl]. split; [|by apply IH].
    intros y Hy. apply Hx. by eapply elem_of_sublist.
  - intros [_ Hl]. by apply IH.
Qed.

Lemma limit_offset_sublist_of (limit offset : Z) (l : list Db.Row) :
  Db.limit_offset limit offset l `sublist_of` l.
Proof.
  unfold Db.limit_offset. destruct (Z.ltb limit 0).
  - apply sublist_drop.
  - etrans; [apply sublist_take | apply sublist_drop].
Qed.

(** X5. An answered [get_downloads] returns rows of the table, newest
    first; with a status, only rows of that status; with a limit that is
    not negative, at most that many; and it leaves the table as it is. *)
Theorem get_downloads_listing (w : World) (status : option DownloadStatus)
    (limit offset : Z) :
  raises <$> head (db_faults w) ≠ Some true →
  ∃ l, outcome (Database.get_downloads status limit offset) w = Ok l ∧
       rows (exec (Database.get_downloads status limit offset) w) = rows w ∧
       newest_first l ∧
       (∀ r, r ∈ l → r ∈ rows w ∧ ∀ s, status = Some s → Db.row_status r = s) ∧
       (0 ≤ limit → Z.of_nat (length l) ≤ limit).
Proof.
  intros Hf. unfold Database.get_downloads.
  match goal with |- ∃ l, outcome (Database.call ?q) _ = _ ∧ _ =>
    destruct (call_answered q w Hf) as (-> & -> & _) end.
  simpl. eexists. split; [done|]. split; [done|]. split; [|split].
  - unfold Db.sql_select. eapply newest_first_sublist.
    + apply limit_offset_sublist_of.
    + apply order_by_created_at_desc_sorted.
  - intros r Hr. destruct status as [s|].
    + apply sql_select_status_elem in Hr as [? ?]. split; [done|]. by intros ? [= <-].
    + split; [|done]. unfold Db.sql_select in Hr.
      apply limit_offset_sublist in Hr. by rewrite order_by_created_at_desc_perm in Hr.
  - intros Hlimit. unfold Db.sql_select, Db.limit_offset.
    rewrite (proj2 (Z.ltb_ge limit 0) Hlimit). rewrite length_take. lia.
Qed.

(** X5 on the store with three records, two at a time. *)
Lemma get_downloads_listing_witness :
  let w := Manager.init 3 mixed_store [] in
  raises <$> head (db_faults w) ≠ Some true ∧
  ∃ l, outcome (Database.get_downloads None 2 0) w = Ok l ∧
       map Db.row_id l = ["d"; "q"] ∧ newest_first l.
Proof.
  intros w.
  assert (Hf : raises <$> head (db_faults w) ≠ Some true) by (simpl; congruence).
  split; [exact Hf|].
  destruct (get_downloads_listing w None 2 0 Hf) as (l & Hout & _ & Hsorted & _).
  exists l. split; [exact Hout|]. split; [|exact Hsorted].
  assert (Hl : Ok l = Ok (Db.sql_select None 2 0 mixed_store))
    by (rewrite <- Hout; reflexivity).
  injection Hl as ->. reflexivity.
Defined.

(** X6. Consecutive pages tile the listing: a page of [n] rows at an
    offset followed by the page of [m] rows right after it is the page of
    [n + m] rows at that offset. *)
Theorem pages_tile (table : list Db.Row) (status : option DownloadStatus) (n m offset : Z) :
  0 ≤ n → 0 ≤ m → 0 ≤ offset →
  Db.sql_select status n offset table ++ Db.sql_select status m (offset + n) table
  = Db.sql_select status (n + m) offset table.
Proof.
  intros Hn Hm Ho. unfold Db.sql_select, Db.limit_offset.
  rewrite (proj2 (Z.ltb_ge n 0) Hn), (proj2 (Z.ltb_ge m 0) Hm).
  rewrite (proj2 (Z.ltb_ge (n + m) 0)) by lia.
  rewrite !Z2Nat.inj_add by lia.
  rewrite <- drop_drop. apply take_take_drop.
Qed.

(** X6 on the store with three records: pages of one and two rows. *)
Lemma pages_tile_witness :
  0 ≤ 1 ∧ 0 ≤ 2 ∧ 0 ≤ 0 ∧
  map Db.row_id (Db.sql_select None 1 0 mixed_store
                 ++ Db.sql_select None 2 (0 + 1) mixed_store) = ["d"; "q"; "p"].
Proof.
  assert (H1 : 0 ≤ 1) by lia. assert (H2 : 0 ≤ 2) by lia. assert (H0 : 0 ≤ 0) by lia.
  split; [exact H1|]. split; [exact H2|]. split; [exact H0|].
  rewrite (pages_tile mixed_store None 1 2 0 H1 H2 H0). reflexivity.
Defined.

Lemma take_drop_nonempty {A} (n k : nat) (l : list A) :
  (0 < n)%nat → take n (drop k l) ≠ [] ↔ (k < length l)%nat.
Proof.
  intros Hn. split.
  - intros Hne. destruct (decide (k < length l)%nat) as [|Hge]; [done|].
    rewrite drop_ge in Hne by lia. by rewrite take_nil in Hne.
  - intros Hk Hnil. apply (f_equal length) in Hnil.
    rewrite length_take, length_drop in Hnil. simpl in Hnil. lia.
Qed.

(** The listing endpoint when the store answers its two queries. *)
Lemma list_downloads_answered (w : World) (status : option DownloadStatus)
    (page per_page : Z) :
  true ∉ take 2 (raises <$> db_faults w) →
  outcome (App.list_downloads status page per_page) w =
    let offset := (page - 1) * per_page in
    let total := Z.of_nat (total (Manager.count_all (Db.sql_select None 10000 0 (rows w)))) in
    Ok {| App.resp_downloads :=
            map Manager.task_of_listed_row (Db.sql_select status per_page offset (rows w));
          App.resp_total := total;
          App.resp_page := page;
          App.resp_per_page := per_page;
          App.resp_has_next := bool_decide (offset + per_page < total);
          App.resp_has_prev := bool_decide (1 < page) |}.
Proof.
  intros Hf.
  unfold outcome, App.list_downloads, Manager.get_downloads, Manager.get_system_status,
    try_except, mbind, M_bind, Database.get_downloads, Database.call.
  destruct (db_faults w) as [|[] [|[] fs]] eqn:Hfaults; simpl;
    rewrite ?Hfaults; simpl; try done;
    exfalso; apply Hf; simpl; set_solver.
Qed.

(** X7. When the store answers and holds at most 10000 records, the
    listing endpoint returns the page of the newest-first listing that
    starts at [(page - 1) * per_page], with [total] the number of all
    stored records whatever the status filter; [has_prev] says that the
    page is not the first; and for an unfiltered listing with a positive
    page size, [has_next] says exactly that the next page is not empty. *)
Theorem list_downloads_pages (w : World) (status : option DownloadStatus)
    (page per_page : Z) :
  true ∉ take 2 (raises <$> db_faults w) →
  Z.of_nat (length (rows w)) ≤ 10000 →
  1 ≤ page → 0 < per_page →
  ∃ resp, outcome (App.list_downloads status page per_page) w = Ok resp ∧
    App.resp_downloads resp =
      map Manager.task_of_listed_row
          (Db.sql_select status per_page ((page - 1) * per_page) (rows w)) ∧
    App.resp_total resp = Z.of_nat (length (rows w)) ∧
    (App.resp_has_prev resp = true ↔ 1 < page) ∧
    (App.resp_has_next resp = true ↔
       Db.sql_select None per_page (page * per_page) (rows w) ≠ []).
Proof.
  intros Hf Hlen Hpage Hper.
  rewrite (list_downloads_answered w status page per_page Hf). simpl.
  eexists. split; [done|]. simpl.
  assert (Htotal : total (Manager.count_all (Db.sql_select None 10000 0 (rows w)))
                   = length (rows w)).
  { unfold Manager.count_all. rewrite count_one_foldl. simpl.
    apply sql_select_all_length. lia. }
  rewrite Htotal. split; [done|]. split; [done|]. split.
  - apply bool_decide_eq_true.
  - rewrite bool_decide_eq_true. unfold Db.sql_select, Db.limit_offset.
    rewrite (proj2 (Z.ltb_ge per_page 0)) by lia.
    rewrite take_drop_nonempty by lia.
    rewrite order_by_created_at_desc_perm. nia.
Qed.

(** X7 on the store with three records, listed two per page. *)
Lemma list_downloads_pages_witness :
  let w := Manager.init 3 mixed_store [] in
  (true ∉ take 2 (raises <$> db_faults w)) ∧ Z.of_nat (length (rows w)) ≤ 10000 ∧ 1 ≤ 1 ∧ 0 < 2 ∧
  ∃ resp, outcome (App.list_downloads None 1 2) w = Ok resp ∧
          App.resp_total resp = 3 ∧
          (App.resp_has_next resp = true ↔
             Db.sql_select None 2 (1 * 2) (rows w) ≠ []).
Proof.
  intros w.
  assert (Hf : true ∉ take 2 (raises <$> db_faults w)) by (simpl; apply not_elem_of_nil).
  assert (Hlen : Z.of_nat (length (rows w)) ≤ 10000) by (simpl; lia).
  assert (H1 : 1 ≤ 1) by lia. assert (H2 : 0 < 2) by lia.
  split; [exact Hf|]. split; [exact Hlen|]. split; [exact H1|]. split; [exact H2|].
  destruct (list_downloads_pages w None 1 2 Hf Hlen H1 H2)
    as (resp & Hout & _ & Htotal & _ & Hnext).
  exists resp. split; [exact Hout|]. split; [exact Htotal | exact Hnext].
Defined.

(** ** The manager's interface *)





(** X10. [resume_download] on a stored id that is bound to no runner,
    on a store that answers, returns [True], stores the record as
    pending, publishes [PENDING], and enqueues the id without
    duplicating it: the pending list is unchanged when it holds the id
    already, and gets the id at its tail otherwise, so that no queued id
    is overtaken. *)
Theorem resume_requeues_at_tail (w : World) (download_id : string) (f : Fetch) :
  active_downloads w !! download_id = None →
  download_id ∈ map Db.row_id (rows w) →
  raises <$> head (db_faults w) ≠ Some true →
  let w' := step (OpResume download_id f) w in
  outcome (Manager.resume_download download_id f) w = Ok true ∧
  stored_status w' download_id = Some PENDING ∧
  download_queue w' =
    (if bool_decide (download_id ∈ download_queue w)
     then download_queue w else download_queue w ++ [download_id]) ∧
  status_log w' = status_log w ++ [(download_id, PENDING)] ∧
  active_downloads w' = active_downloads w.
Proof.
  intros Hreg Hin Hf w'. subst w'.
  assert (Hcount : bool_decide (0 < Db.sql_rowcount download_id (rows w))%nat = true).
  { apply bool_decide_eq_true. by rewrite sql_rowcount_pos. }
  assert (Hstored : ∃ s0, stored_status w download_id = Some s0).
  { unfold stored_status.
    destruct (Db.sql_select_id download_id (rows w)) as [r|] eqn:Hsel; [by eexists|].
    by apply sql_select_id_None in Hsel. }
  destruct Hstored as [s0 Hs0].
  split; [|split].
  - unfold outcome, Manager.resume_download, try_except, mbind, M_bind, gets, modify,
      Database.update_download, Database.call, publish_status.
    simpl. rewrite Hreg.
    destruct (db_faults w) as [|[] fs] eqn:Hfaults; simpl in *; try congruence;
      by rewrite Hcount.
  - destruct (unbound_control_rows w download_id f Hreg Hf) as (_ & Hr & _).
    by eapply stored_status_after_update.
  - unfold step, exec, Manager.resume_download, try_except, mbind, M_bind, gets, modify,
      Database.update_download, Database.call, publish_status.
    simpl. rewrite Hreg.
    destruct (db_faults w) as [|[] fs] eqn:Hfaults; simpl in *; try congruence;
      rewrite Hcount; simpl;
      by destruct (bool_decide (download_id ∈ download_queue w)).
Qed.

(** X10 on a paused record that is queued behind another one, and on
    one that is not queued. *)
Lemma resume_requeues_at_tail_witness :
  let w := step OpStart (Manager.init 3 mixed_store []) in
  active_downloads w !! "d" = None ∧ ("d" ∈ map Db.row_id (rows w)) ∧
  raises <$> head (db_faults w) ≠ Some true ∧
  download_queue w = ["p"; "q"] ∧
  download_queue (step (OpResume "d" (fetch_ok "f")) w) = ["p"; "q"; "d"].
Proof.
  intros w.
  assert (Hreg : active_downloads w !! "d" = None) by reflexivity.
  assert (Hin : "d" ∈ map Db.row_id (rows w)) by (simpl; set_solver).
  assert (Hf : raises <$> head (db_faults w) ≠ Some true) by (simpl; congruence).
  split; [exact Hreg|]. split; [exact Hin|]. split; [exact Hf|].
  split; [reflexivity|].
  exact (proj1 (proj2 (proj2 (resume_requeues_at_tail w "d" (fetch_ok "f") Hreg Hin Hf)))).
Defined.

(** X11. After a turn of the control loop every runner that is still
    registered has a task that is pending or downloading: the runners of
    paused, completed, failed and cancelled tasks have been removed. *)
Theorem tick_sweeps_inactive (w : World) (download_id : string) (h : nat) :
  _running w = true →
  active_downloads (step OpTick w) !! download_id = Some h →
  runner_at (fun r => status (task r) = PENDING ∨ status (task r) = DOWNLOADING)
            h (step OpTick w).
Proof.
  intros Hrun. rewrite (tick_unfold w Hrun).
  match goal with |- context [exec Manager.clean_up ?w0] =>
    destruct (clean_up_effect w0) as (_ & Hheap & _ & Hregistry); revert Hheap Hregistry;
    generalize w0 end.
  intros w0 Hheap Hregistry Hreg. unfold runner_at. rewrite Hheap.
  rewrite Hregistry in Hreg.
  apply map_lookup_filter_Some in Hreg as [_ Hact]. simpl in Hact.
  unfold Manager.runner_is_active in Hact.
  destruct (heap w0 !! h) as [c|] eqn:Hc; [|done].
  exists c. split; [done|]. unfold Runner.is_active in Hact.
  apply orb_true_iff in Hact as [Ha|Ha]; apply bool_decide_eq_true in Ha; auto.
Qed.

(** X11 on the engine with five queued tasks. *)
Lemma tick_sweeps_inactive_witness :
  _running five_queued = true ∧
  active_downloads (step OpTick five_queued) !! "a" = Some 0%nat ∧
  runner_at (fun r => status (task r) = PENDING ∨ status (task r) = DOWNLOADING)
            0 (step OpTick five_queued).
Proof.
  assert (Hrun : _running five_queued = true) by reflexivity.
  assert (Hreg : active_downloads (step OpTick five_queued) !! "a" = Some 0%nat)
    by (by vm_compute).
  split; [exact Hrun|]. split; [exact Hreg|].
  exact (tick_sweeps_inactive five_queued "a" 0 Hrun Hreg).
Defined.

(** ** Runner objects under the operations *)

Lemma keeps_same_heap P h w w' : heap w' = heap w → keeps P h w w'.
Proof. intros Hh [c [Hc HP]]. exists c. by rewrite Hh. Qed.

Global Instance keeps_preorder P h : PreOrder (keeps P h).
Proof.
  split.
  - by intros w Hw.
  - intros a b c Hab Hbc Ha. by apply Hbc, Hab.
Qed.

Global Instance keeps_faults P h : IgnoresFaults (keeps P h).
Proof. intros w x. by apply keeps_same_heap. Qed.
Global Instance keeps_rows P h : IgnoresRows (keeps P h).
Proof. intros w x. by apply keeps_same_heap. Qed.
Global Instance keeps_logs P h : IgnoresLogs (keeps P h).
Proof. intros w. split; intros x; by apply keeps_same_heap. Qed.

Lemma keeps_update_self (P : DownloadTaskManager -> Prop) h h' f :
  (∀ r, P r → P (f r)) → preserves (keeps P h) (Runner.update_self h' f).
Proof.
  intros Hf. apply preserves_modify; [apply _..|]. intros w [c [Hc HP]].
  destruct (heap w !! h') as [c'|] eqn:Hc'; [|by exists c].
  unfold runner_at. simpl.
  destruct (decide (h' = h)) as [->|Hne].
  - rewrite list_lookup_insert_eq by (by eapply lookup_lt_Some).
    eexists. split; [done|]. simpl. assert (c' = c) as -> by congruence. by apply Hf.
  - rewrite list_lookup_insert_ne by done. by exists c.
Qed.

Lemma keeps_set_coroutine (P : DownloadTaskManager -> Prop) h h' p :
  preserves (keeps P h) (Runner.set_coroutine h' p).
Proof.
  apply preserves_modify; [apply _..|]. intros w [c [Hc HP]].
  destruct (heap w !! h') as [c'|] eqn:Hc'; [|by exists c].
  unfold runner_at. simpl.
  destruct (decide (h' = h)) as [->|Hne].
  - rewrite list_lookup_insert_eq by (by eapply lookup_lt_Some).
    eexists. split; [done|]. simpl. by assert (c' = c) as -> by congruence.
  - rewrite list_lookup_insert_ne by done. by exists c.
Qed.

Lemma keeps_modify (P : DownloadTaskManager -> Prop) h (f : World -> World) :
  (∀ w, heap (f w) = heap w) → preserves (keeps P h) (modify f).
Proof. intros Hf. apply preserves_modify; [apply _..|]. intros w. by apply keeps_same_heap. Qed.

(** One step of a proof that the runner behind [h] keeps a property. *)
Ltac keeps_step :=
  first
    [ apply keeps_update_self; intros ?; solve [ unfold was_cancelled; simpl; tauto ]
    | apply keeps_set_coroutine
    | apply keeps_modify; intros ?; solve [reflexivity | by case_bool_decide]
    | apply notify_if_frame; solve [typeclasses eauto]
    | frame_step ].

(** A runner that was cancelled stays so under the cancellation of any
    runner. *)
Lemma runner_cancel_keeps_cancelled h h' :
  preserves (keeps was_cancelled h) (Runner.cancel_download h').
Proof.
  unfold Runner.cancel_download, Runner._update_status. repeat keeps_step.
Qed.

Lemma manager_cancel_keeps_cancelled h download_id :
  preserves (keeps was_cancelled h) (Manager.cancel_download download_id).
Proof.
  unfold Manager.cancel_download.
  repeat first [apply runner_cancel_keeps_cancelled | keeps_step].
Qed.

Lemma exec_modify_bind {A} (f : World -> World) (k : unit -> M A) (w : World) :
  exec (modify f ≫= k) w = exec (k tt) (f w).
Proof. reflexivity. Qed.

(** What follows a computation relates the state it leaves to the final
    state. *)
Lemma exec_bind_after (R : relation World) `{!PreOrder R} {A B}
    (m : M A) (f : A -> M B) (w : World) :
  (∀ a, preserves R (f a)) → R (exec m w) (exec (m ≫= f) w).
Proof.
  intros Hf. rewrite exec_bind. unfold exec at 1.
  destruct (m w) as [[a|e] w']; simpl; [apply Hf | reflexivity].
Qed.

Lemma update_self_establishes (Q P : DownloadTaskManager -> Prop) h f w :
  (∀ r, Q r → P (f r)) →
  runner_at Q h w → runner_at P h (exec (Runner.update_self h f) w).
Proof.
  intros Hf [c [Hc HQ]]. unfold runner_at, exec, Runner.update_self, modify. simpl.
  rewrite Hc. simpl.
  rewrite list_lookup_insert_eq by (by eapply lookup_lt_Some).
  eexists. split; [done|]. simpl. by apply Hf.
Qed.

(** [_update_status] sets the status of the runner and keeps what does
    not depend on the status. *)
Lemma update_status_establishes (Q P : DownloadTaskManager -> Prop) h s w :
  (∀ r, Q r → P (Runner.set_task (task_set_status s (task r)) r)) →
  runner_at Q h w → runner_at P h (exec (Runner._update_status h s) w).
Proof.
  intros Hf Hw. unfold Runner._update_status, Runner.update_self.
  rewrite exec_modify_bind.
  match goal with |- runner_at _ _ (exec ?k ?w1) =>
    assert (Hk : preserves (keeps P h) k) by (repeat keeps_step);
    apply (Hk w1) end.
  by apply (update_self_establishes Q P h _ w Hf).
Qed.

(** The cancellation of a runner marks it, whatever the store does. *)
Lemma runner_cancel_marks h w :
  runner_at (fun _ => True) h w →
  runner_at was_cancelled h (exec (Runner.cancel_download h) w).
Proof.
  intros Hw. unfold Runner.cancel_download, Runner.update_self at 1.
  rewrite exec_try_modify.
  eapply (exec_bind_after (keeps was_cancelled h)).
  - intros a. repeat keeps_step.
  - apply (update_status_establishes (fun r => _cancelled r = true)); [by intros r Hr|].
    by apply (update_self_establishes (fun _ => True)
                (fun r => _cancelled r = true) h (Runner.set_cancelled true) w).
Qed.

(** ** Shutdown *)

Lemma manager_cancel_returns download_id w :
  ∃ b, outcome (Manager.cancel_download download_id) w = Ok b.
Proof. apply try_except_outcome. intros e w'. by exists false. Qed.

Lemma exec_bind_returns {A B} (m : M A) (f : A -> M B) (w : World) (a : A) :
  outcome m w = Ok a → exec (m ≫= f) w = exec (f a) (exec m w).
Proof.
  intros Ha. rewrite exec_bind. unfold outcome, exec in *.
  destruct (m w) as [r w']. simpl in *. by subst r.
Qed.

(** [cancel_download] removes the binding of the id from the registry
    and no other. *)
Lemma cancel_download_registry download_id w :
  active_downloads (exec (Manager.cancel_download download_id) w)
  = delete download_id (active_downloads w).
Proof.
  unfold Manager.cancel_download. rewrite exec_try_modify.
  match goal with |- active_downloads (exec _ ?w1) = _ =>
    assert (Hw1 : active_downloads w1 = active_downloads w)
      by (by destruct (bool_decide _));
    rewrite <- Hw1; generalize w1 end.
  clear. intros w. rewrite exec_bind. simpl.
  destruct (active_downloads w !! download_id) as [h|] eqn:Hreg.
  - destruct (runner_cancel_returns h w) as [b Hb].
    rewrite (exec_bind_returns _ _ _ _ Hb), exec_modify_bind.
    match goal with |- active_downloads (exec ?k ?w2) = _ =>
      assert (Hk : preserves (same active_downloads) k)
        by (repeat first [apply notify_if_frame | frame_step]);
      rewrite (Hk w2) end.
    simpl. f_equal. apply (frame_runner_cancel (same active_downloads)).
  - rewrite delete_id by done.
    match goal with |- active_downloads (exec ?k ?w2) = _ =>
      assert (Hk : preserves (same active_downloads) k)
        by (repeat first [apply notify_if_frame | frame_step]);
      apply (Hk w2) end.
Qed.

(** [cancel_download] on a bound id marks the runner as cancelled. *)
Lemma manager_cancel_marks download_id h w :
  active_downloads w !! download_id = Some h →
  runner_at (fun _ => True) h w →
  runner_at was_cancelled h (exec (Manager.cancel_download download_id) w).
Proof.
  intros Hreg Hh. unfold Manager.cancel_download. rewrite exec_try_modify.
  match goal with |- runner_at _ _ (exec _ ?w1) =>
    assert (Hreg1 : active_downloads w1 !! download_id = Some h)
      by (by destruct (bool_decide _));
    assert (Hh1 : runner_at (fun _ => True) h w1)
      by (by destruct (bool_decide _));
    revert Hreg1 Hh1; generalize w1 end.
  clear. intros w Hreg Hh. rewrite exec_bind. simpl. rewrite Hreg.
  eapply (exec_bind_after (keeps was_cancelled h)).
  - intros a. repeat keeps_step.
  - by apply runner_cancel_marks.
Qed.

Lemma cancel_each_keeps_cancelled h keys :
  preserves (keeps was_cancelled h) (Manager.cancel_each keys).
Proof.
  induction keys as [|k keys IH]; simpl.
  - by apply preserves_ret; apply _.
  - apply preserves_bind; [apply _ | apply manager_cancel_keeps_cancelled | by intros _].
Qed.

Lemma manager_cancel_keeps_object h download_id :
  preserves (keeps (fun _ => True) h) (Manager.cancel_download download_id).
Proof.
  unfold Manager.cancel_download, Runner.cancel_download, Runner._update_status.
  repeat first [ apply keeps_update_self; by intros ?? | keeps_step ].
Qed.

Lemma cancel_each_step k keys w :
  exec (Manager.cancel_each (k :: keys)) w
  = exec (Manager.cancel_each keys) (exec (Manager.cancel_download k) w).
Proof.
  simpl. destruct (manager_cancel_returns k w) as [b Hb].
  by rewrite (exec_bind_returns _ _ _ _ Hb).
Qed.

(** The cancellations of [stop]: every key of the list is unbound, no
    binding is added, and the runner of every key that was bound is
    marked as cancelled. *)
Lemma cancel_each_effect keys w :
  let w' := exec (Manager.cancel_each keys) w in
  active_downloads w' ⊆ active_downloads w ∧
  (∀ k, k ∈ keys → active_downloads w' !! k = None) ∧
  (∀ k h, k ∈ keys → active_downloads w !! k = Some h →
          runner_at (fun _ => True) h w → runner_at was_cancelled h w').
Proof.
  revert w. induction keys as [|k0 keys IH]; intros w w'; subst w'.
  - split; [done|]. split; intros k; [|intros h]; intros Hk; by apply elem_of_nil in Hk.
  - rewrite cancel_each_step.
    set (w1 := exec (Manager.cancel_download k0) w).
    assert (Hreg1 : active_downloads w1 = delete k0 (active_downloads w))
      by apply cancel_download_registry.
    destruct (IH w1) as (Hsub & Hnone & Hmark).
    split; [|split].
    + etrans; [exact Hsub|]. rewrite Hreg1. apply delete_subseteq.
    + intros k [->|Hk]%elem_of_cons; [|by apply Hnone].
      eapply lookup_weaken_None; [|exact Hsub]. rewrite Hreg1. apply lookup_delete_eq.
    + intros k h Hk Hreg Hh.
      destruct (decide (k = k0)) as [->|Hne].
      * apply (cancel_each_keeps_cancelled h keys w1).
        by apply manager_cancel_marks.
      * apply elem_of_cons in Hk as [?|Hk]; [done|].
        apply (Hmark k); [done | |].
        -- rewrite Hreg1. by rewrite lookup_delete_ne.
        -- by apply (manager_cancel_keeps_object h k0 w).
Qed.

Local Instance same_running_faults : IgnoresFaults (same _running).
Proof. by intros ??. Qed.
Local Instance same_running_rows : IgnoresRows (same _running).
Proof. by intros ??. Qed.
Local Instance same_running_heap : IgnoresHeap (same _running).
Proof. by intros ??. Qed.
Local Instance same_running_logs : IgnoresLogs (same _running).
Proof. by intros ?; split; intros ?. Qed.

Lemma cancel_each_same_running keys :
  preserves (same _running) (Manager.cancel_each keys).
Proof.
  induction keys as [|k keys IH]; simpl.
  - by apply preserves_ret; apply _.
  - apply preserves_bind; [apply _ | | by intros _].
    unfold Manager.cancel_download.
    repeat first [ apply frame_runner_cancel; apply _
                 | apply notify_if_frame; apply _
                 | apply preserves_modify; [apply _ .. | intros ?; by case_bool_decide]
                 | apply preserves_modify; [apply _ .. | by intros ?]
                 | frame_step ].
Qed.

(** X12. [stop] of a running manager, whatever the order in which the
    keys of the registry are taken and whatever the store does, leaves
    the manager not running and the registry empty, and has cancelled
    every runner that was registered: its flag is set and its task is
    [CANCELLED]. On a manager that is not running it does nothing. *)
Theorem stop_cancels_every_runner (w : World) (keys : list string) :
  (∀ k, is_Some (active_downloads w !! k) → k ∈ keys) →
  let w' := exec (Manager.stop_in_order keys) w in
  (_running w = true →
     _running w' = false ∧
     active_downloads w' = ∅ ∧
     (∀ k h, active_downloads w !! k = Some h →
             runner_at (fun _ => True) h w → runner_at was_cancelled h w')) ∧
  (_running w = false → w' = w).
Proof.
  intros Hkeys w'. subst w'. unfold Manager.stop_in_order.
  rewrite exec_bind. simpl. split; intros Hrun; rewrite Hrun; [|done].
  rewrite exec_modify_bind.
  destruct (cancel_each_effect keys (set_running false w)) as (Hsub & Hnone & Hmark).
  split; [|split].
  - pose proof (cancel_each_same_running keys) as Hk.
    by rewrite (Hk (set_running false w)).
  - apply map_empty. intros k.
    destruct (active_downloads w !! k) as [h|] eqn:Hreg.
    + apply Hnone, Hkeys. by rewrite Hreg.
    + eapply lookup_weaken_None; [|exact Hsub]. done.
  - intros k h Hreg Hh. apply (Hmark k); [|done|done].
    apply Hkeys. by rewrite Hreg.
Qed.

(** X12 on the engine with two running downloads, stopped with a store
    that fails on every write. *)
Lemma stop_cancels_every_runner_witness :
  let w := set_db_faults [ExecuteRaises; ExecuteRaises]
             (run [OpTick; OpTick; OpRunnerBegin 0; OpRunnerBegin 1] five_queued) in
  (∀ k, is_Some (active_downloads w !! k) → k ∈ ["b"; "a"]) ∧
  _running w = true ∧
  active_downloads w !! "a" = Some 0%nat ∧
  runner_at (fun _ => True) 0 w ∧
  active_downloads (exec (Manager.stop_in_order ["b"; "a"]) w) = ∅ ∧
  runner_at was_cancelled 0 (exec (Manager.stop_in_order ["b"; "a"]) w).
Proof.
  intros w.
  assert (Hkeys : ∀ k, is_Some (active_downloads w !! k) → k ∈ ["b"; "a"]).
  { intros k Hk. apply elem_of_dom in Hk.
    replace (dom (active_downloads w)) with ({["a"; "b"]} : gset string) in Hk
      by (by vm_compute).
    clear w. apply elem_of_union in Hk as [Hk|Hk]; apply elem_of_singleton in Hk;
      subst k; in_list. }
  assert (Hrun : _running w = true) by reflexivity.
  assert (Hreg : active_downloads w !! "a" = Some 0%nat) by (by vm_compute).
  assert (Hobj : runner_at (fun _ => True) 0 w) by (eexists; split; [by vm_compute | done]).
  split; [exact Hkeys|]. split; [exact Hrun|]. split; [exact Hreg|]. split; [exact Hobj|].
  destruct (proj1 (stop_cancels_every_runner w ["b"; "a"] Hkeys) Hrun) as (_ & Hempty & Hmark).
  split; [exact Hempty | exact (Hmark "a" 0%nat Hreg Hobj)].
Defined.

(** ** The pending list of a started engine *)

Global Instance dequeues_preorder : PreOrder dequeues.
Proof.
  split.
  - intros w. by repeat split.
  - intros a b c (Hr1 & Hi1 & Hq1) (Hr2 & Hi2 & Hq2).
    repeat split; [congruence | congruence | by etrans].
Qed.

Global Instance dequeues_faults : IgnoresFaults dequeues.
Proof. intros w x. by repeat split. Qed.
Global Instance dequeues_heap : IgnoresHeap dequeues.
Proof. intros w x. by repeat split. Qed.
Global Instance dequeues_logs : IgnoresLogs dequeues.
Proof. intros w. split; intros x; by repeat split. Qed.

Lemma dequeues_queue_ok w w' : dequeues w w' → queue_ok w → queue_ok w'.
Proof.
  intros (_ & Hids & Hsub) [Hnodup Hstored]. split.
  - by eapply sublist_NoDup.
  - intros i Hi. rewrite Hids. apply Hstored. by eapply sublist_subseteq.
Qed.

Lemma dequeues_update i u : preserves dequeues (Database.update_download i u).
Proof.
  apply preserves_call; [apply _..|].
  intros w. split; [done|]. split; [simpl; apply sql_update_ids | done].
Qed.

Lemma dequeues_query {A} (f : list Db.Row -> A) :
  preserves dequeues (Database.call (fun table => (Ok (f table), table))).
Proof. apply preserves_call; [apply _..|]. intros w. by repeat split. Qed.

Lemma list_remove_sublist (x : string) (l : list string) :
  Manager.list_remove x l `sublist_of` l.
Proof.
  induction l as [|y l IH]; simpl; [done|].
  destruct (decide (y = x)); [by apply sublist_cons | by apply sublist_skip].
Qed.

Ltac dequeues_step :=
  first
    [ apply frame_update_status; solve [typeclasses eauto]
    | apply frame_execute_download; solve [typeclasses eauto]
    | apply notify_if_frame; solve [typeclasses eauto]
    | apply dequeues_update
    | apply dequeues_query
    | apply preserves_modify;
        [ solve [typeclasses eauto] ..
        | intros ?; repeat split; simpl;
            solve [ reflexivity | by case_bool_decide
                  | case_bool_decide; [apply list_remove_sublist | reflexivity] ] ]
    | frame_step ].

Lemma pause_download_dequeues download_id :
  preserves dequeues (Manager.pause_download download_id).
Proof.
  unfold Manager.pause_download, Runner.pause_download. repeat dequeues_step.
Qed.

Lemma cancel_download_dequeues download_id :
  preserves dequeues (Manager.cancel_download download_id).
Proof.
  unfold Manager.cancel_download, Runner.cancel_download. repeat dequeues_step.
Qed.

Lemma runner_resume_dequeues h f : preserves dequeues (Runner.resume_download h f).
Proof. unfold Runner.resume_download. repeat dequeues_step. Qed.

Lemma runner_begin_dequeues h : preserves dequeues (runner_begin h).
Proof.
  unfold runner_begin, Runner.start_download_prologue, Runner.start_download_except.
  repeat dequeues_step.
Qed.

Lemma runner_finish_dequeues h f : preserves dequeues (runner_finish h f).
Proof.
  unfold runner_finish, Runner.start_download_epilogue, Runner.start_download_except.
  repeat dequeues_step.
Qed.

Lemma start_download_dequeues download_id :
  preserves dequeues (Manager._start_download download_id).
Proof. unfold Manager._start_download. repeat dequeues_step. Qed.

Lemma tick_dequeues (w : World) : dequeues w (step OpTick w).
Proof.
  destruct (_running w) eqn:Hrun; [|by simpl; rewrite Hrun].
  rewrite (tick_unfold w Hrun).
  etrans; [|by apply (preserves_modify dequeues)].
  case_bool_decide; [|reflexivity].
  destruct (download_queue w) as [|i rest] eqn:Hq; [reflexivity|].
  etrans; [|apply start_download_dequeues].
  repeat split; simpl. rewrite Hq. by apply sublist_cons.
Qed.

(** [add_download] either enqueues nothing and loses no stored id, or
    stores and enqueues an id that was not stored. *)
Lemma add_download_queue (w : World) (new_id request_url : string)
    (quality : option string) (now : Z) :
  let w' := exec (Manager.add_download new_id request_url quality now) w in
  _running w' = _running w ∧
  ((download_queue w' = download_queue w ∧
    (∀ i, i ∈ map Db.row_id (rows w) → i ∈ map Db.row_id (rows w'))) ∨
   ((new_id ∉ map Db.row_id (rows w)) ∧
    map Db.row_id (rows w') = map Db.row_id (rows w) ++ [new_id] ∧
    download_queue w' = download_queue w ++ [new_id])).
Proof.
  intros w'. subst w'.
  unfold exec, Manager.add_download, try_except, mbind, M_bind,
    modify, raise, mret, M_ret, Database.insert_download, Database.call, publish_status.
  destruct quality as [q|]; simpl; [split; [done|]; by left|].
  destruct (db_faults w) as [|[] fs] eqn:Hfaults; simpl;
    try (split; [done|]; by left);
    (destruct (Db.sql_select_id new_id (rows w)) eqn:Hsel; simpl;
     [split; [done|]; by left|]);
    apply sql_select_id_None in Hsel;
    (split; [done|]);
    first [ right; (split; [done|]); by rewrite map_app
          | left; split; [done|]; intros i Hi; rewrite map_app, elem_of_app; by left ].
Qed.

(** [resume_download] enqueues at most the resumed id, and only when it
    is stored and not queued. *)
Lemma resume_download_queue (w : World) (download_id : string) (f : Fetch) :
  let w' := exec (Manager.resume_download download_id f) w in
  _running w' = _running w ∧
  map Db.row_id (rows w') = map Db.row_id (rows w) ∧
  (download_queue w' = download_queue w ∨
   (download_id ∈ map Db.row_id (rows w) ∧ (download_id ∉ download_queue w) ∧
    download_queue w' = download_queue w ++ [download_id])).
Proof.
  intros w'. subst w'.
  destruct (active_downloads w !! download_id) as [h|] eqn:Hreg.
  - assert (Hd : dequeues w (exec (Manager.resume_download download_id f) w)).
    { unfold Manager.resume_download. rewrite exec_try_ret, exec_bind. simpl.
      rewrite Hreg.
      match goal with |- dequeues w (exec ?m w) =>
        assert (Hm : preserves dequeues m);
        [ repeat first [apply runner_resume_dequeues | dequeues_step] | apply Hm ]
      end. }
    assert (Hq : same download_queue w (exec (Manager.resume_download download_id f) w)).
    { unfold Manager.resume_download. rewrite exec_try_ret, exec_bind. simpl.
      rewrite Hreg.
      match goal with |- same _ w (exec ?m w) =>
        assert (Hm : preserves (same download_queue) m);
        [ repeat first [apply frame_runner_resume | apply notify_if_frame | frame_step]
        | apply Hm ]
      end. }
    destruct Hd as (Hrun & Hids & _). split; [done|]. split; [done|]. by left.
  - unfold exec, Manager.resume_download, try_except, mbind, M_bind, gets, modify,
      Database.update_download, Database.call, publish_status.
    simpl. rewrite Hreg.
    destruct (db_faults w) as [|[] fs] eqn:Hfaults; simpl;
      try (by (split; [done|]); (split; [done|]); left);
      try (by (split; [done|]); (split; [apply sql_update_ids|]); left);
      (case_bool_decide as Hcount; simpl;
       [ apply sql_rowcount_pos in Hcount;
         destruct (bool_decide (download_id ∈ download_queue w)) eqn:Hin; simpl;
         [ (split; [done|]); (split; [apply sql_update_ids|]); by left
         | apply bool_decide_eq_false in Hin;
           (split; [done|]); (split; [apply sql_update_ids|]); by right ]
       | (split; [done|]); (split; [apply sql_update_ids|]); by left ]).
Qed.

Lemma NoDup_map_inj {A B} (f : A -> B) (l : list A) (x y : A) :
  NoDup (map f l) → x ∈ l → y ∈ l → f x = f y → x = y.
Proof.
  induction l as [|a l IH]; simpl; intros Hnd Hx Hy Hxy; [by apply elem_of_nil in Hx|].
  apply NoDup_cons in Hnd as [Ha Hnd].
  apply elem_of_cons in Hx as [->|Hx]; apply elem_of_cons in Hy as [->|Hy].
  - done.
  - destruct Ha. rewrite Hxy. change (f y ∈ f <$> l). by apply list_elem_of_fmap_2.
  - destruct Ha. rewrite <- Hxy. change (f x ∈ f <$> l). by apply list_elem_of_fmap_2.
  - by apply IH.
Qed.

Lemma sql_select_ids_NoDup status limit offset (table : list Db.Row) :
  NoDup (map Db.row_id table) →
  NoDup (map Db.row_id (Db.sql_select status limit offset table)).
Proof.
  intros Hnd. unfold Db.sql_select.
  change (NoDup (Db.row_id <$> table)) in Hnd.
  match goal with |- NoDup (map _ (Db.limit_offset _ _ (Db.order_by_created_at_desc ?m))) =>
    assert (Hm : NoDup (Db.row_id <$> m)) end.
  { destruct status; [|done].
    eapply sublist_NoDup; [exact Hnd | apply fmap_sublist, sublist_filter]. }
  match goal with |- NoDup (map ?g ?l) => change (NoDup (g <$> l)) end.
  eapply sublist_NoDup; [|apply fmap_sublist, limit_offset_sublist_of].
  by rewrite order_by_created_at_desc_perm.
Qed.

Lemma sql_select_ids_stored status limit offset (table : list Db.Row) i :
  i ∈ map Db.row_id (Db.sql_select status limit offset table) →
  i ∈ map Db.row_id table.
Proof.
  change (i ∈ Db.row_id <$> Db.sql_select status limit offset table →
          i ∈ Db.row_id <$> table).
  intros (r & -> & Hr)%list_elem_of_fmap. apply list_elem_of_fmap_2.
  unfold Db.sql_select in Hr. apply limit_offset_sublist in Hr.
  rewrite order_by_created_at_desc_perm in Hr.
  destruct status; [|done]. by apply list_elem_of_filter in Hr as [_ ?].
Qed.

(** The ids that the recovery enqueues are stored and distinct. *)
Lemma loaded_ids_NoDup (table : list Db.Row) :
  NoDup (map Db.row_id table) →
  NoDup (map Db.row_id (Db.sql_select (Some PENDING) Database.default_limit 0 table)
         ++ map Db.row_id (Db.sql_select (Some PAUSED) Database.default_limit 0 table)).
Proof.
  intros Hnd. apply NoDup_app. split; [by apply sql_select_ids_NoDup|].
  split; [|by apply sql_select_ids_NoDup].
  intros i H1 H2.
  change (i ∈ Db.row_id <$>
            Db.sql_select (Some PENDING) Database.default_limit 0 table) in H1.
  change (i ∈ Db.row_id <$>
            Db.sql_select (Some PAUSED) Database.default_limit 0 table) in H2.
  apply list_elem_of_fmap in H1 as (r1 & -> & Hr1).
  apply list_elem_of_fmap in H2 as (r2 & Heq & Hr2).
  apply sql_select_status_elem in Hr1 as [Hr1 Hs1].
  apply sql_select_status_elem in Hr2 as [Hr2 Hs2].
  assert (r1 = r2) by (by eapply NoDup_map_inj).
  subst r2. congruence.
Qed.

(** [start] on a stopped manager sets the flag and enqueues either
    nothing or the stored pending and paused ids. *)
Lemma start_queue (w : World) :
  _running w = false →
  let w' := step OpStart w in
  _running w' = true ∧ rows w' = rows w ∧
  (download_queue w' = download_queue w ∨
   download_queue w' =
     download_queue w
     ++ map Db.row_id (Db.sql_select (Some PENDING) Database.default_limit 0 (rows w))
     ++ map Db.row_id (Db.sql_select (Some PAUSED) Database.default_limit 0 (rows w))).
Proof.
  intros Hrun w'. subst w'.
  unfold step, exec, Manager.start, Manager._load_pending_downloads, try_except,
    mbind, M_bind, gets, modify, Database.get_downloads, Database.call.
  rewrite Hrun. simpl.
  destruct (db_faults w) as [|[] [|[] fs]] eqn:Hfaults; simpl;
    rewrite ?Hfaults; simpl;
    (split; [done|]); (split; [done|]);
    first [by left | right; by rewrite <- app_assoc].
Qed.

(** Every operation on a running manager keeps the pending list free of
    duplicates and of ids that are not stored. *)
Lemma step_queue_ok (o : Op) (w : World) :
  _running w = true → queue_ok w →
  _running (step o w) = true ∧ queue_ok (step o w).
Proof.
  intros Hrun Hok.
  assert (Hd : dequeues w (step o w) → _running (step o w) = true ∧ queue_ok (step o w)).
  { intros Hd. split; [|by eapply dequeues_queue_ok].
    destruct Hd as [Hr _]. by rewrite Hr. }
  destruct o; simpl.
  - destruct (add_download_queue w new_id request_url quality now)
      as [Hr [[Hq Hrows]|(Hnew & Hids & Hq)]];
      (split; [congruence|]); destruct Hok as [Hnd Hst]; split.
    + by rewrite Hq.
    + intros i. rewrite Hq. intros Hi. by apply Hrows, Hst.
    + rewrite Hq. apply NoDup_app. split; [done|]. split; [|apply NoDup_singleton].
      intros i Hi ->%list_elem_of_singleton. by apply Hnew, Hst.
    + intros i. rewrite Hq, Hids, !elem_of_app. intros [Hi|Hi]; [left; by apply Hst | by right].
  - apply Hd, pause_download_dequeues.
  - destruct (resume_download_queue w download_id f) as (Hr & Hids & [Hq|(Hin & Hnot & Hq)]);
      (split; [congruence|]); destruct Hok as [Hnd Hst]; split.
    + by rewrite Hq.
    + intros i. rewrite Hq, Hids. apply Hst.
    + rewrite Hq. apply NoDup_app. split; [done|]. split; [|apply NoDup_singleton].
      by intros i Hi ->%list_elem_of_singleton.
    + intros i. rewrite Hq, Hids, elem_of_app.
      intros [Hi|Hi]; [by apply Hst|]. apply list_elem_of_singleton in Hi. by subst i.
  - apply Hd, cancel_download_dequeues.
  - unfold exec, Manager.start, mbind, M_bind, gets. simpl. rewrite Hrun. simpl. done.
  - apply Hd, tick_dequeues.
  - apply Hd. simpl. destruct (decide _); [|reflexivity]. apply runner_begin_dequeues.
  - apply Hd. simpl. destruct (decide _); [|reflexivity]. apply runner_finish_dequeues.
Qed.

Lemma run_queue_ok (ops : list Op) (w : World) :
  _running w = true → queue_ok w →
  _running (run ops w) = true ∧ queue_ok (run ops w).
Proof.
  revert w. induction ops as [|o ops IH]; intros w Hrun Hok; [done|].
  simpl. destruct (step_queue_ok o w Hrun Hok) as [Hrun' Hok']. by apply IH.
Qed.

(** X13. In a manager that was started right after its creation, over a
    table whose ids are distinct, and until it is stopped, the pending
    list holds every id at most once and only ids of stored downloads,
    whatever operations follow (enqueue, pause, resume, cancel, turns of
    the control loop and steps of the runners, each run to its end before
    the next) and whatever the store does. A restart breaks this: [stop]
    leaves the pending list as it is, and the recovery of the next
    [start] appends the stored pending ids to it once more. *)
Theorem started_queue_has_no_duplicates (max : Z) (table : list Db.Row)
    (faults : list Fault) (ops : list Op) :
  (NoDup (map Db.row_id table) →
   let w := run ops (step OpStart (Manager.init max table faults)) in
   NoDup (download_queue w) ∧
   (∀ i, i ∈ download_queue w → i ∈ map Db.row_id (rows w))) ∧
  (let w := run [OpStart; OpAdd "a" "http://x/a" None 1] (Manager.init 3 [] []) in
   let stopped := exec Manager.stop w in
   download_queue w = ["a"] ∧
   _running stopped = false ∧
   download_queue stopped = ["a"] ∧
   download_queue (step OpStart stopped) = ["a"; "a"]).
Proof.
  split; [|by vm_compute].
  intros Hnd w.
  assert (Hw : _running w = true ∧ queue_ok w).
  { subst w. destruct (start_queue (Manager.init max table faults) eq_refl)
      as (Hrun & Hrows & Hq).
    revert Hrun Hrows Hq. generalize (step OpStart (Manager.init max table faults)).
    intros w0 Hrun Hrows Hq. simpl in Hrows, Hq.
    apply run_queue_ok; [done|]. split.
    - destruct Hq as [Hq|Hq]; rewrite Hq; [apply NoDup_nil_2 | by apply loaded_ids_NoDup].
    - intros i. rewrite Hrows.
      destruct Hq as [Hq|Hq]; rewrite Hq; [by intros ?%elem_of_nil|].
      rewrite elem_of_app. intros [Hi|Hi]; by eapply sql_select_ids_stored. }
  by destruct Hw as [_ [Hnodup Hstored]].
Qed.

(** X13 on a store with a pending, a paused and a downloading record:
    the recovery, a turn of the loop, a pause and two resumes of the
    started download, and a second start. *)
Lemma started_queue_has_no_duplicates_witness :
  let w := run [OpTick; OpPause "p"; OpResume "p" (fetch_ok "f"); OpCancel "p";
                OpResume "p" (fetch_ok "f"); OpResume "p" (fetch_ok "f"); OpStart]
               (step OpStart (Manager.init 3 mixed_store [])) in
  NoDup (map Db.row_id mixed_store) ∧
  download_queue w = ["q"; "p"] ∧
  NoDup (download_queue w).
Proof.
  intros w.
  assert (Hnd : NoDup (map Db.row_id mixed_store)).
  { apply (bool_decide_unpack _). by vm_compute. }
  split; [exact Hnd|]. split; [reflexivity|].
  exact (proj1 (proj1 (started_queue_has_no_duplicates 3 mixed_store []
              [OpTick; OpPause "p"; OpResume "p" (fetch_ok "f"); OpCancel "p";
               OpResume "p" (fetch_ok "f"); OpResume "p" (fetch_ok "f"); OpStart]) Hnd)).
Defined.

(** ** The end of a runner's fetch *)

Lemma hoare_ret {A} (P : World -> Prop) (a : A) (Q : Result A -> World -> Prop) :
  (∀ w, P w → Q (Ok a) w) → hoare P (mret a) Q.
Proof. intros HQ w HP. by apply HQ. Qed.

Lemma hoare_raise {A} (P : World -> Prop) (e : string) (Q : Result A -> World -> Prop) :
  (∀ w, P w → Q (Raise e) w) → hoare P (raise e) Q.
Proof. intros HQ w HP. by apply HQ. Qed.

Lemma hoare_bind {A B} (P : World -> Prop) (m : M A) (f : A -> M B)
    (Q1 : Result A -> World -> Prop) (Q : Result B -> World -> Prop) :
  hoare P m Q1 →
  (∀ a, hoare (Q1 (Ok a)) (f a) Q) →
  (∀ e w, Q1 (Raise e) w → Q (Raise e) w) →
  hoare P (m ≫= f) Q.
Proof.
  intros Hm Hf He w HP. specialize (Hm w HP).
  unfold hoare, outcome, exec, mbind, M_bind in *.
  destruct (m w) as [[a|e] w']; simpl in *; [by apply Hf | by apply He].
Qed.

(** The computation on the left returns [a]. *)
Lemma hoare_bind_ok {A B} (P P' : World -> Prop) (m : M A) (a : A) (f : A -> M B)
    (Q : Result B -> World -> Prop) :
  hoare P m (fun r w => r = Ok a ∧ P' w) →
  hoare P' (f a) Q →
  hoare P (m ≫= f) Q.
Proof.
  intros Hm Hf. eapply hoare_bind; [exact Hm | |].
  - intros a' w [[= ->] HP']. by apply Hf.
  - by intros e w [? _].
Qed.

Lemma hoare_try {A} (P : World -> Prop) (m : M A) (handler : string -> M A)
    (Q1 Q : Result A -> World -> Prop) :
  hoare P m Q1 →
  (∀ a w, Q1 (Ok a) w → Q (Ok a) w) →
  (∀ e, hoare (Q1 (Raise e)) (handler e) Q) →
  hoare P (try_except m handler) Q.
Proof.
  intros Hm Hok Hh w HP. specialize (Hm w HP).
  unfold hoare, outcome, exec, try_except in *.
  destruct (m w) as [[a|e] w']; simpl in *; [by apply Hok | by apply Hh].
Qed.

Lemma hoare_try_ok {A} (P : World -> Prop) (m : M A) (handler : string -> M A) (a : A)
    (P' : World -> Prop) (Q : Result A -> World -> Prop) :
  hoare P m (fun r w => r = Ok a ∧ P' w) →
  (∀ w, P' w → Q (Ok a) w) →
  hoare P (try_except m handler) Q.
Proof.
  intros Hm HQ. eapply hoare_try; [exact Hm | |].
  - intros a' w [[= ->] HP']. by apply HQ.
  - by intros e w [? _].
Qed.

Lemma hoare_post {A} (P : World -> Prop) (m : M A) (Q Q' : Result A -> World -> Prop) :
  hoare P m Q → (∀ r w, Q r w → Q' r w) → hoare P m Q'.
Proof. intros Hm HQ w HP. by apply HQ, Hm. Qed.

Section Sees.
Context (h : nat) (T : list Db.Row) (SL : list (string * DownloadStatus)).

Lemma hoare_update_self g (P P' : DownloadTaskManager -> Prop) F PL :
  (∀ r, P r → P' (g r)) →
  hoare (sees h P T F SL PL) (Runner.update_self h g)
        (fun r w => r = Ok tt ∧ sees h P' T F SL PL w).
Proof.
  intros Hg w ([c [Hc HP]] & HT & HF & HSL & HPL).
  unfold outcome, exec, Runner.update_self, modify. simpl. rewrite Hc. simpl.
  split; [done|]. split; [|done].
  eexists. split; [apply list_lookup_insert_eq; by eapply lookup_lt_Some|].
  simpl. by apply Hg.
Qed.

Lemma hoare_set_coroutine p (P : DownloadTaskManager -> Prop) F PL :
  hoare (sees h P T F SL PL) (Runner.set_coroutine h p)
        (fun r w => r = Ok tt ∧ sees h P T F SL PL w).
Proof.
  intros w ([c [Hc HP]] & HT & HF & HSL & HPL).
  unfold outcome, exec, Runner.set_coroutine, modify. simpl. rewrite Hc. simpl.
  split; [done|]. split; [|done].
  eexists. split; [apply list_lookup_insert_eq; by eapply lookup_lt_Some|]. done.
Qed.

(** The object read is one that [P] accepts. *)
Lemma hoare_self_bind {B} (P : DownloadTaskManager -> Prop) F PL
    (k : DownloadTaskManager -> M B) (Q : Result B -> World -> Prop) :
  (∀ r, P r → hoare (sees h P T F SL PL) (k r) Q) →
  hoare (sees h P T F SL PL) (Runner.self h ≫= k) Q.
Proof.
  intros Hk w Hw. pose proof Hw as ([c [Hc HP]] & _).
  specialize (Hk (runner c) HP w Hw).
  unfold hoare, outcome, exec, mbind, M_bind, Runner.self in *. by rewrite Hc.
Qed.

Lemma hoare_task_id (P : DownloadTaskManager -> Prop) F PL (i : string) :
  (∀ r, P r → id (task r) = i) →
  hoare (sees h P T F SL PL) (Runner.task_id h)
        (fun r w => r = Ok i ∧ sees h P T F SL PL w).
Proof.
  intros Hi. unfold Runner.task_id. apply hoare_self_bind. intros r Hr.
  apply hoare_ret. intros w Hw. by rewrite (Hi r Hr).
Qed.

Lemma hoare_publish_status (P : DownloadTaskManager -> Prop) F PL i s :
  hoare (sees h P T F SL PL) (publish_status i s)
        (fun r w => r = Ok tt ∧ sees h P T F (SL ++ [(i, s)]) PL w).
Proof.
  intros w (Hr & HT & HF & HSL & HPL). unfold outcome, exec, publish_status, modify.
  simpl. split; [done|]. split; [done|]. by rewrite HSL.
Qed.

End Sees.

Lemma hoare_update_status h T SL s (P P' : DownloadTaskManager -> Prop) F PL i :
  (∀ r, P r → id (task r) = i ∧ P' (Runner.set_task (task_set_status s (task r)) r)) →
  hoare (sees h P T F SL PL) (Runner._update_status h s)
        (fun r w => r = Ok tt ∧ sees h P' T F (SL ++ [(i, s)]) PL w).
Proof.
  intros HP. unfold Runner._update_status.
  eapply hoare_bind_ok.
  - apply (hoare_update_self h T SL _ P (fun r => id (task r) = i ∧ P' r)).
    intros r Hr. destruct (HP r Hr) as [Hi HP']. by split.
  - apply hoare_self_bind. intros r [Hi Hr]. rewrite Hi.
    eapply hoare_post; [apply hoare_publish_status|].
    intros res w [-> (Hat & Hrest)]. split; [done|]. split; [|done].
    destruct Hat as [c [Hc [_ Hc']]]. by exists c.
Qed.

(** The store answers the update. *)
Lemma hoare_update_answered h T SL (P : DownloadTaskManager -> Prop) F PL i u :
  raises <$> head F ≠ Some true →
  hoare (sees h P T F SL PL) (Database.update_download i u)
        (fun r w => r = Ok (bool_decide (0 < Db.sql_rowcount i T)%nat) ∧
                    sees h P (Db.sql_update i u T) (tail F) SL PL w).
Proof.
  intros Hf w (Hr & HT & HF & HSL & HPL).
  unfold outcome, exec, Database.update_download, Database.call. rewrite HF.
  destruct F as [|[] fs]; simpl in *; [| |congruence|congruence]; rewrite HT; done.
Qed.

(** The store fails on the update at [execute]. *)
Lemma hoare_update_failed h T SL (P : DownloadTaskManager -> Prop) fs PL i u :
  hoare (sees h P T (ExecuteRaises :: fs) SL PL) (Database.update_download i u)
        (fun r w => r = Raise "database error" ∧ sees h P T fs SL PL w).
Proof.
  intros w (Hr & HT & HF & HSL & HPL).
  unfold outcome, exec, Database.update_download, Database.call. rewrite HF. done.
Qed.

(** The store fails on the update at [commit]. *)
Lemma hoare_update_torn h T SL (P : DownloadTaskManager -> Prop) fs PL i u :
  hoare (sees h P T (CommitRaises :: fs) SL PL) (Database.update_download i u)
        (fun r w => r = Raise "database error" ∧
                    sees h P (Db.sql_update i u T) fs SL PL w).
Proof.
  intros w (Hr & HT & HF & HSL & HPL).
  unfold outcome, exec, Database.update_download, Database.call. rewrite HF.
  simpl. by rewrite HT.
Qed.

(** The hooks of a fetch write the runner's object and the progress log
    only. *)
Lemma hoare_run_hooks h T SL (P : DownloadTaskManager -> Prop) F ds :
  (∀ d r, P r → P (Runner._progress_hook d r).1) →
  ∀ PL, hoare (sees h P T F SL PL) (Runner.run_hooks h ds)
              (fun r w => r = Ok tt ∧ ∃ PL', sees h P T F SL PL' w).
Proof.
  intros Hstable. induction ds as [|d ds IH]; intros PL; simpl.
  - apply hoare_ret. intros w Hw. split; [done|]. by exists PL.
  - eapply hoare_bind with
      (Q1 := fun r w => r = Ok tt ∧ ∃ PL', sees h P T F SL PL' w).
    + unfold Runner.progress_hook. apply hoare_self_bind. intros r Hr.
      pose proof (Hstable d r Hr) as Hr'.
      destruct (Runner._progress_hook d r) as [r' p]. simpl in Hr'.
      eapply hoare_bind_ok.
      * apply (hoare_update_self h T SL _ P P). by intros _ _.
      * destruct p as [p|].
        -- intros w (Hat & HT & HF & HSL & HPL).
           unfold outcome, exec, publish_progress, modify. simpl.
           split; [done|]. eexists. by repeat split.
        -- apply hoare_ret. intros w Hw. split; [done|]. by exists PL.
    + intros [] w [_ [PL' Hw]]. by apply (IH PL').
    + by intros e w [? _].
Qed.

Lemma hoare_bind_raise {A B} (P P' : World -> Prop) (m : M A) (e : string) (f : A -> M B)
    (Q : Result B -> World -> Prop) :
  hoare P m (fun r w => r = Raise e ∧ P' w) →
  (∀ w, P' w → Q (Raise e) w) →
  hoare P (m ≫= f) Q.
Proof.
  intros Hm HQ. eapply hoare_bind; [exact Hm | |].
  - by intros a w [? _].
  - intros e' w [[= ->] HP']. by apply HQ.
Qed.

Lemma hoare_try_raise {A} (P P' : World -> Prop) (m : M A) (handler : string -> M A)
    (e : string) (Q : Result A -> World -> Prop) :
  hoare P m (fun r w => r = Raise e ∧ P' w) →
  hoare P' (handler e) Q →
  hoare P (try_except m handler) Q.
Proof.
  intros Hm Hh. eapply hoare_try; [exact Hm | |].
  - by intros a w [? _].
  - intros e' w [[= ->] HP']. by apply Hh.
Qed.

(** The computation on the left returns [a], in a state described up
    to a parameter. *)
Lemma hoare_bind_ok_ex {A B X} (P : World -> Prop) (P' : X -> World -> Prop)
    (m : M A) (a : A) (f : A -> M B) (Q : Result B -> World -> Prop) :
  hoare P m (fun r w => r = Ok a ∧ ∃ x, P' x w) →
  (∀ x, hoare (P' x) (f a) Q) →
  hoare P (m ≫= f) Q.
Proof.
  intros Hm Hf. eapply hoare_bind; [exact Hm | |].
  - intros a' w [[= ->] [x HP']]. by apply (Hf x).
  - by intros e w [? _].
Qed.

Lemma hoare_run_hooks_bind {B} h T SL (P : DownloadTaskManager -> Prop) F PL ds
    (k : unit -> M B) (Q : Result B -> World -> Prop) :
  (∀ d r, P r → P (Runner._progress_hook d r).1) →
  (∀ PL', hoare (sees h P T F SL PL') (k tt) Q) →
  hoare (sees h P T F SL PL) (Runner.run_hooks h ds ≫= k) Q.
Proof.
  intros Hstable Hk. eapply hoare_bind; [by apply hoare_run_hooks | |].
  - intros [] w [_ [PL' Hw]]. by apply (Hk PL').
  - by intros e w [? _].
Qed.

Ltac runner_is_solve :=
  unfold runner_is in *; simpl in *; intuition congruence.

(** A step of a proof that follows the program: the next statement
    returns, or the object is read. *)
Ltac hoare_step :=
  first
    [ apply hoare_self_bind; intros ? ?
    | eapply hoare_bind_ok; [apply hoare_ret; intros ? ?; split; [reflexivity | eassumption]|]
    | eapply hoare_bind_ok; [apply hoare_set_coroutine|]
    | eapply hoare_bind_ok;
        [ eapply hoare_task_id;
          let Hr := fresh in
          intros ? Hr;
          first [ exact (proj2 (proj2 (proj2 Hr)))
                | exact (proj2 (proj2 (proj2 (proj1 Hr)))) ]
        |] ].

(** A fetch on a runner that is cancelled or paused does not run the
    hooks; it returns [False] and leaves everything but the object's file
    size and error message as it was. *)
Lemma execute_download_idle h T SL F PL f c p s i :
  c = true ∨ p = true →
  hoare (sees h (runner_is c p s i) T F SL PL) (Runner._execute_download h f)
        (fun r w => r = Ok false ∧ sees h (runner_is c p s i) T F SL PL w).
Proof.
  intros Hidle. unfold Runner._execute_download.
  destruct (extract_error f) as [e|].
  - eapply hoare_try_raise.
    + eapply hoare_bind_raise; [apply hoare_raise; intros w Hw; split; [reflexivity | exact Hw]|].
      intros w Hw. split; [reflexivity | exact Hw].
    + eapply hoare_bind_ok with (P' := sees h (runner_is c p s i) T F SL PL);
        [apply hoare_update_self; intros r Hr; exact Hr|].
      apply hoare_ret. by intros w Hw.
  - eapply hoare_try_ok with (a := false); [|by intros w Hw].
    hoare_step.
    eapply hoare_bind_ok with (P' := sees h (runner_is c p s i) T F SL PL).
    { destruct (info f) as [n|].
      - apply hoare_update_self. intros r Hr. exact Hr.
      - apply hoare_ret. by intros w Hw. }
    apply hoare_self_bind. intros r (Hc & Hp & _).
    rewrite Hc, Hp.
    destruct Hidle as [-> | ->]; [|destruct c]; simpl; apply hoare_ret; by intros w Hw.
Qed.

Lemma runner_finish_cancelled h T SL F PL f p s i :
  hoare (sees h (runner_is true p s i) T F SL PL) (runner_finish h f)
        (fun r w => sees h (runner_is true p s i) T F SL PL w).
Proof.
  unfold runner_finish. hoare_step.
  eapply hoare_bind_ok with (a := false) (P' := sees h (runner_is true p s i) T F SL PL);
    [|apply hoare_ret; by intros w Hw].
  eapply hoare_try_ok; [|intros w Hw; split; [reflexivity | exact Hw]].
  unfold Runner.start_download_epilogue.
  eapply hoare_bind_ok; [apply execute_download_idle; by left|].
  apply hoare_self_bind. intros r (Hc & _). rewrite Hc. simpl.
  hoare_step. apply hoare_ret. by intros w Hw.
Qed.

(** X14. The end of the fetch of a runner whose cancel flag is set
    writes nothing: the runner keeps its flags and its status, the table
    and the faults to come are untouched (no call reaches the store) and
    nothing is published, whatever the fetch did. *)
Theorem cancelled_runner_ends_silently (w : World) (h : nat) (f : Fetch)
    (p : bool) (s : DownloadStatus) (i : string) :
  runner_at (runner_is true p s i) h w →
  let w' := step (OpRunnerFinish h f) w in
  runner_at (runner_is true p s i) h w' ∧
  rows w' = rows w ∧ db_faults w' = db_faults w ∧
  status_log w' = status_log w ∧ progress_log w' = progress_log w.
Proof.
  intros Hat w'. subst w'. simpl.
  destruct (decide _); [|done].
  by apply (runner_finish_cancelled h (rows w) (status_log w) (db_faults w)
              (progress_log w) f p s i w).
Qed.

(** X14 on a runner that was cancelled while its fetch was under way. *)
Lemma cancelled_runner_ends_silently_witness :
  let w := run [OpTick; OpRunnerBegin 0; OpCancel "a"] five_queued in
  runner_at (runner_is true false CANCELLED "a") 0 w ∧
  coroutine_of w 0 = Some Fetching ∧
  runner_at (runner_is true false CANCELLED "a") 0
    (step (OpRunnerFinish 0 (fetch_ok "f")) w) ∧
  rows (step (OpRunnerFinish 0 (fetch_ok "f")) w) = rows w.
Proof.
  intros w.
  assert (Hat : runner_at (runner_is true false CANCELLED "a") 0 w)
    by (eexists; split; [by vm_compute | by vm_compute]).
  split; [exact Hat|]. split; [by vm_compute|].
  destruct (cancelled_runner_ends_silently w 0 (fetch_ok "f") false CANCELLED "a" Hat)
    as (Hat' & Hrows & _).
  split; [exact Hat' | exact Hrows].
Defined.

(** The [except] handler of [start_download] marks the runner as failed,
    whatever the store does, and publishes no progress. *)
Lemma except_marks_failed h T SL F PL e p s i :
  hoare (sees h (runner_is false p s i) T F SL PL) (Runner.start_download_except h e)
        (fun r w => ∃ T' F' SL', sees h (runner_is false p FAILED i) T' F' SL' PL w).
Proof.
  unfold Runner.start_download_except.
  eapply hoare_bind_ok;
    [apply (hoare_update_status h T SL FAILED _ (runner_is false p FAILED i) F PL i);
     intros r Hr; runner_is_solve|].
  eapply hoare_bind_ok
    with (P' := sees h (runner_is false p FAILED i) T F (SL ++ [(i, FAILED)]) PL);
    [apply hoare_update_self; intros r Hr; exact Hr|].
  hoare_step.
  destruct F as [|[] fs].
  - eapply hoare_bind_ok; [by apply hoare_update_answered|].
    apply hoare_ret. intros w Hw. by do 3 eexists.
  - eapply hoare_bind_ok; [by apply hoare_update_answered|].
    apply hoare_ret. intros w Hw. by do 3 eexists.
  - eapply hoare_bind_raise; [apply hoare_update_failed|].
    intros w Hw. by do 3 eexists.
  - eapply hoare_bind_raise; [apply hoare_update_torn|].
    intros w Hw. by do 3 eexists.
Qed.

Lemma runner_finish_paused h T SL F PL f s i :
  hoare (sees h (runner_is false true s i) T F SL PL) (runner_finish h f)
        (fun r w => ∃ T' F' SL',
           sees h (runner_is false true FAILED i) T' F' SL' PL w ∧
           (raises <$> head F ≠ Some true →
              T' = Db.sql_update i
                     {| Db.upd_status := Some FAILED; Db.upd_progress := None;
                        Db.upd_error_message := Some "Download failed" |} T ∧
              SL' = SL ++ [(i, FAILED)])).
Proof.
  unfold runner_finish. hoare_step.
  match goal with |- hoare _ _ ?Q =>
    eapply hoare_bind with (Q1 := fun _ w => Q (Ok tt) w) end;
    [| intros a; apply hoare_ret; by intros w Hw | by intros e w Hw ].
  assert (Hanswered : raises <$> head F ≠ Some true →
    hoare (sees h (runner_is false true s i) T F SL PL)
      (Runner.start_download_epilogue h f)
      (fun r w => r = Ok false ∧
         sees h (runner_is false true FAILED i)
           (Db.sql_update i
              {| Db.upd_status := Some FAILED; Db.upd_progress := None;
                 Db.upd_error_message := Some "Download failed" |} T)
           (tail F) (SL ++ [(i, FAILED)]) PL w)).
  { intros Hf. unfold Runner.start_download_epilogue.
    eapply hoare_bind_ok; [apply execute_download_idle; by right|].
    apply hoare_self_bind. intros r (Hc & _). rewrite Hc. simpl.
    eapply hoare_bind_ok with (a := tt); [|apply hoare_ret; by intros w Hw].
    eapply hoare_bind_ok;
      [apply (hoare_update_status h T SL FAILED _ (runner_is false true FAILED i) F PL i);
       intros r' Hr'; runner_is_solve|].
    hoare_step.
    eapply hoare_bind_ok; [by apply hoare_update_answered|].
    apply hoare_ret. by intros w Hw. }
  assert (Hraised : ∀ fs T',
    hoare (sees h (runner_is false true s i) T F SL PL)
      (Runner.start_download_epilogue h f)
      (fun r w => r = Raise "database error" ∧
         sees h (runner_is false true FAILED i) T' fs (SL ++ [(i, FAILED)]) PL w) →
    raises <$> head F = Some true →
    hoare (sees h (runner_is false true s i) T F SL PL)
      (try_except (Runner.start_download_epilogue h f) (Runner.start_download_except h))
      (fun _ w => ∃ T' F' SL',
         sees h (runner_is false true FAILED i) T' F' SL' PL w ∧
         (raises <$> head F ≠ Some true →
            T' = Db.sql_update i
                   {| Db.upd_status := Some FAILED; Db.upd_progress := None;
                      Db.upd_error_message := Some "Download failed" |} T ∧
            SL' = SL ++ [(i, FAILED)]))).
  { intros fs T0 Hep Hf. eapply hoare_try_raise; [exact Hep|].
    eapply hoare_post; [apply except_marks_failed|].
    intros r w (T' & F' & SL' & Hw). exists T', F', SL'. split; [exact Hw|]. done. }
  destruct F as [|[] fs].
  - eapply hoare_try_ok; [by apply Hanswered|].
    intros w Hw. do 3 eexists. split; [exact Hw | done].
  - eapply hoare_try_ok; [by apply Hanswered|].
    intros w Hw. do 3 eexists. split; [exact Hw | done].
  - apply (Hraised fs T); [|done].
    unfold Runner.start_download_epilogue.
    eapply hoare_bind_ok; [apply execute_download_idle; by right|].
    apply hoare_self_bind. intros r (Hc & _). rewrite Hc. simpl.
    eapply hoare_bind_raise; [|intros w Hw; split; [reflexivity | exact Hw]].
    eapply hoare_bind_ok;
      [apply (hoare_update_status h T SL FAILED _ (runner_is false true FAILED i)
                (ExecuteRaises :: fs) PL i);
       intros r' Hr'; runner_is_solve|].
    hoare_step.
    eapply hoare_bind_raise; [apply hoare_update_failed|].
    intros w Hw. split; [reflexivity | exact Hw].
  - eapply (Hraised fs); [|done].
    unfold Runner.start_download_epilogue.
    eapply hoare_bind_ok; [apply execute_download_idle; by right|].
    apply hoare_self_bind. intros r (Hc & _). rewrite Hc. simpl.
    eapply hoare_bind_raise; [|intros w Hw; split; [reflexivity | exact Hw]].
    eapply hoare_bind_ok;
      [apply (hoare_update_status h T SL FAILED _ (runner_is false true FAILED i)
                (CommitRaises :: fs) PL i);
       intros r' Hr'; runner_is_solve|].
    hoare_step.
    eapply hoare_bind_raise; [apply hoare_update_torn|].
    intros w Hw. split; [reflexivity | exact Hw].
Qed.

(** X15. A runner that was paused while it waited for its fetch, and
    was not cancelled, ends as failed: the fetch is not run and publishes
    no progress, and the runner's task is set to [FAILED], whatever the
    store does. When the store answers, the record is stored as failed
    with the message [Download failed], and [FAILED] is published once. *)
Theorem paused_runner_ends_failed (w : World) (h : nat) (f : Fetch)
    (s : DownloadStatus) (i : string) :
  runner_at (runner_is false true s i) h w →
  coroutine_of w h = Some Fetching →
  let w' := step (OpRunnerFinish h f) w in
  runner_at (runner_is false true FAILED i) h w' ∧
  progress_log w' = progress_log w ∧
  (raises <$> head (db_faults w) ≠ Some true →
     rows w' = Db.sql_update i
                 {| Db.upd_status := Some FAILED; Db.upd_progress := None;
                    Db.upd_error_message := Some "Download failed" |} (rows w) ∧
     status_log w' = status_log w ++ [(i, FAILED)]).
Proof.
  intros Hat Hphase w'. subst w'. simpl. rewrite decide_True by done.
  destruct (runner_finish_paused h (rows w) (status_log w) (db_faults w)
              (progress_log w) f s i w) as (T' & F' & SL' & Hsees & Hans); [done|].
  destruct Hsees as (Hat' & HT & HF & HSL & HPL).
  split; [done|]. split; [done|].
  intros Hf. destruct (Hans Hf) as [-> ->]. done.
Qed.

(** X15 on a download that was paused after its runner had set it to
    downloading. *)
Lemma paused_runner_ends_failed_witness :
  let w := run [OpTick; OpRunnerBegin 0; OpPause "a"] five_queued in
  runner_at (runner_is false true PAUSED "a") 0 w ∧
  coroutine_of w 0 = Some Fetching ∧
  runner_at (runner_is false true FAILED "a") 0
    (step (OpRunnerFinish 0 (fetch_ok "f")) w).
Proof.
  intros w.
  assert (Hat : runner_at (runner_is false true PAUSED "a") 0 w)
    by (eexists; split; [by vm_compute | by vm_compute]).
  assert (Hphase : coroutine_of w 0 = Some Fetching) by (by vm_compute).
  split; [exact Hat|]. split; [exact Hphase|].
  exact (proj1 (paused_runner_ends_failed w 0 (fetch_ok "f") PAUSED "a" Hat Hphase)).
Defined.

(** A fetch that finds its file, on a runner that is neither cancelled
    nor paused, returns [True]; the hooks have written the object and the
    progress log only. *)
Lemma execute_download_found h T SL F PL f s i n path :
  extract_error f = None → info f = Some n → ending f = FileFound path →
  hoare (sees h (runner_is false false s i) T F SL PL) (Runner._execute_download h f)
        (fun r w => r = Ok true ∧
           ∃ PL', sees h (fun r => runner_is false false s i r ∧
                                   file_path (task r) = Some path) T F SL PL' w).
Proof.
  intros He Hi Hend. unfold Runner._execute_download. rewrite He, Hi, Hend.
  eapply hoare_try_ok
    with (a := true)
         (P' := fun w => ∃ PL', sees h (fun r => runner_is false false s i r ∧
                                               file_path (task r) = Some path)
                                  T F SL PL' w);
    [|intros w Hw; split; [reflexivity | exact Hw]].
  hoare_step.
  eapply hoare_bind_ok with (P' := sees h (runner_is false false s i) T F SL PL);
    [apply hoare_update_self; intros r Hr; exact Hr|].
  apply hoare_self_bind. intros r (Hc & Hp & _). rewrite Hc, Hp. simpl.
  apply hoare_run_hooks_bind.
  { intros d r' Hr'. destruct d; simpl; [destruct (Z.ltb _ _)|..]; exact Hr'. }
  intros PL'.
  eapply hoare_bind_ok
    with (P' := sees h (fun r => runner_is false false s i r ∧
                                 file_path (task r) = Some path) T F SL PL');
    [apply hoare_update_self; intros r' Hr'; split; [exact Hr' | reflexivity]|].
  apply hoare_ret. intros w Hw. split; [reflexivity|]. by exists PL'.
Qed.

Lemma epilogue_found h T SL F PL f s i n path :
  extract_error f = None → info f = Some n → ending f = FileFound path →
  raises <$> head F ≠ Some true →
  hoare (sees h (runner_is false false s i) T F SL PL)
        (Runner.start_download_epilogue h f)
        (fun r w => r = Ok true ∧ ∃ PL',
           sees h (fun r => runner_is false false COMPLETED i r ∧
                            progress (task r) = 100%Q ∧
                            file_path (task r) = Some path)
             (Db.sql_update i
                {| Db.upd_status := Some COMPLETED; Db.upd_progress := Some 100%Q;
                   Db.upd_error_message := None |} T)
             (tail F) (SL ++ [(i, COMPLETED)]) PL' w).
Proof.
  intros He Hi Hend Hf. unfold Runner.start_download_epilogue.
  eapply hoare_bind_ok_ex; [by eapply execute_download_found|]. intros PL'.
  apply hoare_self_bind. intros r ((Hc & _) & _). rewrite Hc. simpl.
  eapply hoare_bind_ok;
    [apply (hoare_update_status h T SL COMPLETED _
              (fun r => runner_is false false COMPLETED i r ∧
                        file_path (task r) = Some path) F PL' i);
     intros r' Hr'; runner_is_solve|].
  eapply hoare_bind_ok
    with (P' := sees h (fun r => runner_is false false COMPLETED i r ∧
                                 progress (task r) = 100%Q ∧
                                 file_path (task r) = Some path)
                  T F (SL ++ [(i, COMPLETED)]) PL');
    [apply hoare_update_self; intros r' Hr'; runner_is_solve|].
  hoare_step.
  eapply hoare_bind_ok; [by apply hoare_update_answered|].
  apply hoare_ret. intros w Hw. split; [reflexivity|]. by exists PL'.
Qed.

Lemma runner_finish_found h T SL F PL f s i n path :
  extract_error f = None → info f = Some n → ending f = FileFound path →
  raises <$> head F ≠ Some true →
  hoare (sees h (runner_is false false s i) T F SL PL) (runner_finish h f)
        (fun r w => ∃ PL',
           sees h (fun r => runner_is false false COMPLETED i r ∧
                            progress (task r) = 100%Q ∧
                            file_path (task r) = Some path)
             (Db.sql_update i
                {| Db.upd_status := Some COMPLETED; Db.upd_progress := Some 100%Q;
                   Db.upd_error_message := None |} T)
             (tail F) (SL ++ [(i, COMPLETED)]) PL' w).
Proof.
  intros He Hi Hend Hf. unfold runner_finish. hoare_step.
  match goal with |- hoare _ _ ?Q =>
    eapply hoare_bind_ok with (a := true) (P' := Q (Ok tt)) end;
    [| apply hoare_ret; by intros w Hw ].
  eapply hoare_try; [by eapply epilogue_found | | by intros e w [? _]].
  by intros a w Hw.
Qed.

(** X16. A fetch that finds its file, on a runner that is neither
    cancelled nor paused and with a store that answers, ends the download
    as completed: the runner's task is [COMPLETED] with progress 100 and
    the path of the file, the record is stored as completed with progress
    100, and [COMPLETED] is published once, after whatever the hooks of
    the fetch reported. *)
Theorem found_file_ends_completed (w : World) (h : nat) (f : Fetch)
    (s : DownloadStatus) (i : string) (n : option Z) (path : string) :
  runner_at (runner_is false false s i) h w →
  coroutine_of w h = Some Fetching →
  extract_error f = None → info f = Some n → ending f = FileFound path →
  raises <$> head (db_faults w) ≠ Some true →
  let w' := step (OpRunnerFinish h f) w in
  runner_at (fun r => runner_is false false COMPLETED i r ∧
                      progress (task r) = 100%Q ∧
                      file_path (task r) = Some path) h w' ∧
  rows w' = Db.sql_update i
              {| Db.upd_status := Some COMPLETED; Db.upd_progress := Some 100%Q;
                 Db.upd_error_message := None |} (rows w) ∧
  status_log w' = status_log w ++ [(i, COMPLETED)].
Proof.
  intros Hat Hphase He Hi Hend Hf w'. subst w'. simpl. rewrite decide_True by done.
  destruct (runner_finish_found h (rows w) (status_log w) (db_faults w)
              (progress_log w) f s i n path He Hi Hend Hf w)
    as (PL' & Hat' & HT & HF & HSL & HPL); [done|].
  done.
Qed.

(** X16 on the first of five queued downloads. *)
Lemma found_file_ends_completed_witness :
  let w := run [OpTick; OpRunnerBegin 0] five_queued in
  runner_at (runner_is false false DOWNLOADING "a") 0 w ∧
  coroutine_of w 0 = Some Fetching ∧
  raises <$> head (db_faults w) ≠ Some true ∧
  stored_status (step (OpRunnerFinish 0 (fetch_ok "f")) w) "a" = Some COMPLETED.
Proof.
  intros w.
  assert (Hat : runner_at (runner_is false false DOWNLOADING "a") 0 w)
    by (eexists; split; [by vm_compute | by vm_compute]).
  assert (Hphase : coroutine_of w 0 = Some Fetching) by (by vm_compute).
  assert (Hf : raises <$> head (db_faults w) ≠ Some true) by (by vm_compute).
  split; [exact Hat|]. split; [exact Hphase|]. split; [exact Hf|].
  destruct (found_file_ends_completed w 0 (fetch_ok "f") DOWNLOADING "a" None "f"
              Hat Hphase eq_refl eq_refl eq_refl Hf) as (_ & Hrows & _).
  unfold stored_status. rewrite Hrows. by vm_compute.
Defined.

(** ** The format selector *)

Lemma endswith_p_app (height : string) : Runner.endswith_p (height +:+ "p") = true.
Proof.
  induction height as [|c rest IH]; [done|].
  simpl. destruct (rest +:+ "p") eqn:Hrest; [by destruct rest | exact IH].
Qed.

Lemma all_but_last_app (height : string) : Runner.all_but_last (height +:+ "p") = height.
Proof.
  induction height as [|c rest IH]; [done|].
  simpl. destruct (rest +:+ "p") eqn:Hrest; [by destruct rest | by rewrite IH].
Qed.

(** X17. A quality written as a height followed by the letter p selects
    the best format up to that height, whatever the height is: the
    selector is the text best, an opening bracket, height, the sign for
    at most, the height, and a closing bracket. *)
Theorem format_selector_of_height (height : string) :
  Runner._get_format_selector (Some (height +:+ "p"))
  = "best[height<=" +:+ height +:+ "]".
Proof.
  unfold Runner._get_format_selector.
  pose proof (endswith_p_app height) as Hp.
  assert (Hne : ∀ q, Runner.endswith_p q = false → bool_decide (height +:+ "p" = q) = false).
  { intros q Hq. apply bool_decide_eq_false. intros Heq. rewrite Heq in Hp. congruence. }
  rewrite !Hne by reflexivity. simpl. by rewrite Hp, all_but_last_app.
Qed.

(** ** The set of connections *)

Lemma hub_list_remove_absent (x : Hub.WebSocket) (l : list Hub.WebSocket) :
  x ∉ l → Hub.list_remove x l = l.
Proof.
  induction l as [|y l IH]; simpl; [done|].
  rewrite not_elem_of_cons. intros [Hne Hx].
  rewrite decide_False by congruence. by rewrite IH.
Qed.

Lemma hub_list_remove_last (x : Hub.WebSocket) (l : list Hub.WebSocket) :
  x ∉ l → Hub.list_remove x (l ++ [x]) = l.
Proof.
  induction l as [|y l IH]; simpl; [by rewrite decide_True|].
  rewrite not_elem_of_cons. intros [Hne Hx].
  rewrite decide_False by congruence. by rewrite IH.
Qed.

Lemma hub_filter_absent (x : Hub.WebSocket) (l : list Hub.WebSocket) :
  x ∉ l → filter (fun c => c ≠ x) l = l.
Proof.
  induction l as [|y l IH]; [done|].
  rewrite not_elem_of_cons. intros [Hne Hx].
  rewrite filter_cons, decide_True by congruence. by rewrite IH.
Qed.

Lemma hub_list_remove_filter (x : Hub.WebSocket) (l : list Hub.WebSocket) :
  NoDup l → Hub.list_remove x l = filter (fun c => c ≠ x) l.
Proof.
  induction 1 as [|y l Hy Hl IH]; simpl; [done|].
  rewrite filter_cons. destruct (decide (y = x)) as [->|Hne].
  - rewrite decide_False by (intros Hn; by apply Hn). by rewrite hub_filter_absent.
  - rewrite decide_True by done. by rewrite IH.
Qed.

Section ConnectionSet.
Variables (send_ok accept_ok : Hub.WebSocket -> bool).

(** X18. On a set of connections without duplicates: a socket that is
    accepted joins the set at its end, the set still has no duplicates,
    and disconnecting it again restores the set; a personal message
    never raises and calls [send_text] once; when the send returns the
    set is unchanged, and when it raises the socket is dropped from the
    set and every other connection keeps its place. *)
Theorem connection_set_updates (cm : Hub.ConnectionManager) (websocket : Hub.WebSocket)
    (message : string) :
  NoDup (Hub.active_connections cm) →
  (accept_ok websocket = true → websocket ∉ Hub.active_connections cm →
     let cm' := (Hub.connect accept_ok websocket cm).2 in
     (Hub.connect accept_ok websocket cm).1 = Ok tt ∧
     Hub.active_connections cm' = Hub.active_connections cm ++ [websocket] ∧
     NoDup (Hub.active_connections cm') ∧
     Hub.disconnect websocket cm' = cm) ∧
  (let cm' := (Hub.send_personal_message send_ok message websocket cm).2 in
   (Hub.send_personal_message send_ok message websocket cm).1 = Ok tt ∧
   Hub.sends cm' = Hub.sends cm ++ [(websocket, message, send_ok websocket)] ∧
   Hub.active_connections cm' =
     (if send_ok websocket then Hub.active_connections cm
      else filter (fun c => c ≠ websocket) (Hub.active_connections cm)) ∧
   (send_ok websocket = false → websocket ∉ Hub.active_connections cm')).
Proof.
  intros Hnd. split.
  - intros Hacc Hnew. unfold Hub.connect. rewrite Hacc. simpl.
    split; [done|]. split; [done|]. split.
    + apply NoDup_app. split; [done|]. split; [|apply NoDup_singleton].
      intros x Hx Hx'. apply list_elem_of_singleton in Hx'. by subst x.
    + unfold Hub.disconnect. simpl.
      rewrite bool_decide_eq_true_2 by (apply elem_of_app; right; apply list_elem_of_here).
      rewrite hub_list_remove_last by done. by destruct cm.
  - unfold Hub.send_personal_message, Hub.send_text.
    destruct (send_ok websocket) eqn:Hsend; simpl; [done|].
    unfold Hub.disconnect. simpl.
    destruct (bool_decide (websocket ∈ Hub.active_connections cm)) eqn:Hin; simpl.
    + rewrite hub_list_remove_filter by done.
      repeat split; try done. intros _ Hx. apply list_elem_of_filter in Hx as [Hx _]. done.
    + apply bool_decide_eq_false in Hin. rewrite hub_filter_absent by done. done.
Qed.

End ConnectionSet.

(** X18 on a set of two connections, with a third socket that is
    accepted and a second one whose send raises. *)
Lemma connection_set_updates_witness :
  let cm := {| Hub.active_connections := [1%nat; 2%nat]; Hub.sends := [] |} in
  let send_ok := fun c : Hub.WebSocket => bool_decide (c ≠ 2%nat) in
  NoDup (Hub.active_connections cm) ∧
  Hub.active_connections (Hub.send_personal_message send_ok "m" 2%nat cm).2 = [1%nat].
Proof.
  intros cm send_ok.
  assert (Hnd : NoDup (Hub.active_connections cm))
    by (apply (bool_decide_unpack _); by vm_compute).
  split; [exact Hnd|].
  exact (proj1 (proj2 (proj2 (proj2
    (connection_set_updates send_ok (fun _ => true) cm 2%nat "m" Hnd))))).
Defined.

(** ** Progress of one download *)

(** X19. [get_download_progress] never raises and changes neither the
    table, the pending list, the registry, the runner objects nor the
    logs. For an id bound to a runner it answers from the runner's
    object without a call of the store, so also when the store is down;
    for an id bound to no runner it answers from the stored record when
    the store answers, and with [None] when the id is not stored or the
    store fails. *)
Theorem progress_of_download (w : World) (download_id : string) :
  let call := Manager.get_download_progress download_id in
  let w' := exec call w in
  (rows w' = rows w ∧ download_queue w' = download_queue w ∧
   active_downloads w' = active_downloads w ∧ heap w' = heap w ∧
   status_log w' = status_log w ∧ progress_log w' = progress_log w) ∧
  (∀ h c, active_downloads w !! download_id = Some h → heap w !! h = Some c →
     outcome call w = Ok (Some (Runner.get_progress (runner c))) ∧
     db_faults w' = db_faults w) ∧
  (active_downloads w !! download_id = None →
     (raises <$> head (db_faults w) ≠ Some true →
        outcome call w =
          Ok ((fun data => {| dp_downloaded_bytes := 0; dp_total_bytes := None;
                              dp_percentage := Db.row_progress data;
                              dp_status := Db.row_status data |})
              <$> Db.sql_select_id download_id (rows w))) ∧
     (raises <$> head (db_faults w) = Some true → outcome call w = Ok None)).
Proof.
  intros call w'. subst call w'.
  unfold exec, outcome, Manager.get_download_progress, try_except, mbind, M_bind,
    gets, Runner.self, Database.get_download, Database.call.
  simpl. split; [|split].
  - destruct (active_downloads w !! download_id) as [h|]; simpl.
    + by destruct (heap w !! h).
    + destruct (db_faults w) as [|[] fs]; simpl; try done;
        by destruct (Db.sql_select_id download_id (rows w)).
  - intros h c -> ->. done.
  - intros ->. split; intros Hf;
      destruct (db_faults w) as [|[] fs]; simpl in *; try congruence;
      by destruct (Db.sql_select_id download_id (rows w)).
Qed.

(** X19 on a runner that reports progress the store has not seen. *)
Lemma progress_of_download_witness :
  let w := set_db_faults [ExecuteRaises] (run [OpTick; OpRunnerBegin 0] five_queued) in
  active_downloads w !! "a" = Some 0%nat ∧
  (∃ c, heap w !! 0%nat = Some c ∧
        outcome (Manager.get_download_progress "a") w
        = Ok (Some (Runner.get_progress (runner c)))).
Proof.
  intros w.
  assert (Hreg : active_downloads w !! "a" = Some 0%nat) by (by vm_compute).
  split; [exact Hreg|].
  destruct (heap w !! 0%nat) as [c|] eqn:Hc; [|by vm_compute in Hc].
  exists c. split; [reflexivity|].
  exact (proj1 (proj1 (proj2 (progress_of_download w "a")) 0%nat c Hreg Hc)).
Defined.
